(** * Retro Arcade Adventure: the gameplay core of [game.js]

    A shallow embedding of the parts of [game.js] that decide the
    behaviour of a frame: the entity factory, [create], [startActualGame],
    [returnToStartScreen] and the per-frame [update].

    Modelling choices.
    - Sprites are heap objects: the scene's display list is a finite map
      from identities to sprites, and the two Phaser groups hold
      identities, in insertion order.  [Group.getChildren] hands out the
      group's own array and [Group.remove] splices it, so a [forEach] over
      a group that removes children walks a list that changes under it;
      [forEach] below follows [Array.prototype.forEach] on that live array.
    - JavaScript numbers are idealised as rationals ([Q]).  The constants
      [0.3], [0.7] and [0.8] are 3/10, 7/10 and 8/10, and
      [sqrt (dx*dx + dy*dy) < r] is decided as [dx*dx + dy*dy < r*r].
    - [Math.random] is an oracle [rnd] indexed by the number of draws made
      so far; the cosine and sine of the heading towards the player are
      the parameters [cosTo] and [sinTo].
    - Calls into the audio and title-screen code are recorded in [calls];
      HUD texts and tweens are not modelled: the display list of the model
      holds the game sprites (player, enemies, collectibles) only.
    - A session is [create] followed by any sequence of frames, starts of
      play and returns to the start screen; the timers that lead from a key
      press to [startActualGame] and to [returnToStartScreen] are not
      modelled, their firing is an event of the session.
    - The control flow of [AudioSystem.init], [unlock] and [createBeep] is
      modelled apart, in the module [AudioSystem], over the three audio
      fields of [gameState]; what the browser decides is an input. *)

From Stdlib Require Import ZArith QArith Qminmax Lia Lqa List Bool.
From stdpp Require Import base gmap list.

Module GAME_CONSTANTS.
Definition WIDTH : Z := 800.
Definition HEIGHT : Z := 600.
Definition PLAYER_SPEED : Z := 5.
Definition ENEMY_SPEED : Z := 4.
Definition ENEMY_COUNT : nat := 5.
Definition COLLECTIBLE_COUNT : nat := 10.
Definition PLAYER_SIZE : Z := 32.
Definition ENEMY_SIZE : Z := 48.
Definition COLLECTIBLE_SIZE : Z := 32.
Definition SCORE_PER_COLLECTIBLE : Z := 10.
Definition DAMAGE_PER_ENEMY : Z := 10.
Definition MAX_HEALTH : Z := 100.
End GAME_CONSTANTS.

(** ** Data *)

Inductive EnemyType := random | chaser | patrol.

Definition ENEMY_TYPES : list EnemyType := [random; chaser; patrol].

Inductive SpriteKey :=
  | key_player | key_enemy_random | key_enemy_chaser | key_enemy_patrol
  | key_collectible.

(** The three properties [createEnemy] attaches to a sprite. *)
Record EnemyProps := mkEnemyProps {
  type : EnemyType;
  moveCounter : Z;
  moveDirection : Z
}.

Record Sprite := mkSprite {
  x : Q;
  y : Q;
  visible : bool;
  key : SpriteKey;
  props : option EnemyProps
}.

(** The keys [update] reads. *)
Record Keys := mkKeys {
  escDown : bool;
  leftDown : bool;
  rightDown : bool;
  upDown : bool;
  downDown : bool;
  spaceDown : bool
}.

(** Calls that leave the core.  [createBeep] is a call of
    [AudioSystem.createBeep] made by [update] itself, whatever its
    arguments: the escape branch and the game-over block make one each;
    the beeps behind [setTimeout] and inside the [play...Sound] functions
    are not recorded. *)
Inductive Call :=
  | stopIntroMusic | showTitleScreen | playStartSound
  | createBeep | delayedCall_returnToStartScreen
  | playCollectSound | playNewRoundSound | playDamageSound | playGameOverSound.

Global Instance Call_eq_dec : EqDecision Call.
Proof. solve_decision. Defined.

Record GameState := mkGameState {
  sprites : gmap nat Sprite;
  nextId : nat;
  player : nat;
  enemies : list nat;
  collectibles : list nat;
  score : Z;
  health : Z;
  round : Z;
  enemySpeed : Z;
  introComplete : bool;
  gameOver : bool;
  escapePressed : bool;
  draws : nat;
  calls : list Call
}.

(** Field updates. *)

Definition set_x (v : Q) (sp : Sprite) : Sprite :=
  mkSprite v (y sp) (visible sp) (key sp) (props sp).
Definition set_y (v : Q) (sp : Sprite) : Sprite :=
  mkSprite (x sp) v (visible sp) (key sp) (props sp).
Definition set_visible (v : bool) (sp : Sprite) : Sprite :=
  mkSprite (x sp) (y sp) v (key sp) (props sp).
Definition set_props (v : option EnemyProps) (sp : Sprite) : Sprite :=
  mkSprite (x sp) (y sp) (visible sp) (key sp) v.

Definition set_sprites (v : gmap nat Sprite) (s : GameState) : GameState :=
  mkGameState v (nextId s) (player s) (enemies s) (collectibles s) (score s)
    (health s) (round s) (enemySpeed s) (introComplete s) (gameOver s)
    (escapePressed s) (draws s) (calls s).
Definition set_nextId (v : nat) (s : GameState) : GameState :=
  mkGameState (sprites s) v (player s) (enemies s) (collectibles s) (score s)
    (health s) (round s) (enemySpeed s) (introComplete s) (gameOver s)
    (escapePressed s) (draws s) (calls s).
Definition set_enemies (v : list nat) (s : GameState) : GameState :=
  mkGameState (sprites s) (nextId s) (player s) v (collectibles s) (score s)
    (health s) (round s) (enemySpeed s) (introComplete s) (gameOver s)
    (escapePressed s) (draws s) (calls s).
Definition set_collectibles (v : list nat) (s : GameState) : GameState :=
  mkGameState (sprites s) (nextId s) (player s) (enemies s) v (score s)
    (health s) (round s) (enemySpeed s) (introComplete s) (gameOver s)
    (escapePressed s) (draws s) (calls s).
Definition set_score (v : Z) (s : GameState) : GameState :=
  mkGameState (sprites s) (nextId s) (player s) (enemies s) (collectibles s) v
    (health s) (round s) (enemySpeed s) (introComplete s) (gameOver s)
    (escapePressed s) (draws s) (calls s).
Definition set_health (v : Z) (s : GameState) : GameState :=
  mkGameState (sprites s) (nextId s) (player s) (enemies s) (collectibles s)
    (score s) v (round s) (enemySpeed s) (introComplete s) (gameOver s)
    (escapePressed s) (draws s) (calls s).
Definition set_round (v : Z) (s : GameState) : GameState :=
  mkGameState (sprites s) (nextId s) (player s) (enemies s) (collectibles s)
    (score s) (health s) v (enemySpeed s) (introComplete s) (gameOver s)
    (escapePressed s) (draws s) (calls s).
Definition set_enemySpeed (v : Z) (s : GameState) : GameState :=
  mkGameState (sprites s) (nextId s) (player s) (enemies s) (collectibles s)
    (score s) (health s) (round s) v (introComplete s) (gameOver s)
    (escapePressed s) (draws s) (calls s).
Definition set_introComplete (v : bool) (s : GameState) : GameState :=
  mkGameState (sprites s) (nextId s) (player s) (enemies s) (collectibles s)
    (score s) (health s) (round s) (enemySpeed s) v (gameOver s)
    (escapePressed s) (draws s) (calls s).
Definition set_gameOver (v : bool) (s : GameState) : GameState :=
  mkGameState (sprites s) (nextId s) (player s) (enemies s) (collectibles s)
    (score s) (health s) (round s) (enemySpeed s) (introComplete s) v
    (escapePressed s) (draws s) (calls s).
Definition set_escapePressed (v : bool) (s : GameState) : GameState :=
  mkGameState (sprites s) (nextId s) (player s) (enemies s) (collectibles s)
    (score s) (health s) (round s) (enemySpeed s) (introComplete s)
    (gameOver s) v (draws s) (calls s).
Definition set_draws (v : nat) (s : GameState) : GameState :=
  mkGameState (sprites s) (nextId s) (player s) (enemies s) (collectibles s)
    (score s) (health s) (round s) (enemySpeed s) (introComplete s)
    (gameOver s) (escapePressed s) v (calls s).
Definition call (c : Call) (s : GameState) : GameState :=
  mkGameState (sprites s) (nextId s) (player s) (enemies s) (collectibles s)
    (score s) (health s) (round s) (enemySpeed s) (introComplete s)
    (gameOver s) (escapePressed s) (draws s) (calls s ++ [c]).

(** ** Phaser primitives the source calls *)

(** [Phaser.Math.Clamp (value, min, max)] is
    [Math.max (min, Math.min (max, value))]. *)
Definition Clamp (value lo hi : Q) : Q := Qmax lo (Qmin hi value).

Definition Qltb (a b : Q) : bool := negb (Qle_bool b a).

(** [Phaser.Math.Distance.Between (x1, y1, x2, y2) < r], for [0 <= r]. *)
Definition Distance_lt (x1 y1 x2 y2 : Q) (r : Z) : bool :=
  Qltb ((x1 - x2) * (x1 - x2) + (y1 - y2) * (y1 - y2))
       (inject_Z r * inject_Z r).

(** [scene.add.sprite (x, y, key)]: a new game object on the display list.
    Phaser game objects are created visible. *)
Definition add_sprite (px py : Q) (k : SpriteKey) (s : GameState)
  : nat * GameState :=
  let id := nextId s in
  (id, set_nextId (S id)
         (set_sprites (<[id := mkSprite px py true k None]> (sprites s)) s)).

Definition update_sprite (id : nat) (f : Sprite -> Sprite) (s : GameState)
  : GameState :=
  set_sprites (alter f id (sprites s)) s.

(** [sprite.setVisible (v)]. *)
Definition setVisible (v : bool) (id : nat) (s : GameState) : GameState :=
  update_sprite id (set_visible v) s.

(** [group.setVisible (v)]: every child of the group. *)
Definition group_setVisible (v : bool) (ids : list nat) (s : GameState)
  : GameState :=
  fold_left (fun st id => setVisible v id st) ids s.

(** [group.add (child)]: the group is a set, a child already in it is not
    added again. *)
Definition group_add (id : nat) (l : list nat) : list nat :=
  if decide (id ∈ l) then l else l ++ [id].

(** [group.remove (child)]: [indexOf] and [splice]. *)
Fixpoint group_remove (id : nat) (l : list nat) : list nat :=
  match l with
  | [] => []
  | a :: l' => if decide (a = id) then l' else a :: group_remove id l'
  end.

(** [group.clear (true, true)]: every child leaves the group and the scene
    and is destroyed. *)
Definition destroy_all (ids : list nat) (m : gmap nat Sprite)
  : gmap nat Sprite :=
  fold_left (fun acc id => delete id acc) ids m.

(** [group.getChildren ().forEach (body)] on the live array [get s]: the
    length is read once, then the indices below it are visited in order,
    an index past the current end being skipped. *)
Fixpoint forEach_from (n k : nat) (get : GameState -> list nat)
    (body : nat -> GameState -> GameState) (s : GameState) : GameState :=
  match n with
  | O => s
  | S n' =>
      forEach_from n' (S k) get body
        (match get s !! k with
         | Some id => body id s
         | None => s
         end)
  end.

Definition forEach (get : GameState -> list nat)
    (body : nat -> GameState -> GameState) (s : GameState) : GameState :=
  forEach_from (length (get s)) 0 get body s.

Definition player_visible (s : GameState) : bool :=
  match sprites s !! player s with
  | Some p => visible p
  | None => false
  end.

Section Game.

(** The value [Math.random] returns at each draw, as a natural number that
    [Between] reduces into the requested range. *)
Variable rnd : nat -> nat.

(** [Math.cos] and [Math.sin] of [Phaser.Math.Angle.Between (x1,y1,x2,y2)]. *)
Variable cosTo : Q -> Q -> Q -> Q -> Q.
Variable sinTo : Q -> Q -> Q -> Q -> Q.

(** [Phaser.Math.Between (min, max)]: an integer of [[min, max]]. *)
Definition Between (lo hi : Z) (s : GameState) : Z * GameState :=
  ((lo + Z.of_nat (rnd (draws s)) mod (hi - lo + 1))%Z,
   set_draws (S (draws s)) s).

(** [Phaser.Math.RND.pick (gameState.enemyTypes)]. *)
Definition pick_enemyType (s : GameState) : EnemyType * GameState :=
  let '(i, s1) := Between 0 (Z.of_nat (length ENEMY_TYPES) - 1) s in
  (nth (Z.to_nat i) ENEMY_TYPES random, s1).

(** ** GameFactory *)

Definition spriteKey (t : EnemyType) : SpriteKey :=
  match t with
  | chaser => key_enemy_chaser
  | patrol => key_enemy_patrol
  | random => key_enemy_random
  end.

Definition createEnemy (px py : Z) (t : EnemyType) (s : GameState)
  : nat * GameState :=
  let '(id, s1) := add_sprite (inject_Z px) (inject_Z py) (spriteKey t) s in
  let '(d, s2) := Between 0 3 s1 in
  (id, update_sprite id (set_props (Some (mkEnemyProps t 0 d))) s2).

Definition createCollectible (px py : Z) (s : GameState) : nat * GameState :=
  add_sprite (inject_Z px) (inject_Z py) key_collectible s.

(** ** [create] and the session transitions *)

(** One turn of the loop that populates the enemy group in [create] and in
    [returnToStartScreen]; the spawn range uses [PLAYER_SIZE]. *)
Definition spawn_initial_enemy (s : GameState) : GameState :=
  let '(px, s1) := Between GAME_CONSTANTS.PLAYER_SIZE
                     (GAME_CONSTANTS.WIDTH - GAME_CONSTANTS.PLAYER_SIZE) s in
  let '(py, s2) := Between GAME_CONSTANTS.PLAYER_SIZE
                     (GAME_CONSTANTS.HEIGHT - GAME_CONSTANTS.PLAYER_SIZE) s1 in
  let '(id, s3) := createEnemy px py random s2 in
  setVisible false id (set_enemies (group_add id (enemies s3)) s3).

Definition spawn_initial_collectible (s : GameState) : GameState :=
  let '(px, s1) := Between GAME_CONSTANTS.COLLECTIBLE_SIZE
                     (GAME_CONSTANTS.WIDTH - GAME_CONSTANTS.COLLECTIBLE_SIZE) s in
  let '(py, s2) := Between GAME_CONSTANTS.COLLECTIBLE_SIZE
                     (GAME_CONSTANTS.HEIGHT - GAME_CONSTANTS.COLLECTIBLE_SIZE) s1 in
  let '(id, s3) := createCollectible px py s2 in
  setVisible false id (set_collectibles (group_add id (collectibles s3)) s3).

(** The initial [gameState] object, before [create] has run. *)
Definition gameState0 : GameState :=
  mkGameState ∅ 0 0 [] [] 0 GAME_CONSTANTS.MAX_HEALTH 1
    GAME_CONSTANTS.ENEMY_SPEED false false false 0 [].

Definition hide_all (s : GameState) : GameState :=
  group_setVisible false (collectibles s)
    (group_setVisible false (enemies s) (setVisible false (player s) s)).

Definition create : GameState :=
  let '(p, s1) :=
    add_sprite (inject_Z GAME_CONSTANTS.WIDTH / 2)%Q
      (inject_Z GAME_CONSTANTS.HEIGHT / 2)%Q key_player gameState0 in
  let s2 := mkGameState (sprites s1) (nextId s1) p (enemies s1)
              (collectibles s1) (score s1) (health s1) (round s1)
              (enemySpeed s1) (introComplete s1) (gameOver s1)
              (escapePressed s1) (draws s1) (calls s1) in
  let s3 := Nat.iter GAME_CONSTANTS.ENEMY_COUNT spawn_initial_enemy s2 in
  let s4 := Nat.iter GAME_CONSTANTS.COLLECTIBLE_COUNT
              spawn_initial_collectible s3 in
  hide_all (call showTitleScreen s4).

Definition startActualGame (s : GameState) : GameState :=
  let s1 := call stopIntroMusic s in
  let s2 := setVisible true (player s1) s1 in
  let s3 := group_setVisible true (enemies s2) s2 in
  let s4 := group_setVisible true (collectibles s3) s3 in
  set_introComplete true (call playStartSound s4).

Definition returnToStartScreen (s : GameState) : GameState :=
  let s := call stopIntroMusic s in
  let s := set_score 0 s in
  let s := set_health GAME_CONSTANTS.MAX_HEALTH s in
  let s := set_round 1 s in
  let s := set_enemySpeed GAME_CONSTANTS.ENEMY_SPEED s in
  let s := set_introComplete false s in
  let s := set_gameOver false s in
  let s := hide_all s in
  let s := set_enemies [] (set_sprites (destroy_all (enemies s) (sprites s)) s) in
  let s := Nat.iter GAME_CONSTANTS.ENEMY_COUNT spawn_initial_enemy s in
  let s := set_collectibles []
             (set_sprites (destroy_all (collectibles s) (sprites s)) s) in
  let s := Nat.iter GAME_CONSTANTS.COLLECTIBLE_COUNT
             spawn_initial_collectible s in
  call showTitleScreen s.

(** ** [update] *)

Definition move_player (k : Keys) (s : GameState) : GameState :=
  let speed := inject_Z GAME_CONSTANTS.PLAYER_SPEED in
  let s := if leftDown k
           then update_sprite (player s) (fun sp => set_x (x sp - speed) sp) s
           else s in
  let s := if rightDown k
           then update_sprite (player s) (fun sp => set_x (x sp + speed) sp) s
           else s in
  let s := if upDown k
           then update_sprite (player s) (fun sp => set_y (y sp - speed) sp) s
           else s in
  if downDown k
  then update_sprite (player s) (fun sp => set_y (y sp + speed) sp) s
  else s.

(** Both the player and the enemies are kept within the same bounds, the
    ones of [PLAYER_SIZE]. *)
Definition clamp_sprite (sp : Sprite) : Sprite :=
  let sp1 :=
    set_x (Clamp (x sp) (inject_Z GAME_CONSTANTS.PLAYER_SIZE)
             (inject_Z (GAME_CONSTANTS.WIDTH - GAME_CONSTANTS.PLAYER_SIZE))) sp in
  set_y (Clamp (y sp1) (inject_Z GAME_CONSTANTS.PLAYER_SIZE)
           (inject_Z (GAME_CONSTANTS.HEIGHT - GAME_CONSTANTS.PLAYER_SIZE))) sp1.

Definition clamp_player (s : GameState) : GameState :=
  update_sprite (player s) clamp_sprite s.

(** The counter and facing of a patrol enemy for this frame. *)
Definition patrol_turn (p : EnemyProps) (s : GameState)
  : EnemyProps * GameState :=
  let c := (moveCounter p + 1)%Z in
  if (60 <? c)%Z
  then let '(d, s1) := Between 0 3 s in (mkEnemyProps (type p) 0 d, s1)
  else (mkEnemyProps (type p) c (moveDirection p), s).

Definition patrol_step (d : Z) (step : Q) (sp : Sprite) : Sprite :=
  match d with
  | 0%Z => set_y (y sp - step) sp
  | 1%Z => set_y (y sp + step) sp
  | 2%Z => set_x (x sp - step) sp
  | 3%Z => set_x (x sp + step) sp
  | _ => sp
  end.

Definition move_by_type (e : nat) (sp : Sprite) (p : EnemyProps)
    (s : GameState) : GameState :=
  match type p with
  | random =>
      let speed := enemySpeed s in
      let '(dx, s1) := Between (- speed) speed s in
      let s2 := update_sprite e (fun q => set_x (x q + inject_Z dx) q) s1 in
      let '(dy, s3) := Between (- speed) speed s2 in
      update_sprite e (fun q => set_y (y q + inject_Z dy) q) s3
  | chaser =>
      match sprites s !! player s with
      | Some pl =>
          if visible pl then
            let speed := (inject_Z (enemySpeed s) * (3 # 10))%Q in
            let c := cosTo (x sp) (y sp) (x pl) (y pl) in
            let sn := sinTo (x sp) (y sp) (x pl) (y pl) in
            let s1 := update_sprite e
                        (fun q => set_x (x q + c * speed * (8 # 10)) q) s in
            update_sprite e (fun q => set_y (y q + sn * speed * (8 # 10)) q) s1
          else s
      | None => s
      end
  | patrol =>
      let speed := inject_Z (enemySpeed s) in
      let '(p1, s1) := patrol_turn p s in
      let s2 := update_sprite e (set_props (Some p1)) s1 in
      update_sprite e (patrol_step (moveDirection p1) (speed * (7 # 10))) s2
  end.

(** The body of the enemy movement loop. *)
Definition move_enemy (e : nat) (s : GameState) : GameState :=
  let s1 :=
    match sprites s !! e with
    | Some sp =>
        match props sp with
        | Some p => move_by_type e sp p s
        | None => s
        end
    | None => s
    end in
  update_sprite e clamp_sprite s1.

Definition move_enemies (s : GameState) : GameState :=
  forEach enemies move_enemy s.

(** One turn of the respawn loop of a new round: the collectible is added
    and left as created. *)
Definition respawn_collectible (s : GameState) : GameState :=
  let '(px, s1) := Between GAME_CONSTANTS.COLLECTIBLE_SIZE
                     (GAME_CONSTANTS.WIDTH - GAME_CONSTANTS.COLLECTIBLE_SIZE) s in
  let '(py, s2) := Between GAME_CONSTANTS.COLLECTIBLE_SIZE
                     (GAME_CONSTANTS.HEIGHT - GAME_CONSTANTS.COLLECTIBLE_SIZE) s1 in
  let '(id, s3) := createCollectible px py s2 in
  set_collectibles (group_add id (collectibles s3)) s3.

Definition spawn_round_enemy (s : GameState) : GameState :=
  let '(t, s1) := pick_enemyType s in
  let '(px, s2) := Between GAME_CONSTANTS.ENEMY_SIZE
                     (GAME_CONSTANTS.WIDTH - GAME_CONSTANTS.ENEMY_SIZE) s1 in
  let '(py, s3) := Between GAME_CONSTANTS.ENEMY_SIZE
                     (GAME_CONSTANTS.HEIGHT - GAME_CONSTANTS.ENEMY_SIZE) s2 in
  let '(id, s4) := createEnemy px py t s3 in
  set_enemies (group_add id (enemies s4)) s4.

(** The block run when the last collectible of the group was collected. *)
Definition new_round (s : GameState) : GameState :=
  let s := set_round (round s + 1) s in
  let s := set_enemySpeed (enemySpeed s + 1) s in
  let s := call playNewRoundSound s in
  let s := Nat.iter GAME_CONSTANTS.COLLECTIBLE_COUNT respawn_collectible s in
  if (2 <=? round s)%Z then spawn_round_enemy s else s.

(** Whether the collision tests of [update] fire on the sprite [id]. *)
Definition touches (id : nat) (size : Z) (s : GameState) : bool :=
  match sprites s !! id, sprites s !! player s with
  | Some sp, Some pl =>
      visible sp && visible pl
      && Distance_lt (x pl) (y pl) (x sp) (y sp) size
  | _, _ => false
  end.

(** The body of the collectible loop. *)
Definition collect (c : nat) (s : GameState) : GameState :=
  if touches c GAME_CONSTANTS.COLLECTIBLE_SIZE s then
    let s := setVisible false c s in
    let s := set_collectibles (group_remove c (collectibles s)) s in
    let s := set_score (score s + GAME_CONSTANTS.SCORE_PER_COLLECTIBLE) s in
    let s := call playCollectSound s in
    if (length (collectibles s) =? 0)%nat then new_round s else s
  else s.

Definition collectible_collisions (s : GameState) : GameState :=
  if introComplete s && negb (gameOver s)
  then forEach collectibles collect s
  else s.

(** The game-over block: the flag, the three hidings, the beep the block
    asks for itself (its two later beeps are behind [setTimeout]) and the
    game-over sound; the texts and the restart button are not modelled. *)
Definition game_over (s : GameState) : GameState :=
  call playGameOverSound
    (call createBeep (hide_all (set_gameOver true s))).

(** The body of the enemy collision loop. *)
Definition hit (e : nat) (s : GameState) : GameState :=
  if touches e GAME_CONSTANTS.ENEMY_SIZE s then
    let s := set_health (health s - GAME_CONSTANTS.DAMAGE_PER_ENEMY) s in
    let s := call playDamageSound s in
    if (health s <=? 0)%Z then game_over s else s
  else s.

Definition enemy_collisions (s : GameState) : GameState :=
  if introComplete s && negb (gameOver s)
  then forEach enemies hit s
  else s.

Definition update (k : Keys) (s : GameState) : GameState :=
  if escDown k && negb (escapePressed s) then
    call delayedCall_returnToStartScreen
      (call createBeep (set_escapePressed true s))
  else
    let s := if negb (escDown k) then set_escapePressed false s else s in
    if gameOver s then s
    else
      let s := clamp_player (move_player k s) in
      if spaceDown k && negb (negb (introComplete s) || gameOver s) then s
      else enemy_collisions (collectible_collisions (move_enemies s)).

(** Consecutive frames, one set of keys per frame. *)
Definition run (ks : list Keys) (s : GameState) : GameState :=
  fold_left (fun st k => update k st) ks s.

End Game.

(** The fields of the session other than the display list, the identity
    counter, the escape latch and the random draws. *)
Definition session (s : GameState) :=
  (player s, enemies s, collectibles s, score s, health s, round s,
   enemySpeed s, introComplete s, gameOver s, calls s).

(** What the four arrow keys do to the player sprite in one frame. *)
Definition steer (k : Keys) (sp : Sprite) : Sprite :=
  let speed := inject_Z GAME_CONSTANTS.PLAYER_SPEED in
  let sp := if leftDown k then set_x (x sp - speed) sp else sp in
  let sp := if rightDown k then set_x (x sp + speed) sp else sp in
  let sp := if upDown k then set_y (y sp - speed) sp else sp in
  if downDown k then set_y (y sp + speed) sp else sp.

Definition in_bounds (sp : Sprite) : Prop :=
  (inject_Z GAME_CONSTANTS.PLAYER_SIZE <= x sp
   /\ x sp <= inject_Z (GAME_CONSTANTS.WIDTH - GAME_CONSTANTS.PLAYER_SIZE)
   /\ inject_Z GAME_CONSTANTS.PLAYER_SIZE <= y sp
   /\ y sp <= inject_Z (GAME_CONSTANTS.HEIGHT - GAME_CONSTANTS.PLAYER_SIZE))%Q.

(** Sample scenes. *)
Definition quiet : Keys := mkKeys false false false false false false.
Definition rnd0 : nat -> nat := fun _ => 0%nat.
Definition dir0 : Q -> Q -> Q -> Q -> Q := fun _ _ _ _ => 0%Q.

Definition player_at (px py : Z) : Sprite :=
  mkSprite (inject_Z px) (inject_Z py) true key_player None.
Definition collectible_at (px py : Z) : Sprite :=
  mkSprite (inject_Z px) (inject_Z py) true key_collectible None.
Definition enemy_at (t : EnemyType) (c d px py : Z) : Sprite :=
  mkSprite (inject_Z px) (inject_Z py) true (spriteKey t)
    (Some (mkEnemyProps t c d)).

(** A scene in play: the sprites get the identities [0], [1], ... in the
    order of the list, the player being sprite [0]. *)
Definition scene (l : list Sprite) (es cs : list nat) (h : Z) : GameState :=
  mkGameState (map_seq 0 l) (length l) 0
    es cs 0 h 1 GAME_CONSTANTS.ENEMY_SPEED true false false 0 [].

(** The scenario of the collectible five pixels away, with a second
    collectible far off and one enemy out of reach. *)
Definition scene_collect : GameState :=
  scene [player_at 100 100; collectible_at 105 100; collectible_at 400 300;
         enemy_at random 0 0 600 400] [3%nat] [1%nat; 2%nat] 100.

Definition holding_space : Keys := mkKeys false false false false false true.
Definition holding_left : Keys := mkKeys false true false false false false.
Definition escape_space_left : Keys := mkKeys true true false false false true.
Definition holding_escape : Keys := mkKeys true false false false false false.

Definition scene_over : GameState := set_gameOver true scene_collect.

(** The last collectible of a round, five pixels away. *)
Definition scene_last : GameState :=
  scene [player_at 100 100; collectible_at 105 100;
         enemy_at random 0 0 600 400] [2%nat] [1%nat] 100.

(** Two collectibles in reach, next to each other in the group. *)
Definition scene_pair : GameState :=
  scene [player_at 100 100; collectible_at 105 100; collectible_at 100 105;
         collectible_at 400 300] [] [1%nat; 2%nat; 3%nat] 100.

(** Ten points of health left and two enemies on the player. *)
Definition scene_fatal : GameState :=
  scene [player_at 400 300; enemy_at patrol 0 0 400 310;
         enemy_at patrol 0 0 400 290] [1%nat; 2%nat] [] 10.

(** A patrol enemy that has just turned to the right, away from the
    player. *)
Definition scene_patrol : GameState :=
  scene [player_at 100 100; enemy_at patrol 0 3 400 300] [1%nat] [] 100.

(** Full health and three enemies on the player. *)
Definition scene_crowd : GameState :=
  scene [player_at 400 300; enemy_at patrol 0 0 400 310;
         enemy_at patrol 0 0 400 290; enemy_at patrol 0 0 410 300;
         enemy_at patrol 0 0 700 500]
    [1%nat; 2%nat; 3%nat; 4%nat] [] 100.

(** The enemies of [l] that the collision test of the enemy loop fires
    on. *)
Definition touching (l : list nat) (s : GameState) : list nat :=
  List.filter (fun e => touches e GAME_CONSTANTS.ENEMY_SIZE s) l.

(** An enemy near the left edge. *)
Definition scene_edge : GameState :=
  scene [player_at 400 300; enemy_at random 0 0 40 300] [1%nat] [] 100.

(** The state the collision code of a frame works on. *)
Definition after_movement (rnd : nat -> nat) (cosTo sinTo : Q -> Q -> Q -> Q -> Q)
    (k : Keys) (s : GameState) : GameState :=
  move_enemies rnd cosTo sinTo
    (clamp_player
       (move_player k
          (if negb (escDown k) then set_escapePressed false s else s))).

(** A sprite that is absent or invisible. *)
Definition hidden (id : nat) (s : GameState) : Prop :=
  forall sp, sprites s !! id = Some sp -> visible sp = false.

(** The player and every child of the two groups are hidden. *)
Definition all_hidden (s : GameState) : Prop :=
  hidden (player s) s
  /\ (forall e, e ∈ enemies s -> hidden e s)
  /\ (forall c, c ∈ collectibles s -> hidden c s).


(** [o'] is the sprite [o], possibly hidden since. *)
Definition hides (o o' : option Sprite) : Prop :=
  o' = o \/ o' = set_visible false <$> o.

(** What the two collision loops may do to a scene: hide sprites, take
    children out of a group, and add new sprites, all placed within
    bounds, under fresh identities. *)
Record evolves (s s' : GameState) : Prop := mkEvolves {
  ev_player : player s' = player s;
  ev_next : (nextId s <= nextId s')%nat;
  ev_old : forall id, (id < nextId s \/ nextId s' <= id)%nat ->
             hides (sprites s !! id) (sprites s' !! id);
  ev_new : forall id sp, (nextId s <= id < nextId s')%nat ->
             sprites s' !! id = Some sp -> in_bounds sp;
  ev_enemies : forall id, id ∈ enemies s' ->
                 id ∈ enemies s \/ (nextId s <= id < nextId s')%nat;
  ev_collectibles : forall id, id ∈ collectibles s' ->
                      id ∈ collectibles s \/ (nextId s <= id < nextId s')%nat
}.

(** Identities are handed out in increasing order, and a group holds each
    child once. *)
Record wf (s : GameState) : Prop := mkWf {
  wf_sprites : forall id, is_Some (sprites s !! id) -> (id < nextId s)%nat;
  wf_player : (player s < nextId s)%nat;
  wf_enemies : forall id, id ∈ enemies s -> (id < nextId s)%nat;
  wf_collectibles : forall id, id ∈ collectibles s -> (id < nextId s)%nat;
  wf_enemies_NoDup : NoDup (enemies s);
  wf_collectibles_NoDup : NoDup (collectibles s)
}.

(** A change of a sprite that ends with the clamp and leaves its look. *)
Definition moves (g : Sprite -> Sprite) : Prop :=
  forall sp, in_bounds (g sp) /\ visible (g sp) = visible sp
             /\ key (g sp) = key sp.

(** [wf], as a test that can be run on a scene. *)
Definition wf_check (s : GameState) : bool :=
  bool_decide (map_Forall (fun id _ => (id < nextId s)%nat) (sprites s))
  && bool_decide (player s < nextId s)%nat
  && bool_decide (Forall (fun id => (id < nextId s)%nat) (enemies s))
  && bool_decide (Forall (fun id => (id < nextId s)%nat) (collectibles s))
  && bool_decide (NoDup (enemies s))
  && bool_decide (NoDup (collectibles s)).

(** The fields the collectible loop never writes, with the numbers of
    damage and game-over calls made so far. *)
Definition beside_collects (s : GameState) :=
  (player s, health s, introComplete s, gameOver s,
   count_occ Call_eq_dec (calls s) playGameOverSound,
   count_occ Call_eq_dec (calls s) playDamageSound).

(** The fields that only the start of a new round writes, with the number
    of new-round calls made so far. *)
Definition beside_rounds (s : GameState) :=
  (round s, enemySpeed s, enemies s, nextId s, draws s,
   count_occ Call_eq_dec (calls s) playNewRoundSound).

(** The score not accounted for by collect calls, and the number of collect
    calls: each collected item is worth ten points. *)
Definition tally (s : GameState) : Z :=
  (score s
   - GAME_CONSTANTS.SCORE_PER_COLLECTIBLE
     * Z.of_nat (count_occ Call_eq_dec (calls s) playCollectSound))%Z.

Definition count_calls (c : Call) (s : GameState) : nat :=
  count_occ Call_eq_dec (calls s) c.

(** Every step of the two collision loops keeps the tally and never loses
    a collect call. *)
Definition keeps_tally (s s' : GameState) : Prop :=
  tally s' = tally s
  /\ (count_calls playCollectSound s <= count_calls playCollectSound s')%nat.

(** The state between the collection of [c] and the test for an empty
    group. *)
Definition collected (c : nat) (s : GameState) : GameState :=
  call playCollectSound
    (set_score (score s + GAME_CONSTANTS.SCORE_PER_COLLECTIBLE)
       (set_collectibles (group_remove c (collectibles s))
          (setVisible false c s))).

(** An enemy of the initial population: hidden, of type [random]. *)
Definition initial_enemy (sp : Sprite) : Prop :=
  visible sp = false /\ key sp = key_enemy_random
  /\ exists d, props sp = Some (mkEnemyProps random 0 d).

(** A collectible of the initial population: hidden. *)
Definition initial_collectible (sp : Sprite) : Prop :=
  visible sp = false /\ key sp = key_collectible /\ props sp = None.

(** The state [returnToStartScreen] restores, up to the positions drawn
    for the new sprites. *)
Definition canonical (s : GameState) : Prop :=
  score s = 0%Z /\ health s = GAME_CONSTANTS.MAX_HEALTH /\ round s = 1%Z
  /\ enemySpeed s = GAME_CONSTANTS.ENEMY_SPEED
  /\ introComplete s = false /\ gameOver s = false
  /\ length (enemies s) = GAME_CONSTANTS.ENEMY_COUNT
  /\ (forall e, e ∈ enemies s ->
        exists sp, sprites s !! e = Some sp /\ initial_enemy sp)
  /\ length (collectibles s) = GAME_CONSTANTS.COLLECTIBLE_COUNT
  /\ (forall c, c ∈ collectibles s ->
        exists sp, sprites s !! c = Some sp /\ initial_collectible sp)
  /\ all_hidden s.

(** The counter and facing a patrol enemy leaves a frame with, [d] being
    the facing drawn if it turns. *)
Definition patrol_next (p : EnemyProps) (d : Z) : EnemyProps :=
  if (60 <? moveCounter p + 1)%Z then mkEnemyProps (type p) 0 d
  else mkEnemyProps (type p) (moveCounter p + 1) (moveDirection p).

(** The stages of [returnToStartScreen]. *)
Definition reset_session (s : GameState) : GameState :=
  set_gameOver false
    (set_introComplete false
       (set_enemySpeed GAME_CONSTANTS.ENEMY_SPEED
          (set_round 1
             (set_health GAME_CONSTANTS.MAX_HEALTH
                (set_score 0 (call stopIntroMusic s)))))).

Definition clear_enemies (s : GameState) : GameState :=
  set_enemies [] (set_sprites (destroy_all (enemies s) (sprites s)) s).

Definition clear_collectibles (s : GameState) : GameState :=
  set_collectibles []
    (set_sprites (destroy_all (collectibles s) (sprites s)) s).

(** The fields a respawn or a spawn leaves alone. *)
Definition beside_spawns (s : GameState) :=
  (player s, score s, health s, round s, enemySpeed s, introComplete s,
   gameOver s, calls s).

(** A collectible as the respawn loop makes it: visible, within the spawn
    range of the collectible size. *)
Definition respawned (sp : Sprite) : Prop :=
  exists px py,
    (GAME_CONSTANTS.COLLECTIBLE_SIZE <= px
     <= GAME_CONSTANTS.WIDTH - GAME_CONSTANTS.COLLECTIBLE_SIZE)%Z
    /\ (GAME_CONSTANTS.COLLECTIBLE_SIZE <= py
        <= GAME_CONSTANTS.HEIGHT - GAME_CONSTANTS.COLLECTIBLE_SIZE)%Z
    /\ sp = collectible_at px py.

(** An enemy as the start of a round makes it: visible, of one of the
    three types, facing one of the four directions, within the spawn range
    of the enemy size. *)
Definition round_enemy (sp : Sprite) : Prop :=
  exists t d px py,
    t ∈ ENEMY_TYPES /\ (0 <= d <= 3)%Z
    /\ (GAME_CONSTANTS.ENEMY_SIZE <= px
        <= GAME_CONSTANTS.WIDTH - GAME_CONSTANTS.ENEMY_SIZE)%Z
    /\ (GAME_CONSTANTS.ENEMY_SIZE <= py
        <= GAME_CONSTANTS.HEIGHT - GAME_CONSTANTS.ENEMY_SIZE)%Z
    /\ sp = enemy_at t 0 d px py.

(** The state [update] works on once the escape key has been looked at. *)
Definition after_escape (k : Keys) (s : GameState) : GameState :=
  if negb (escDown k) then set_escapePressed false s else s.

(** The fields the enemy collision loop never writes. *)
Definition beside_hits (s : GameState) :=
  (player s, enemies s, collectibles s, score s, round s, enemySpeed s,
   introComplete s, nextId s, draws s).

(** The value of the [n]-th draw for the range [[lo, hi]]. *)
Definition draw (rnd : nat -> nat) (lo hi : Z) (n : nat) : Z :=
  (lo + Z.of_nat (rnd n) mod (hi - lo + 1))%Z.

(** The enemy type picked by the [n]-th draw. *)
Definition drawn_type (rnd : nat -> nat) (n : nat) : EnemyType :=
  nth (Z.to_nat (draw rnd 0 (Z.of_nat (length ENEMY_TYPES) - 1) n)) ENEMY_TYPES
    random.

(** ** Sessions *)

(** What happens to the scene between its creation and a reload of the
    page: a frame, the start of play at the end of the loading screen, the
    return to the start screen that the escape key schedules. *)
Inductive Event :=
  | Frame (k : Keys)
  | StartGame
  | ReturnToStart.

Definition step (rnd : nat -> nat) (cosTo sinTo : Q -> Q -> Q -> Q -> Q)
    (s : GameState) (ev : Event) : GameState :=
  match ev with
  | Frame k => update rnd cosTo sinTo k s
  | StartGame => startActualGame s
  | ReturnToStart => returnToStartScreen rnd s
  end.

(** The scene after [create] and the given events, oldest first. *)
Definition play (rnd : nat -> nat) (cosTo sinTo : Q -> Q -> Q -> Q -> Q)
    (evs : list Event) : GameState :=
  fold_left (step rnd cosTo sinTo) evs (create rnd).

(** The look of a sprite as the game makes and keeps them: an enemy (a
    sprite with the three enemy properties) wears the texture of its type,
    its counter is between 0 and 60 and its facing one of the four
    directions; any other sprite wears the player or the collectible
    texture. *)
Definition ok_look (sp : Sprite) : Prop :=
  match props sp with
  | Some p =>
      key sp = spriteKey (type p)
      /\ (0 <= moveCounter p <= 60)%Z /\ (0 <= moveDirection p <= 3)%Z
  | None => key sp = key_player \/ key sp = key_collectible
  end.

(** A sprite within the bounds of the clamp, with that look. *)
Definition ok_sprite (sp : Sprite) : Prop := in_bounds sp /\ ok_look sp.

(** [b] is a later state of the sprite [a]: the texture is the same, and
    [b] is a sprite as the game keeps them if [a] was. *)
Definition kept (a b : Sprite) : Prop :=
  (ok_sprite a -> ok_sprite b) /\ key b = key a.

(** [kept], the visibility being the same too. *)
Definition moved (a b : Sprite) : Prop :=
  kept a b /\ visible b = visible a.

(** The display list and the groups of a scene fit together. *)
Record scene_ok (s : GameState) : Prop := mkSceneOk {
  scene_wf : wf s;
  scene_sprites : forall id sp, sprites s !! id = Some sp -> ok_sprite sp;
  scene_player : exists sp, sprites s !! player s = Some sp
                            /\ key sp = key_player;
  scene_enemies : forall e, e ∈ enemies s ->
                    exists sp, sprites s !! e = Some sp
                               /\ exists t, key sp = spriteKey t;
  scene_collectibles : forall c, c ∈ collectibles s ->
                         exists sp, sprites s !! c = Some sp
                                    /\ key sp = key_collectible
}.

(** The counters of a scene fit together. *)
Record counters_ok (s : GameState) : Prop := mkCountersOk {
  counters_round : (1 <= round s)%Z;
  counters_speed :
    enemySpeed s = (round s + (GAME_CONSTANTS.ENEMY_SPEED - 1))%Z;
  counters_enemies :
    Z.of_nat (length (enemies s))
    = (round s + (Z.of_nat GAME_CONSTANTS.ENEMY_COUNT - 1))%Z;
  counters_collectibles :
    (1 <= length (collectibles s) <= GAME_CONSTANTS.COLLECTIBLE_COUNT)%nat;
  counters_health :
    (0 <= health s <= GAME_CONSTANTS.MAX_HEALTH)%Z
    /\ (GAME_CONSTANTS.DAMAGE_PER_ENEMY | health s)%Z;
  counters_over : gameOver s = true <-> health s = 0%Z;
  counters_score :
    score s
    = (GAME_CONSTANTS.SCORE_PER_COLLECTIBLE
       * (Z.of_nat GAME_CONSTANTS.COLLECTIBLE_COUNT * (round s - 1)
          + (Z.of_nat GAME_CONSTANTS.COLLECTIBLE_COUNT
             - Z.of_nat (length (collectibles s)))))%Z
}.

(** What every scene of a session satisfies: the two above, and nothing is
    shown before play starts. *)
Definition Inv (s : GameState) : Prop :=
  scene_ok s /\ counters_ok s /\ (introComplete s = false -> all_hidden s).

(** The fields [Inv] reads besides the display list. *)
Definition inv_fields (s : GameState) :=
  (nextId s, player s, enemies s, collectibles s, round s, enemySpeed s,
   health s, gameOver s, score s, introComplete s).

(** The scene [create] populates: the player sprite alone, at the centre. *)
Definition scene_created : GameState :=
  mkGameState
    (<[0%nat := mkSprite (inject_Z GAME_CONSTANTS.WIDTH / 2)%Q
                  (inject_Z GAME_CONSTANTS.HEIGHT / 2)%Q true key_player None]>
       ∅)
    1 0 [] [] 0 GAME_CONSTANTS.MAX_HEALTH 1 GAME_CONSTANTS.ENEMY_SPEED
    false false false 0 [].

(** The latch of the escape key, with the number of returns to the start
    screen scheduled so far and the number of beeps [update] has asked for
    itself beyond the one of each game-over block (which is followed by the
    game-over sound). *)
Definition latch (s : GameState) :=
  (escapePressed s,
   count_occ Call_eq_dec (calls s) delayedCall_returnToStartScreen,
   (Z.of_nat (count_occ Call_eq_dec (calls s) createBeep)
    - Z.of_nat (count_occ Call_eq_dec (calls s) playGameOverSound))%Z).

(** During play the player is shown; before play starts every enemy of
    the group wears the texture of the [random] type. *)
Definition stage_ok (s : GameState) : Prop :=
  (introComplete s = true -> gameOver s = false -> player_visible s = true)
  /\ (introComplete s = false ->
      forall e, e ∈ enemies s ->
        exists sp, sprites s !! e = Some sp /\ key sp = key_enemy_random).

(** The display list holds the player, the children of the two groups and
    [n] sprites more. *)
Definition stock (n : nat) (s : GameState) : Prop :=
  size (sprites s)
  = (1 + length (enemies s) + length (collectibles s) + n)%nat.

(** The display list holds the player, the children of the two groups and
    one sprite for every collect call made so far. *)
Definition ledger_ok (s : GameState) : Prop :=
  stock (count_calls playCollectSound s) s.

(** ** AudioSystem *)

(** The part of [gameState] the audio system owns, and the calls that
    reach the Web Audio API.  What the browser decides is an input: whether
    [new AudioContext ()] succeeds and in which state the context is, when
    the state changes, and when and how the promise of [resume ()]
    settles. *)
Module AudioSystem.

(** [AudioContext.state] of a context that was not closed (the code never
    closes one). *)
Inductive ContextState := suspended | running.

Inductive Wave := square | sawtooth | triangle.

Record Beep := mkBeep {
  frequency : Q;
  duration : Q;
  wave : Wave;
  volume : Q
}.

Record AudioState := mkAudioState {
  audioContext : option ContextState;
  isAudioInitialized : bool;
  isAudioUnlocked : bool;
  (** promises of [resume ()] made by [unlock] that have not settled *)
  resuming : nat;
  (** the oscillators started so far *)
  scheduled : list Beep
}.

(** The initial [gameState]. *)
Definition audio0 : AudioState := mkAudioState None false false 0 [].

(** [init ()]: [mk] is what [new AudioContext ()] gives, [None] when it
    throws; the exception is caught. *)
Definition init (mk : option ContextState) (a : AudioState) : AudioState :=
  match audioContext a with
  | Some _ => a
  | None =>
      match mk with
      | Some c =>
          mkAudioState (Some c) true (isAudioUnlocked a) (resuming a)
            (scheduled a)
      | None =>
          mkAudioState None false (isAudioUnlocked a) (resuming a)
            (scheduled a)
      end
  end.

(** [unlock ()]: the state it leaves, and whether it threw: the [else]
    branch reads [gameState.audioContext.state] outside of any [try]. *)
Definition unlock (mk : option ContextState) (a : AudioState)
  : AudioState * bool :=
  if isAudioUnlocked a then (a, false)
  else
    let a1 := if isAudioInitialized a then a else init mk a in
    match audioContext a1 with
    | Some suspended =>
        (mkAudioState (audioContext a1) (isAudioInitialized a1)
           (isAudioUnlocked a1) (S (resuming a1)) (scheduled a1), false)
    | Some running =>
        (mkAudioState (audioContext a1) (isAudioInitialized a1) true
           (resuming a1) (scheduled a1), false)
    | None => (a1, true)
    end.

(** A promise made by [unlock] settles: fulfilled ([ok]) or rejected. *)
Definition settle (ok : bool) (a : AudioState) : AudioState :=
  match resuming a with
  | O => a
  | S n =>
      mkAudioState (audioContext a) (isAudioInitialized a)
        (if ok then match audioContext a with
                    | Some _ => true
                    | None => isAudioUnlocked a
                    end
         else isAudioUnlocked a)
        n (scheduled a)
  end.

(** [createBeep (frequency, duration, type, volume)]. *)
Definition createBeep (mk : option ContextState) (b : Beep) (a : AudioState)
  : AudioState :=
  if negb (isAudioUnlocked a) then a
  else
    let a1 := if isAudioInitialized a then a else init mk a in
    if negb (isAudioInitialized a1) then a1
    else
      match audioContext a1 with
      | Some _ =>
          mkAudioState (audioContext a1) (isAudioInitialized a1)
            (isAudioUnlocked a1) (resuming a1) (scheduled a1 ++ [b])
      | None => a1
      end.

(** The browser changes the state of the context, if there is one. *)
Definition context_changed (c : ContextState) (a : AudioState) : AudioState :=
  match audioContext a with
  | Some _ =>
      mkAudioState (Some c) (isAudioInitialized a) (isAudioUnlocked a)
        (resuming a) (scheduled a)
  | None => a
  end.

Inductive AudioEvent :=
  | Init (mk : option ContextState)
  | Unlock (mk : option ContextState)
  | CreateBeep (mk : option ContextState) (b : Beep)
  | Settled (ok : bool)
  | ContextChanged (c : ContextState).

Definition step (a : AudioState) (ev : AudioEvent) : AudioState :=
  match ev with
  | Init mk => init mk a
  | Unlock mk => fst (unlock mk a)
  | CreateBeep mk b => createBeep mk b a
  | Settled ok => settle ok a
  | ContextChanged c => context_changed c a
  end.

(** The audio state after the given events, oldest first. *)
Definition play (evs : list AudioEvent) : AudioState :=
  fold_left step evs audio0.

(** The flags tell the truth about the context. *)
Definition audio_ok (a : AudioState) : Prop :=
  (isAudioInitialized a = true <-> audioContext a <> None)
  /\ (isAudioUnlocked a = true -> audioContext a <> None)
  /\ ((0 < resuming a)%nat -> audioContext a <> None).

End AudioSystem.

(** [b] is within [v] pixels of [a] on each axis. *)
Definition near (v : Q) (a b : Sprite) : Prop :=
  (x a - v <= x b /\ x b <= x a + v /\ y a - v <= y b /\ y b <= y a + v)%Q.

(** During play every child of the two groups is shown. *)
Definition groups_shown (s : GameState) : Prop :=
  introComplete s = true -> gameOver s = false ->
  forall id, id ∈ enemies s \/ id ∈ collectibles s ->
    exists sp, sprites s !! id = Some sp /\ visible sp = true.

(** The health a scene would have without the damage calls made so far:
    each damage call goes with ten points of health lost. *)
Definition health_tally (s : GameState) : Z :=
  (health s
   + GAME_CONSTANTS.DAMAGE_PER_ENEMY
     * Z.of_nat (count_occ Call_eq_dec (calls s) playDamageSound))%Z.

(** The two tallies of a scene. *)
Definition tallies (s : GameState) :=
  (tally s, health_tally s).

(** Both tallies are kept, and no collect or damage call is lost. *)
Definition keeps_books (s s' : GameState) : Prop :=
  tallies s' = tallies s
  /\ (count_calls playCollectSound s <= count_calls playCollectSound s')%nat
  /\ (count_calls playDamageSound s <= count_calls playDamageSound s')%nat.

(** * Properties *)

Ltac rsimpl :=
  unfold setVisible, update_sprite in *;
  cbn [sprites nextId player enemies collectibles score health round
       enemySpeed introComplete gameOver escapePressed draws calls
       set_sprites set_nextId set_enemies set_collectibles set_score
       set_health set_round set_enemySpeed set_introComplete set_gameOver
       set_escapePressed set_draws call
       x y visible key props set_x set_y set_visible set_props
       type moveCounter moveDirection fst snd] in *.

(** ** The live [forEach] *)

Section ForEach.
Variable get : GameState -> list nat.
Variable body : nat -> GameState -> GameState.

Lemma forEach_from_inv (P : GameState -> Prop) :
  (forall id s, P s -> P (body id s)) ->
  forall n k s, P s -> P (forEach_from n k get body s).
Proof.
  intros Hb n. induction n as [|n IH]; intros k s Hs; [exact Hs|].
  cbn [forEach_from]. apply IH. destruct (get s !! k); auto.
Qed.

Lemma forEach_inv (P : GameState -> Prop) :
  (forall id s, P s -> P (body id s)) ->
  forall s, P s -> P (forEach get body s).
Proof. intros Hb s. apply forEach_from_inv, Hb. Qed.

Lemma forEach_from_S n k s :
  forEach_from (S n) k get body s
  = forEach_from n (S k) get body
      (match get s !! k with Some id => body id s | None => s end).
Proof. reflexivity. Qed.

(** A body that leaves the group alone sees each child once, in order. *)
Hypothesis get_body : forall id s, get (body id s) = get s.

Lemma forEach_from_fold n k s :
  (n + k = length (get s))%nat ->
  forEach_from n k get body s
  = fold_left (fun st id => body id st) (drop k (get s)) s.
Proof.
  revert k s. induction n as [|n IH]; intros k s Hn.
  - rewrite drop_ge by lia. reflexivity.
  - cbn [forEach_from].
    destruct (get s !! k) as [id|] eqn:Hk.
    + rewrite (drop_S _ _ _ Hk). cbn [fold_left].
      rewrite IH by (rewrite get_body; lia).
      rewrite get_body. reflexivity.
    + apply lookup_ge_None in Hk. lia.
Qed.

Lemma forEach_fold s :
  forEach get body s = fold_left (fun st id => body id st) (get s) s.
Proof. unfold forEach. rewrite forEach_from_fold by lia. reflexivity. Qed.

(** The body only ever runs on a child that is in the group at that
    moment. *)
Lemma forEach_from_inv_elem (P : GameState -> Prop) :
  (forall id s, id ∈ get s -> P s -> P (body id s)) ->
  forall n k s, P s -> P (forEach_from n k get body s).
Proof.
  intros Hb n. induction n as [|n IH]; intros k s Hs; [exact Hs|].
  cbn [forEach_from]. apply IH.
  destruct (get s !! k) as [id|] eqn:Hk; [|exact Hs].
  apply Hb; [|exact Hs]. apply list_elem_of_lookup. eauto.
Qed.

Lemma forEach_inv_elem (P : GameState -> Prop) :
  (forall id s, id ∈ get s -> P s -> P (body id s)) ->
  forall s, P s -> P (forEach get body s).
Proof. intros Hb s. apply forEach_from_inv_elem, Hb. Qed.
End ForEach.


Section Properties.

Variable rnd : nat -> nat.
Variable cosTo : Q -> Q -> Q -> Q -> Q.
Variable sinTo : Q -> Q -> Q -> Q -> Q.

Local Abbreviation update := (update rnd cosTo sinTo).
Local Abbreviation run := (run rnd cosTo sinTo).
Local Abbreviation move_enemy := (move_enemy rnd cosTo sinTo).
Local Abbreviation move_enemies := (move_enemies rnd cosTo sinTo).
Local Abbreviation collect := (collect rnd).
Local Abbreviation new_round := (new_round rnd).
Local Abbreviation collectible_collisions := (collectible_collisions rnd).
Local Abbreviation draw := (draw rnd).
Local Abbreviation drawn_type := (drawn_type rnd).
Local Abbreviation after_movement := (after_movement rnd cosTo sinTo).
Local Abbreviation returnToStartScreen := (returnToStartScreen rnd).

Lemma alter_alter (f g : Sprite -> Sprite) (i : nat) (m : gmap nat Sprite) :
  alter f i (alter g i m) = alter (fun sp => f (g sp)) i m.
Proof.
  apply map_eq. intros j. destruct (decide (i = j)) as [->|Hne].
  - rewrite !lookup_alter_eq. destruct (m !! j); reflexivity.
  - rewrite !lookup_alter_ne by exact Hne. reflexivity.
Qed.

Lemma move_player_sprites k s :
  sprites (move_player k s) = alter (steer k) (player s) (sprites s).
Proof.
  unfold move_player, steer.
  destruct (leftDown k), (rightDown k), (upDown k), (downDown k); rsimpl;
    rewrite ?alter_alter; try reflexivity;
    apply map_eq; intros j; destruct (decide (player s = j)) as [->|Hne];
    rewrite ?lookup_alter_eq, ?lookup_alter_ne by exact Hne;
    try reflexivity; destruct (sprites s !! j) as [[]|]; reflexivity.
Qed.

Lemma move_player_session k s : session (move_player k s) = session s.
Proof.
  unfold move_player.
  destruct (leftDown k), (rightDown k), (upDown k), (downDown k); reflexivity.
Qed.

Lemma clamp_player_session s : session (clamp_player s) = session s.
Proof. reflexivity. Qed.

Lemma session_fields s s' :
  session s' = session s ->
  player s' = player s /\ enemies s' = enemies s
  /\ collectibles s' = collectibles s /\ score s' = score s
  /\ health s' = health s /\ round s' = round s
  /\ enemySpeed s' = enemySpeed s /\ introComplete s' = introComplete s
  /\ gameOver s' = gameOver s /\ calls s' = calls s.
Proof. unfold session. intros [= -> -> -> -> -> -> -> -> -> ->]. tauto. Qed.

Lemma after_escape_session k s : session (after_escape k s) = session s.
Proof. unfold after_escape. destruct (escDown k); reflexivity. Qed.

Lemma after_escape_sprites k s : sprites (after_escape k s) = sprites s.
Proof. unfold after_escape. destruct (escDown k); reflexivity. Qed.

Lemma update_blocked k s :
  spaceDown k = true -> introComplete s = true -> gameOver s = false ->
  escDown k && negb (escapePressed s) = false ->
  update k s = clamp_player (move_player k (after_escape k s)).
Proof.
  intros Hsp Hin Hgo Hesc. unfold update. rewrite Hesc.
  fold (after_escape k s).
  destruct (session_fields _ _ (after_escape_session k s))
    as (_ & _ & _ & _ & _ & _ & _ & Hi & Hg & _).
  rewrite Hg, Hgo.
  destruct (session_fields _ _ (move_player_session k (after_escape k s)))
    as (_ & _ & _ & _ & _ & _ & _ & Hi' & Hg' & _).
  cbn [introComplete gameOver clamp_player update_sprite set_sprites].
  rewrite Hi', Hg', Hi, Hg, Hin, Hgo, Hsp. reflexivity.
Qed.

(** C10, amended: while the intro is complete and the game is not over, a
    frame with the spacebar held that is not cut short by a fresh press of
    the escape key stops after the player was moved and clamped: every
    sprite other than the player, both groups, the score, the health and the
    round are as before, and the player sprite is the old one steered by the
    arrow keys and clamped. *)
Theorem spacebar_blocks_frame k s :
  spaceDown k = true -> introComplete s = true -> gameOver s = false ->
  escDown k && negb (escapePressed s) = false ->
  sprites (update k s) !! player s
    = (fun sp => clamp_sprite (steer k sp)) <$> sprites s !! player s
  /\ (forall id, id <> player s -> sprites (update k s) !! id = sprites s !! id)
  /\ enemies (update k s) = enemies s
  /\ collectibles (update k s) = collectibles s
  /\ score (update k s) = score s
  /\ health (update k s) = health s
  /\ round (update k s) = round s.
Proof.
  intros Hsp Hin Hgo Hesc. rewrite (update_blocked k s Hsp Hin Hgo Hesc).
  assert (Hp : player (after_escape k s) = player s)
    by (unfold after_escape; destruct (escDown k); reflexivity).
  assert (Hm : sprites (clamp_player (move_player k (after_escape k s)))
               = alter (fun sp => clamp_sprite (steer k sp)) (player s)
                   (sprites s)).
  { unfold clamp_player. rsimpl. rewrite move_player_sprites.
    destruct (session_fields _ _ (move_player_session k (after_escape k s)))
      as (Hp' & _).
    rewrite Hp', Hp, after_escape_sprites. apply alter_alter. }
  rewrite Hm. split; [apply lookup_alter_eq|].
  split; [intros id Hid; apply lookup_alter_ne; congruence|].
  assert (Hs : session (clamp_player (move_player k (after_escape k s)))
               = session s).
  { rewrite clamp_player_session, move_player_session.
    apply after_escape_session. }
  destruct (session_fields _ _ Hs) as (_ & He & Hc & Hsc & Hh & Hr & _).
  auto.
Qed.

(** Once the game is over a frame changes no sprite and no group. *)
Lemma update_game_over_frame k s :
  gameOver s = true ->
  sprites (update k s) = sprites s
  /\ enemies (update k s) = enemies s
  /\ collectibles (update k s) = collectibles s
  /\ score (update k s) = score s
  /\ health (update k s) = health s
  /\ round (update k s) = round s
  /\ gameOver (update k s) = true
  /\ count_occ Call_eq_dec (calls (update k s)) playGameOverSound
     = count_occ Call_eq_dec (calls s) playGameOverSound.
Proof.
  intros Hgo. unfold update.
  destruct (escDown k), (escapePressed s); rsimpl; cbn [negb andb];
    rsimpl; rewrite ?Hgo; rsimpl;
    rewrite ?count_occ_app; cbn; repeat split; auto; lia.
Qed.

Lemma wf_check_sound s : wf_check s = true -> wf s.
Proof.
  unfold wf_check. rewrite !andb_true_iff, !bool_decide_eq_true.
  intros (((((Hs & Hp) & He) & Hc) & Hne) & Hnc).
  constructor; auto.
  - intros id [sp Hsp]. apply (Hs id sp Hsp).
  - intros id Hid. rewrite Forall_forall in He. apply He, Hid.
  - intros id Hid. rewrite Forall_forall in Hc. apply Hc, Hid.
Qed.

(** ** Random draws and spawning *)

Lemma draw_range lo hi n : (lo <= hi)%Z -> (lo <= draw lo hi n <= hi)%Z.
Proof.
  intros Hle. unfold draw.
  pose proof (Z.mod_pos_bound (Z.of_nat (rnd n)) (hi - lo + 1)) as Hm. lia.
Qed.

Lemma Between_eq lo hi s :
  Between rnd lo hi s = (draw lo hi (draws s), set_draws (S (draws s)) s).
Proof. reflexivity. Qed.

Lemma respawn_collectible_eq s :
  respawn_collectible rnd s
  = set_collectibles (group_add (nextId s) (collectibles s))
      (set_nextId (S (nextId s))
         (set_sprites
            (<[nextId s :=
                 collectible_at
                   (draw GAME_CONSTANTS.COLLECTIBLE_SIZE
                      (GAME_CONSTANTS.WIDTH - GAME_CONSTANTS.COLLECTIBLE_SIZE)
                      (draws s))
                   (draw GAME_CONSTANTS.COLLECTIBLE_SIZE
                      (GAME_CONSTANTS.HEIGHT - GAME_CONSTANTS.COLLECTIBLE_SIZE)
                      (S (draws s)))]> (sprites s))
            (set_draws (S (S (draws s))) s))).
Proof. reflexivity. Qed.

Lemma spawn_round_enemy_eq s :
  spawn_round_enemy rnd s
  = set_enemies (group_add (nextId s) (enemies s))
      (set_nextId (S (nextId s))
         (set_sprites
            (<[nextId s :=
                 enemy_at (drawn_type (draws s)) 0
                   (draw 0 3 (S (S (S (draws s)))))
                   (draw GAME_CONSTANTS.ENEMY_SIZE
                      (GAME_CONSTANTS.WIDTH - GAME_CONSTANTS.ENEMY_SIZE)
                      (S (draws s)))
                   (draw GAME_CONSTANTS.ENEMY_SIZE
                      (GAME_CONSTANTS.HEIGHT - GAME_CONSTANTS.ENEMY_SIZE)
                      (S (S (draws s))))]> (sprites s))
            (set_draws (S (S (S (S (draws s))))) s))).
Proof.
  unfold spawn_round_enemy, pick_enemyType, createEnemy, add_sprite, Between.
  rsimpl. rewrite alter_insert_eq. reflexivity.
Qed.

Lemma spawn_initial_enemy_eq s :
  spawn_initial_enemy rnd s
  = set_enemies (group_add (nextId s) (enemies s))
      (set_nextId (S (nextId s))
         (set_sprites
            (<[nextId s :=
                 set_visible false
                   (enemy_at random 0 (draw 0 3 (S (S (draws s))))
                      (draw GAME_CONSTANTS.PLAYER_SIZE
                         (GAME_CONSTANTS.WIDTH - GAME_CONSTANTS.PLAYER_SIZE)
                         (draws s))
                      (draw GAME_CONSTANTS.PLAYER_SIZE
                         (GAME_CONSTANTS.HEIGHT - GAME_CONSTANTS.PLAYER_SIZE)
                         (S (draws s))))]> (sprites s))
            (set_draws (S (S (S (draws s)))) s))).
Proof.
  unfold spawn_initial_enemy, createEnemy, add_sprite, Between.
  rsimpl. rewrite !alter_insert_eq. reflexivity.
Qed.

Lemma spawn_initial_collectible_eq s :
  spawn_initial_collectible rnd s
  = set_collectibles (group_add (nextId s) (collectibles s))
      (set_nextId (S (nextId s))
         (set_sprites
            (<[nextId s :=
                 set_visible false
                   (collectible_at
                      (draw GAME_CONSTANTS.COLLECTIBLE_SIZE
                         (GAME_CONSTANTS.WIDTH - GAME_CONSTANTS.COLLECTIBLE_SIZE)
                         (draws s))
                      (draw GAME_CONSTANTS.COLLECTIBLE_SIZE
                         (GAME_CONSTANTS.HEIGHT
                          - GAME_CONSTANTS.COLLECTIBLE_SIZE)
                         (S (draws s))))]> (sprites s))
            (set_draws (S (S (draws s))) s))).
Proof.
  unfold spawn_initial_collectible, createCollectible, add_sprite, Between.
  rsimpl. rewrite !alter_insert_eq. reflexivity.
Qed.

(** ** Enemy movement *)

Lemma move_enemy_session e s : session (move_enemy e s) = session s.
Proof.
  unfold move_enemy, move_by_type, patrol_turn, Between.
  destruct (sprites s !! e) as [sp|]; [|reflexivity].
  destruct (props sp) as [p|]; [|reflexivity].
  destruct (type p); rsimpl; try reflexivity.
  - destruct (sprites s !! player s) as [pl|]; [|reflexivity].
    destruct (visible pl); reflexivity.
  - destruct (60 <? moveCounter p + 1)%Z; reflexivity.
Qed.

Lemma Clamp_range v lo hi : (lo <= hi)%Q -> (lo <= Clamp v lo hi <= hi)%Q.
Proof.
  intros Hle. unfold Clamp. split.
  - apply Q.le_max_l.
  - apply Q.max_lub; [exact Hle|apply Q.le_min_l].
Qed.

Lemma clamp_sprite_in_bounds sp : in_bounds (clamp_sprite sp).
Proof.
  unfold in_bounds, clamp_sprite. rsimpl.
  split; [|split; [|split]]; apply Clamp_range; rewrite <- Zle_Qle;
    cbv; discriminate.
Qed.

Lemma moves_compose g h :
  moves g -> moves h -> moves (fun sp => g (h sp)).
Proof.
  intros Hg Hh sp. destruct (Hg (h sp)) as (A & B & C).
  destruct (Hh sp) as (_ & B' & C'). split; [exact A|split; congruence].
Qed.

Lemma moves_clamp_after h :
  (forall sp, visible (h sp) = visible sp /\ key (h sp) = key sp) ->
  moves (fun sp => clamp_sprite (h sp)).
Proof.
  intros Hh sp. destruct (Hh sp) as (A & B).
  split; [apply clamp_sprite_in_bounds|]. split; [rewrite <- A|rewrite <- B];
    reflexivity.
Qed.

Lemma patrol_step_look d st sp :
  visible (patrol_step d st sp) = visible sp
  /\ key (patrol_step d st sp) = key sp.
Proof.
  unfold patrol_step. destruct d as [|[[|[]|]|[]|]|]; auto.
Qed.

(** A frame of enemy movement rewrites the sprite of that enemy only. *)
Lemma move_enemy_alter e s :
  exists g, moves g
            /\ sprites (move_enemy e s) = alter g e (sprites s)
            /\ nextId (move_enemy e s) = nextId s.
Proof.
  unfold move_enemy, move_by_type, patrol_turn, Between.
  destruct (sprites s !! e) as [sp|];
    [|exists clamp_sprite; split; [apply (moves_clamp_after id)|]; auto].
  destruct (props sp) as [p|];
    [|exists clamp_sprite; split; [apply (moves_clamp_after id)|]; auto].
  destruct (type p).
  - eexists. split; [|split; [rsimpl; rewrite !alter_alter; reflexivity|]];
      [apply moves_clamp_after; intros q; auto|reflexivity].
  - destruct (sprites s !! player s) as [pl|];
      [|exists clamp_sprite; split; [apply (moves_clamp_after id)|]; auto].
    destruct (visible pl);
      [|exists clamp_sprite; split; [apply (moves_clamp_after id)|]; auto].
    eexists. split; [|split; [rsimpl; rewrite !alter_alter; reflexivity|]];
      [apply moves_clamp_after; intros q; auto|reflexivity].
  - destruct (60 <? moveCounter p + 1)%Z;
      (eexists; split; [|split; [rsimpl; rewrite !alter_alter; reflexivity|]];
        [apply moves_clamp_after; intros q;
         match goal with |- context [patrol_step ?d ?st ?a] =>
           exact (patrol_step_look d st a) end
        |reflexivity]).
Qed.

Lemma move_enemies_session s : session (move_enemies s) = session s.
Proof.
  unfold move_enemies.
  apply (forEach_inv enemies move_enemy (fun st => session st = session s));
    [|reflexivity].
  intros id st <-. apply move_enemy_session.
Qed.

Lemma move_enemies_fold s :
  move_enemies s = fold_left (fun st id => move_enemy id st) (enemies s) s.
Proof.
  unfold move_enemies. apply forEach_fold. intros id st.
  destruct (session_fields _ _ (move_enemy_session id st)) as (_ & He & _).
  exact He.
Qed.

(** ** Visibility of groups *)

Lemma group_setVisible_session v ids s :
  session (group_setVisible v ids s) = session s.
Proof.
  revert s. induction ids as [|a ids IH]; intros s; [reflexivity|].
  cbn [group_setVisible fold_left]. unfold group_setVisible in IH.
  rewrite IH. reflexivity.
Qed.

Lemma group_setVisible_nextId v ids s :
  nextId (group_setVisible v ids s) = nextId s.
Proof.
  revert s. induction ids as [|a ids IH]; intros s; [reflexivity|].
  cbn [group_setVisible fold_left]. unfold group_setVisible in IH.
  rewrite IH. reflexivity.
Qed.

Lemma set_visible_twice v sp :
  set_visible v (set_visible v sp) = set_visible v sp.
Proof. reflexivity. Qed.

Lemma group_setVisible_lookup v ids s id :
  sprites (group_setVisible v ids s) !! id
  = if decide (id ∈ ids) then set_visible v <$> sprites s !! id
    else sprites s !! id.
Proof.
  revert s. induction ids as [|a ids IH]; intros s.
  - cbn. rewrite decide_False by apply not_elem_of_nil. reflexivity.
  - cbn [group_setVisible fold_left]. unfold group_setVisible in IH.
    rewrite IH. rsimpl.
    destruct (decide (a = id)) as [->|Hne].
    + rewrite lookup_alter_eq.
      rewrite (decide_True (P := id ∈ id :: ids)) by left.
      destruct (decide (id ∈ ids)); destruct (sprites s !! id); reflexivity.
    + rewrite lookup_alter_ne by exact Hne.
      destruct (decide (id ∈ ids)) as [Hin|Hin].
      * rewrite decide_True by (right; exact Hin). reflexivity.
      * rewrite decide_False; [reflexivity|].
        intros [?|?]%elem_of_cons; congruence.
Qed.

(** What [hide_all] does to a sprite: nothing, or hide it. *)
Lemma hide_all_lookup s id :
  sprites (hide_all s) !! id
  = if decide (id = player s \/ id ∈ enemies s \/ id ∈ collectibles s)
    then set_visible false <$> sprites s !! id
    else sprites s !! id.
Proof.
  unfold hide_all. rewrite !group_setVisible_lookup. rsimpl.
  destruct (decide (id ∈ collectibles s)) as [Hc|Hc];
    destruct (decide (id ∈ enemies s)) as [He|He];
    destruct (decide (player s = id)) as [Hp|Hp];
    rewrite ?lookup_alter_eq, ?lookup_alter_ne by exact Hp;
    subst;
    try (rewrite decide_True by tauto);
    try (rewrite decide_False by (intros [?|[?|?]]; congruence));
    try rewrite lookup_alter_eq;
    try (rewrite lookup_alter_ne by exact Hp);
    destruct (sprites s !! _); reflexivity.
Qed.

Lemma hide_all_session s : session (hide_all s) = session s.
Proof.
  unfold hide_all. rewrite !group_setVisible_session. reflexivity.
Qed.

Lemma hide_all_hidden s : all_hidden (hide_all s).
Proof.
  destruct (session_fields _ _ (hide_all_session s)) as (Hp & He & Hc & _).
  unfold all_hidden, hidden. rewrite Hp, He, Hc.
  repeat split; intros; [|rename e into id|rename c into id].
  all: match goal with H : sprites _ !! ?i = Some _ |- _ =>
         rewrite hide_all_lookup in H; rewrite decide_True in H by tauto;
         destruct (sprites s !! i); inversion H; reflexivity end.
Qed.

(** ** The enemy collision loop *)

Lemma touches_ext id size s s' :
  sprites s' = sprites s -> player s' = player s ->
  touches id size s' = touches id size s.
Proof. intros Hs Hp. unfold touches. rewrite Hs, Hp. reflexivity. Qed.

Lemma touches_player_hidden id size s :
  hidden (player s) s -> touches id size s = false.
Proof.
  intros Hh. unfold touches.
  destruct (sprites s !! id) as [sp|]; [|reflexivity].
  destruct (sprites s !! player s) as [pl|] eqn:Hpl; [|reflexivity].
  rewrite (Hh pl Hpl). rewrite andb_false_r. reflexivity.
Qed.

Lemma game_over_hidden s : all_hidden (game_over s).
Proof.
  unfold game_over.
  destruct (hide_all_hidden (set_gameOver true s)) as (Hp & He & Hc).
  repeat split; assumption.
Qed.

Lemma game_over_fields s :
  gameOver (game_over s) = true
  /\ health (game_over s) = health s
  /\ calls (game_over s) = (calls s ++ [createBeep]) ++ [playGameOverSound].
Proof.
  destruct (session_fields _ _ (hide_all_session (set_gameOver true s)))
    as (_ & _ & _ & _ & Hh & _ & _ & _ & Hgo & Hc).
  unfold game_over. cbn [gameOver health calls call].
  rewrite Hh, Hgo, Hc. auto.
Qed.

Lemma hit_enemies e s : enemies (hit e s) = enemies s.
Proof.
  unfold hit, game_over. destruct (touches _ _ _); [|reflexivity].
  destruct (_ <=? _)%Z; [|reflexivity].
  rsimpl. destruct (session_fields _ _ (hide_all_session
    (set_gameOver true (call playDamageSound
       (set_health (health s - GAME_CONSTANTS.DAMAGE_PER_ENEMY) s)))))
    as (_ & He & _).
  exact He.
Qed.

Lemma enemy_collisions_fold s :
  introComplete s = true -> gameOver s = false ->
  enemy_collisions s = fold_left (fun st id => hit id st) (enemies s) s.
Proof.
  intros Hi Hg. unfold enemy_collisions. rewrite Hi, Hg. cbn [negb andb].
  apply forEach_fold. intros id st. apply hit_enemies.
Qed.

(** With the player hidden no enemy hits any more. *)
Lemma hit_loop_player_hidden l s :
  hidden (player s) s -> fold_left (fun st id => hit id st) l s = s.
Proof.
  intros Hh. induction l as [|e l IH]; [reflexivity|].
  cbn [fold_left]. unfold hit at 2.
  rewrite (touches_player_hidden _ _ _ Hh). exact IH.
Qed.

Lemma group_setVisible_draws v ids s :
  draws (group_setVisible v ids s) = draws s.
Proof.
  revert s. induction ids as [|a ids IH]; intros s; [reflexivity|].
  cbn [group_setVisible fold_left]. unfold group_setVisible in IH.
  rewrite IH. reflexivity.
Qed.

Lemma hide_all_nextId s : nextId (hide_all s) = nextId s.
Proof. unfold hide_all. rewrite !group_setVisible_nextId. reflexivity. Qed.

Lemma hide_all_draws s : draws (hide_all s) = draws s.
Proof. unfold hide_all. rewrite !group_setVisible_draws. reflexivity. Qed.

Lemma hit_beside e s : beside_hits (hit e s) = beside_hits s.
Proof.
  unfold hit, game_over. destruct (touches _ _ _); [|reflexivity].
  destruct (_ <=? _)%Z; [|reflexivity].
  set (g := set_gameOver true _).
  destruct (session_fields _ _ (hide_all_session g))
    as (Hp & He & Hc & Hsc & _ & Hr & Hsp & Hi & _).
  unfold beside_hits. rsimpl.
  rewrite hide_all_nextId, hide_all_draws, Hp, He, Hc, Hsc, Hr, Hsp, Hi.
  reflexivity.
Qed.

Lemma beside_hits_fields s s' :
  beside_hits s' = beside_hits s ->
  player s' = player s /\ enemies s' = enemies s
  /\ collectibles s' = collectibles s /\ score s' = score s
  /\ round s' = round s /\ enemySpeed s' = enemySpeed s
  /\ introComplete s' = introComplete s /\ nextId s' = nextId s
  /\ draws s' = draws s.
Proof. unfold beside_hits. intros [= -> -> -> -> -> -> -> -> ->]. tauto. Qed.

Lemma hit_loop_beside l s :
  beside_hits (fold_left (fun st id => hit id st) l s) = beside_hits s.
Proof.
  revert s. induction l as [|e l IH]; intros s; [reflexivity|].
  cbn [fold_left]. rewrite IH. apply hit_beside.
Qed.

(** How a run of the enemy collision loop ends: either the game goes on,
    or it ended once, on the hit that brought the health to zero or below,
    and nothing was hit after that. *)
Lemma hit_loop_outcome l s :
  gameOver s = false ->
  let s' := fold_left (fun st id => hit id st) l s in
  (gameOver s' = false
   /\ count_calls playGameOverSound s' = count_calls playGameOverSound s)
  \/ (gameOver s' = true
      /\ count_calls playGameOverSound s'
         = S (count_calls playGameOverSound s)
      /\ (health s' <= 0)%Z
      /\ ((0 < health s)%Z -> (- GAME_CONSTANTS.DAMAGE_PER_ENEMY < health s')%Z)
      /\ all_hidden s').
Proof.
  revert s. induction l as [|e l IH]; intros s Hg; [left; auto|].
  cbn [fold_left]. cbv zeta in IH |- *.
  destruct (touches e GAME_CONSTANTS.ENEMY_SIZE s) eqn:Ht.
  2:{ replace (hit e s) with s by (unfold hit; rewrite Ht; reflexivity).
      apply IH, Hg. }
  pose (sA := call playDamageSound
                (set_health (health s - GAME_CONSTANTS.DAMAGE_PER_ENEMY) s)).
  destruct (health sA <=? 0)%Z eqn:Hle.
  - assert (Hhit : hit e s = game_over sA).
    { unfold hit. rewrite Ht. cbv zeta. fold sA. rewrite Hle. reflexivity. }
    rewrite Hhit.
    right. rewrite hit_loop_player_hidden by apply (proj1 (game_over_hidden sA)).
    apply Z.leb_le in Hle.
    destruct (game_over_fields sA) as (Hgo & Hh & Hc).
    unfold count_calls. rewrite Hgo, Hh, Hc, !count_occ_app.
    assert (HsA : health sA = (health s - GAME_CONSTANTS.DAMAGE_PER_ENEMY)%Z)
      by reflexivity.
    assert (HcA : calls sA = calls s ++ [playDamageSound]) by reflexivity.
    rewrite HcA, count_occ_app. rewrite HsA in *.
    unfold GAME_CONSTANTS.DAMAGE_PER_ENEMY in *. cbn [count_occ].
    destruct (game_over_hidden sA) as (G1 & G2 & G3).
    repeat split; try lia; try assumption.
    repeat (destruct (Call_eq_dec _ _); try discriminate; try congruence).
    lia.
  - assert (Hhit : hit e s = sA).
    { unfold hit. rewrite Ht. cbv zeta. fold sA. rewrite Hle. reflexivity. }
    rewrite Hhit.
    apply Z.leb_gt in Hle.
    assert (HcA : count_calls playGameOverSound sA
                  = count_calls playGameOverSound s).
    { unfold count_calls. subst sA. cbn [calls call set_health].
      rewrite count_occ_app. cbn [count_occ].
      destruct (Call_eq_dec _ _); [discriminate|]. lia. }
    assert (HsA : health sA = (health s - GAME_CONSTANTS.DAMAGE_PER_ENEMY)%Z)
      by reflexivity.
    destruct (IH sA Hg) as [(H1 & H2)|(H1 & H2 & H3 & H4 & H5)].
    + left. split; [exact H1|]. rewrite H2. exact HcA.
    + right. split; [exact H1|]. split; [rewrite H2, HcA; reflexivity|].
      split; [exact H3|]. split; [|exact H5].
      intros _. apply H4. rewrite HsA.
      unfold GAME_CONSTANTS.DAMAGE_PER_ENEMY in *. lia.
Qed.

Lemma move_fold_lookup l s id :
  let s' := fold_left (fun st e => move_enemy e st) l s in
  nextId s' = nextId s
  /\ (id ∉ l -> sprites s' !! id = sprites s !! id)
  /\ (id ∈ l -> exists g, moves g /\ sprites s' !! id = g <$> sprites s !! id).
Proof.
  revert s. induction l as [|e l IH]; intros s; cbn [fold_left].
  - split; [reflexivity|]. split; [reflexivity|]. intros []%elem_of_nil.
  - destruct (IH (move_enemy e s)) as (Hn & Hout & Hin).
    destruct (move_enemy_alter e s) as (g & Hg & Hs & Hn').
    cbv zeta in *. split; [congruence|]. split.
    + intros Hid. apply not_elem_of_cons in Hid as [Hne Hid].
      rewrite Hout by exact Hid. rewrite Hs.
      apply lookup_alter_ne. congruence.
    + intros Hid. destruct (decide (id ∈ l)) as [Hl|Hl].
      * destruct (Hin Hl) as (g' & Hg' & Hs'). rewrite Hs', Hs.
        destruct (decide (e = id)) as [->|Hne].
        -- exists (fun sp => g' (g sp)). split; [apply moves_compose; auto|].
           rewrite lookup_alter_eq. destruct (sprites s !! id); reflexivity.
        -- exists g'. split; [exact Hg'|].
           rewrite lookup_alter_ne by exact Hne. reflexivity.
      * rewrite Hout by exact Hl. rewrite Hs.
        apply elem_of_cons in Hid as [->|Hid]; [|contradiction].
        exists g. split; [exact Hg|]. apply lookup_alter_eq.
Qed.

(** After the movement loop every enemy of the group is within bounds, and
    the sprites outside the group are as before. *)
Lemma move_enemies_lookup s id :
  nextId (move_enemies s) = nextId s
  /\ (id ∉ enemies s -> sprites (move_enemies s) !! id = sprites s !! id)
  /\ (id ∈ enemies s ->
      exists g, moves g /\ sprites (move_enemies s) !! id = g <$> sprites s !! id).
Proof. rewrite move_enemies_fold. apply move_fold_lookup. Qed.

Lemma touching_ext l s s' :
  sprites s' = sprites s -> player s' = player s ->
  touching l s' = touching l s.
Proof.
  intros Hs Hp. unfold touching. apply List.filter_ext. intros e.
  apply touches_ext; assumption.
Qed.

(** As long as the health stays positive before each hit, every touching
    enemy takes its ten points. *)
Lemma hit_loop_damage l s :
  (GAME_CONSTANTS.DAMAGE_PER_ENEMY * (Z.of_nat (length (touching l s)) - 1)
   < health s)%Z ->
  health (fold_left (fun st id => hit id st) l s)
  = (health s
     - GAME_CONSTANTS.DAMAGE_PER_ENEMY * Z.of_nat (length (touching l s)))%Z
  /\ count_calls playDamageSound (fold_left (fun st id => hit id st) l s)
     = (count_calls playDamageSound s + length (touching l s))%nat.
Proof.
  revert s. induction l as [|e l IH]; intros s Hh.
  - cbn. split; [lia|lia].
  - cbn [fold_left]. unfold touching in *. cbn [List.filter] in *.
    destruct (touches e GAME_CONSTANTS.ENEMY_SIZE s) eqn:Ht.
    2:{ replace (hit e s) with s by (unfold hit; rewrite Ht; reflexivity).
        apply IH, Hh. }
    cbn [length] in *.
    pose (sA := call playDamageSound
                  (set_health (health s - GAME_CONSTANTS.DAMAGE_PER_ENEMY) s)).
    assert (HsA : health sA = (health s - GAME_CONSTANTS.DAMAGE_PER_ENEMY)%Z)
      by reflexivity.
    assert (HcA : count_calls playDamageSound sA
                  = S (count_calls playDamageSound s)).
    { unfold count_calls. subst sA. cbn [calls call set_health].
      rewrite count_occ_app. cbn [count_occ].
      destruct (Call_eq_dec _ _); [lia|congruence]. }
    assert (Hf : touching l sA = touching l s)
      by (apply touching_ext; reflexivity).
    unfold touching in Hf.
    destruct (health sA <=? 0)%Z eqn:Hle.
    + assert (Hhit : hit e s = game_over sA).
      { unfold hit. rewrite Ht. cbv zeta. fold sA. rewrite Hle. reflexivity. }
      rewrite Hhit. clear Hhit.
      unfold GAME_CONSTANTS.DAMAGE_PER_ENEMY in *.
      rewrite hit_loop_player_hidden by apply (proj1 (game_over_hidden sA)).
      apply Z.leb_le in Hle.
      destruct (game_over_fields sA) as (_ & Hgh & Hgc).
      unfold count_calls in *. rewrite Hgh, Hgc, !count_occ_app, HsA.
      cbn [count_occ]. destruct (Call_eq_dec _ _); [discriminate|].
      destruct (Call_eq_dec _ _); [discriminate|].
      rewrite HcA. split; lia.
    + assert (Hhit : hit e s = sA).
      { unfold hit. rewrite Ht. cbv zeta. fold sA. rewrite Hle. reflexivity. }
      rewrite Hhit. clear Hhit. apply Z.leb_gt in Hle.
      unfold GAME_CONSTANTS.DAMAGE_PER_ENEMY in *.
      destruct (IH sA) as (A & B); [rewrite Hf, HsA; lia|].
      rewrite A, B, Hf, HsA, HcA. split; lia.
Qed.

(** Once the touching enemies are enough to bring the health to zero or
    below, one of their hits ends the game. *)
Lemma hit_loop_fatal l s :
  touching l s <> [] ->
  (health s
   <= GAME_CONSTANTS.DAMAGE_PER_ENEMY * Z.of_nat (length (touching l s)))%Z ->
  gameOver (fold_left (fun st id => hit id st) l s) = true.
Proof.
  revert s. induction l as [|e l IH]; intros s Hne Hh.
  - exfalso. apply Hne. reflexivity.
  - cbn [fold_left]. unfold touching in *. cbn [List.filter] in *.
    destruct (touches e GAME_CONSTANTS.ENEMY_SIZE s) eqn:Ht.
    2:{ replace (hit e s) with s by (unfold hit; rewrite Ht; reflexivity).
        apply IH; assumption. }
    cbn [length] in Hh.
    pose (sA := call playDamageSound
                  (set_health (health s - GAME_CONSTANTS.DAMAGE_PER_ENEMY) s)).
    assert (HsA : health sA = (health s - GAME_CONSTANTS.DAMAGE_PER_ENEMY)%Z)
      by reflexivity.
    assert (Hf : touching l sA = touching l s)
      by (apply touching_ext; reflexivity).
    unfold touching in Hf.
    destruct (health sA <=? 0)%Z eqn:Hle.
    + assert (Hhit : hit e s = game_over sA).
      { unfold hit. rewrite Ht. cbv zeta. fold sA. rewrite Hle. reflexivity. }
      rewrite Hhit.
      rewrite hit_loop_player_hidden by apply (proj1 (game_over_hidden sA)).
      apply (game_over_fields sA).
    + assert (Hhit : hit e s = sA).
      { unfold hit. rewrite Ht. cbv zeta. fold sA. rewrite Hle. reflexivity. }
      rewrite Hhit. apply Z.leb_gt in Hle.
      unfold GAME_CONSTANTS.DAMAGE_PER_ENEMY in *.
      apply IH; rewrite Hf.
      * intros Hnil. rewrite Hnil in Hh. cbn [length] in Hh. lia.
      * rewrite HsA. lia.
Qed.

(** ** Scenes that only lose visibility and gain sprites *)

Lemma hides_refl o : hides o o.
Proof. left. reflexivity. Qed.

Lemma hides_trans o1 o2 o3 : hides o1 o2 -> hides o2 o3 -> hides o1 o3.
Proof.
  unfold hides. intros [->| ->] [->| ->]; auto.
  right. destruct o1; reflexivity.
Qed.

Lemma hides_in_bounds o o' sp' :
  hides o o' -> o' = Some sp' ->
  exists sp, o = Some sp /\ x sp' = x sp /\ y sp' = y sp
             /\ key sp' = key sp /\ props sp' = props sp
             /\ (visible sp = false -> visible sp' = false).
Proof.
  intros [->| ->] Hs.
  - exists sp'. auto 10.
  - destruct o as [sp|]; [|discriminate]. inversion Hs. exists sp. auto 10.
Qed.

Lemma in_bounds_pos sp sp' :
  x sp' = x sp -> y sp' = y sp -> in_bounds sp -> in_bounds sp'.
Proof. unfold in_bounds. intros -> ->. auto. Qed.

Lemma evolves_refl s : evolves s s.
Proof.
  constructor; auto using hides_refl.
  intros id sp Hid. lia.
Qed.

Lemma evolves_trans s1 s2 s3 : evolves s1 s2 -> evolves s2 s3 -> evolves s1 s3.
Proof.
  intros [P1 N1 O1 W1 E1 C1] [P2 N2 O2 W2 E2 C2]. constructor.
  - congruence.
  - lia.
  - intros id Hid. eapply hides_trans; [apply O1; lia|apply O2; lia].
  - intros id sp Hid Hsp. destruct (decide (id < nextId s2)%nat) as [Hlt|Hge].
    + destruct (hides_in_bounds _ _ _ (O2 id (or_introl Hlt)) Hsp)
        as (sp2 & Hsp2 & Hx & Hy & _).
      eapply in_bounds_pos; [exact Hx|exact Hy|].
      apply (W1 id sp2); [lia|exact Hsp2].
    + apply (W2 id sp); [lia|exact Hsp].
  - intros id Hid. destruct (E2 id Hid) as [H|H]; [|right; lia].
    destruct (E1 id H) as [H'|H']; [left; exact H'|right; lia].
  - intros id Hid. destruct (C2 id Hid) as [H|H]; [|right; lia].
    destruct (C1 id H) as [H'|H']; [left; exact H'|right; lia].
Qed.

Lemma evolves_iter (f : GameState -> GameState) n s :
  (forall st, evolves st (f st)) -> evolves s (Nat.iter n f s).
Proof.
  intros Hf. induction n as [|n IH]; [apply evolves_refl|].
  change (evolves s (f (Nat.iter n f s))).
  eapply evolves_trans; [exact IH|apply Hf].
Qed.

(** A step that only hides sprites. *)
Lemma evolves_hiding s s' :
  (forall id, hides (sprites s !! id) (sprites s' !! id)) ->
  nextId s' = nextId s -> player s' = player s ->
  enemies s' = enemies s -> collectibles s' = collectibles s ->
  evolves s s'.
Proof.
  intros Hs Hn Hp He Hc.
  constructor; rewrite ?Hn, ?Hp, ?He, ?Hc; auto.
  intros id sp Hid. lia.
Qed.

Lemma evolves_setVisible id s : evolves s (setVisible false id s).
Proof.
  apply evolves_hiding; try reflexivity.
  intros j. rsimpl. destruct (decide (id = j)) as [->|Hne].
  - right. apply lookup_alter_eq.
  - left. apply lookup_alter_ne, Hne.
Qed.

Lemma evolves_hide_all s : evolves s (hide_all s).
Proof.
  destruct (session_fields _ _ (hide_all_session s)) as (Hp & He & Hc & _).
  apply evolves_hiding; auto using hide_all_nextId.
  intros id. rewrite hide_all_lookup. destruct (decide _); [right|left]; auto.
Qed.

(** A step that touches neither the display list nor the groups. *)
Lemma evolves_same s s' :
  sprites s' = sprites s -> nextId s' = nextId s -> player s' = player s ->
  enemies s' = enemies s -> collectibles s' = collectibles s ->
  evolves s s'.
Proof.
  intros Hs Hn Hp He Hc. apply evolves_hiding; auto.
  intros id. rewrite Hs. apply hides_refl.
Qed.

Lemma evolves_game_over s : evolves s (game_over s).
Proof.
  unfold game_over.
  apply (evolves_trans s (set_gameOver true s));
    [apply evolves_same; reflexivity|].
  apply (evolves_trans _ (hide_all (set_gameOver true s)));
    [apply evolves_hide_all|].
  apply evolves_same; reflexivity.
Qed.

Lemma evolves_hit e s : evolves s (hit e s).
Proof.
  unfold hit. destruct (touches _ _ _); [|apply evolves_refl].
  cbv zeta. destruct (_ <=? _)%Z.
  - eapply evolves_trans; [|apply evolves_game_over].
    apply evolves_same; reflexivity.
  - apply evolves_same; reflexivity.
Qed.

Lemma in_bounds_spawn k v px py pr :
  (GAME_CONSTANTS.PLAYER_SIZE <= px
   <= GAME_CONSTANTS.WIDTH - GAME_CONSTANTS.PLAYER_SIZE)%Z ->
  (GAME_CONSTANTS.PLAYER_SIZE <= py
   <= GAME_CONSTANTS.HEIGHT - GAME_CONSTANTS.PLAYER_SIZE)%Z ->
  in_bounds (mkSprite (inject_Z px) (inject_Z py) v k pr).
Proof.
  intros Hx Hy. unfold in_bounds. cbn [x y]. rewrite <- !Zle_Qle. lia.
Qed.

Lemma elem_of_group_add id j l :
  j ∈ group_add id l -> j ∈ l \/ j = id.
Proof.
  unfold group_add. destruct (decide (id ∈ l)); [auto|].
  intros [H|H%list_elem_of_singleton]%elem_of_app; auto.
Qed.

Lemma elem_of_group_remove id j l : j ∈ group_remove id l -> j ∈ l.
Proof.
  induction l as [|a l IH]; cbn [group_remove]; [auto|].
  destruct (decide (a = id)).
  - intros H. right. exact H.
  - intros [->|H]%elem_of_cons; [left|right; auto].
Qed.

Lemma evolves_respawn_collectible s : evolves s (respawn_collectible rnd s).
Proof.
  rewrite respawn_collectible_eq. constructor; rsimpl; auto.
  - intros id Hid. left. apply lookup_insert_ne. lia.
  - intros id sp Hid. assert (id = nextId s) as -> by lia.
    rewrite lookup_insert_eq. intros [= <-].
    apply in_bounds_spawn; apply draw_range; cbv; discriminate.
  - intros id Hid. destruct (elem_of_group_add _ _ _ Hid) as [H| ->]; auto.
Qed.

Lemma evolves_spawn_round_enemy s : evolves s (spawn_round_enemy rnd s).
Proof.
  rewrite spawn_round_enemy_eq. constructor; rsimpl; auto.
  - intros id Hid. left. apply lookup_insert_ne. lia.
  - intros id sp Hid. assert (id = nextId s) as -> by lia.
    rewrite lookup_insert_eq. intros [= <-].
    apply in_bounds_spawn;
      match goal with |- (_ <= draw ?a ?b ?n <= _)%Z =>
        assert (Hd : (a <= draw a b n <= b)%Z)
          by (apply draw_range; cbv; discriminate) end;
      unfold GAME_CONSTANTS.ENEMY_SIZE, GAME_CONSTANTS.PLAYER_SIZE,
        GAME_CONSTANTS.WIDTH, GAME_CONSTANTS.HEIGHT in *; lia.
  - intros id Hid. destruct (elem_of_group_add _ _ _ Hid) as [H| ->]; auto.
Qed.

Lemma evolves_new_round s : evolves s (new_round s).
Proof.
  unfold new_round. cbv zeta.
  match goal with |- evolves _ (if _ then spawn_round_enemy _ ?a else _) =>
    assert (Ha : evolves s a) end.
  { eapply evolves_trans; [|apply evolves_iter, evolves_respawn_collectible].
    apply evolves_same; reflexivity. }
  destruct (_ <=? _)%Z; [|exact Ha].
  eapply evolves_trans; [exact Ha|apply evolves_spawn_round_enemy].
Qed.

Lemma evolves_collect c s : evolves s (collect c s).
Proof.
  unfold collect. destruct (touches _ _ _); [|apply evolves_refl].
  cbv zeta.
  match goal with |- evolves _ (if _ then new_round ?a else _) =>
    assert (Ha : evolves s a) end.
  { eapply evolves_trans; [apply (evolves_setVisible c)|].
    constructor; rsimpl; auto using hides_refl.
    - intros id sp Hid. lia.
    - intros id Hid. left. eapply elem_of_group_remove, Hid. }
  destruct (_ =? _)%nat; [|exact Ha].
  eapply evolves_trans; [exact Ha|apply evolves_new_round].
Qed.

Lemma evolves_collectible_collisions s :
  evolves s (collectible_collisions s).
Proof.
  unfold collectible_collisions. destruct (_ && _); [|apply evolves_refl].
  apply (forEach_inv collectibles collect (evolves s));
    [|apply evolves_refl].
  intros id st Hst. eapply evolves_trans; [exact Hst|apply evolves_collect].
Qed.

Lemma evolves_enemy_collisions s : evolves s (enemy_collisions s).
Proof.
  unfold enemy_collisions. destruct (_ && _); [|apply evolves_refl].
  apply (forEach_inv enemies hit (evolves s)); [|apply evolves_refl].
  intros id st Hst. eapply evolves_trans; [exact Hst|apply evolves_hit].
Qed.

(** ** The collectible loop *)

Lemma iter_beside {A} (P : GameState -> A) (f : GameState -> GameState) n s :
  (forall st, P (f st) = P st) -> P (Nat.iter n f s) = P s.
Proof.
  intros Hf. induction n as [|n IH]; [reflexivity|].
  change (P (f (Nat.iter n f s)) = P s). rewrite Hf. exact IH.
Qed.

Lemma spawn_round_enemy_beside s :
  beside_collects (spawn_round_enemy rnd s) = beside_collects s.
Proof. rewrite spawn_round_enemy_eq. reflexivity. Qed.

Lemma new_round_beside s : beside_collects (new_round s) = beside_collects s.
Proof.
  unfold new_round. cbv zeta.
  match goal with |- beside_collects (if _ then spawn_round_enemy _ ?a else _) = _ =>
    assert (Ha : beside_collects a = beside_collects s) end.
  { rewrite (iter_beside beside_collects (respawn_collectible rnd))
      by (intros st; rewrite respawn_collectible_eq; reflexivity).
    unfold beside_collects. rsimpl. rewrite !count_occ_app. cbn [count_occ].
    destruct (Call_eq_dec _ _); [discriminate|].
    destruct (Call_eq_dec _ _); [discriminate|].
    rewrite !Nat.add_0_r. reflexivity. }
  destruct (_ <=? _)%Z; [|exact Ha].
  rewrite spawn_round_enemy_beside. exact Ha.
Qed.

Lemma collect_beside c s : beside_collects (collect c s) = beside_collects s.
Proof.
  unfold collect. destruct (touches _ _ _); [|reflexivity].
  cbv zeta.
  match goal with |- beside_collects (if _ then new_round ?a else _) = _ =>
    assert (Ha : beside_collects a = beside_collects s) end.
  { unfold beside_collects. rsimpl. rewrite !count_occ_app. cbn [count_occ].
    destruct (Call_eq_dec _ _); [discriminate|].
    destruct (Call_eq_dec _ _); [discriminate|].
    rewrite !Nat.add_0_r. reflexivity. }
  destruct (_ =? _)%nat; [|exact Ha].
  rewrite new_round_beside. exact Ha.
Qed.

Lemma collectible_collisions_beside s :
  beside_collects (collectible_collisions s) = beside_collects s.
Proof.
  unfold collectible_collisions. destruct (_ && _); [|reflexivity].
  apply (forEach_inv collectibles collect
           (fun st => beside_collects st = beside_collects s));
    [|reflexivity].
  intros id st <-. apply collect_beside.
Qed.

Lemma beside_collects_fields s s' :
  beside_collects s' = beside_collects s ->
  player s' = player s /\ health s' = health s
  /\ introComplete s' = introComplete s /\ gameOver s' = gameOver s
  /\ count_calls playGameOverSound s' = count_calls playGameOverSound s
  /\ count_calls playDamageSound s' = count_calls playDamageSound s.
Proof.
  unfold beside_collects, count_calls. intros [= -> -> -> -> -> ->]. tauto.
Qed.

Lemma count_calls_call c c' s :
  count_calls c (call c' s)
  = (count_calls c s + if Call_eq_dec c' c then 1 else 0)%nat.
Proof.
  unfold count_calls. cbn [calls call]. rewrite count_occ_app.
  cbn [count_occ]. destruct (Call_eq_dec c' c); reflexivity.
Qed.

Lemma keeps_tally_refl s : keeps_tally s s.
Proof. split; [reflexivity|lia]. Qed.

Lemma keeps_tally_trans s1 s2 s3 :
  keeps_tally s1 s2 -> keeps_tally s2 s3 -> keeps_tally s1 s3.
Proof. intros [A B] [C D]. split; [congruence|lia]. Qed.

Lemma keeps_tally_same s s' :
  score s' = score s ->
  count_calls playCollectSound s' = count_calls playCollectSound s ->
  keeps_tally s s'.
Proof.
  unfold keeps_tally, tally, count_calls. intros -> ->. split; [reflexivity|lia].
Qed.

Lemma keeps_tally_spawn_round_enemy s :
  keeps_tally s (spawn_round_enemy rnd s).
Proof. apply keeps_tally_same; rewrite spawn_round_enemy_eq; reflexivity. Qed.

Lemma keeps_tally_new_round s : keeps_tally s (new_round s).
Proof.
  unfold new_round. cbv zeta.
  match goal with |- keeps_tally _ (if _ then spawn_round_enemy _ ?a else _) =>
    assert (Ha : score a = score s
                 /\ count_calls playCollectSound a
                    = count_calls playCollectSound s) end.
  { split.
    - rewrite (iter_beside score (respawn_collectible rnd))
        by (intros st; rewrite respawn_collectible_eq; reflexivity).
      reflexivity.
    - rewrite (iter_beside (count_calls playCollectSound)
                 (respawn_collectible rnd))
        by (intros st; rewrite respawn_collectible_eq; reflexivity).
      rewrite count_calls_call.
      destruct (Call_eq_dec _ _); [discriminate|]. apply Nat.add_0_r. }
  destruct Ha as [A B].
  destruct (_ <=? _)%Z; [|apply keeps_tally_same; assumption].
  eapply keeps_tally_trans; [apply keeps_tally_same; eassumption|].
  apply keeps_tally_spawn_round_enemy.
Qed.

Lemma keeps_tally_collect c s : keeps_tally s (collect c s).
Proof.
  unfold collect. destruct (touches _ _ _); [|apply keeps_tally_refl].
  cbv zeta.
  match goal with |- keeps_tally _ (if _ then new_round ?a else _) =>
    assert (Ha : keeps_tally s a) end.
  { unfold keeps_tally, tally. rewrite count_calls_call.
    cbn [score calls call set_score]. rewrite count_occ_app. cbn [count_occ].
    destruct (Call_eq_dec _ _); [|congruence].
    unfold count_calls. cbn [calls set_score set_collectibles setVisible
                             update_sprite set_sprites].
    unfold GAME_CONSTANTS.SCORE_PER_COLLECTIBLE.
    change (score (set_collectibles _ (setVisible false c s)))
      with (score s).
    split; lia. }
  destruct (_ =? _)%nat; [|exact Ha].
  eapply keeps_tally_trans; [exact Ha|apply keeps_tally_new_round].
Qed.

Lemma keeps_tally_hit e s : keeps_tally s (hit e s).
Proof.
  unfold hit. destruct (touches _ _ _); [|apply keeps_tally_refl].
  cbv zeta. destruct (_ <=? _)%Z.
  - apply keeps_tally_same.
    + destruct (session_fields _ _ (hide_all_session (set_gameOver true
        (call playDamageSound
           (set_health (health s - GAME_CONSTANTS.DAMAGE_PER_ENEMY) s)))))
        as (_ & _ & _ & Hsc & _).
      unfold game_over. cbn [score call]. rewrite Hsc. reflexivity.
    + destruct (game_over_fields (call playDamageSound
         (set_health (health s - GAME_CONSTANTS.DAMAGE_PER_ENEMY) s)))
        as (_ & _ & Hc).
      unfold count_calls. rewrite Hc. cbn [calls call set_health].
      rewrite !count_occ_app. cbn [count_occ].
      repeat (destruct (Call_eq_dec _ _); [discriminate|]). lia.
  - apply keeps_tally_same; [reflexivity|].
    rewrite count_calls_call. destruct (Call_eq_dec _ _); [discriminate|].
    unfold count_calls. cbn [calls set_health]. lia.
Qed.


(** ** When a new round starts *)

Lemma length_group_remove c l :
  c ∈ l -> S (length (group_remove c l)) = length l.
Proof.
  induction l as [|a l IH]; [intros []%elem_of_nil|].
  cbn [group_remove]. destruct (decide (a = c)) as [->|Hne]; [reflexivity|].
  intros [->|Hin]%elem_of_cons; [congruence|].
  cbn [length]. rewrite IH by exact Hin. reflexivity.
Qed.

Lemma not_elem_of_group_remove c l : NoDup l -> c ∉ group_remove c l.
Proof.
  induction l as [|a l IH]; intros Hnd; cbn [group_remove].
  - apply not_elem_of_nil.
  - apply NoDup_cons in Hnd as [Ha Hnd].
    destruct (decide (a = c)) as [->|Hne]; [exact Ha|].
    intros [->|Hin]%elem_of_cons; [congruence|]. exact (IH Hnd Hin).
Qed.

Lemma NoDup_group_remove c l : NoDup l -> NoDup (group_remove c l).
Proof.
  induction l as [|a l IH]; intros Hnd; cbn [group_remove]; [exact Hnd|].
  apply NoDup_cons in Hnd as [Ha Hnd].
  destruct (decide (a = c)); [exact Hnd|].
  apply NoDup_cons. split; [|apply IH, Hnd].
  intros Hin. apply Ha. eapply elem_of_group_remove, Hin.
Qed.

Lemma NoDup_group_add id l : NoDup l -> NoDup (group_add id l).
Proof.
  intros Hnd. unfold group_add. destruct (decide (id ∈ l)); [exact Hnd|].
  apply NoDup_app. split; [exact Hnd|]. split.
  - intros j Hj ->%list_elem_of_singleton. contradiction.
  - apply NoDup_singleton.
Qed.

Lemma collect_touching c s :
  touches c GAME_CONSTANTS.COLLECTIBLE_SIZE s = true ->
  collect c s
  = if (length (group_remove c (collectibles s)) =? 0)%nat
    then new_round (collected c s) else collected c s.
Proof. intros Ht. unfold collect. rewrite Ht. reflexivity. Qed.

Lemma collect_not_touching c s :
  touches c GAME_CONSTANTS.COLLECTIBLE_SIZE s = false -> collect c s = s.
Proof. intros Ht. unfold collect. rewrite Ht. reflexivity. Qed.

Lemma collected_beside_rounds c s :
  beside_rounds (collected c s) = beside_rounds s.
Proof.
  unfold beside_rounds, collected. rsimpl. rewrite count_occ_app.
  cbn [count_occ]. destruct (Call_eq_dec _ _); [discriminate|].
  rewrite Nat.add_0_r. reflexivity.
Qed.




Lemma group_add_fresh id l : id ∉ l -> group_add id l = l ++ [id].
Proof. intros H. unfold group_add. rewrite decide_False by exact H. reflexivity. Qed.

Lemma respawn_iter_spec j s :
  nextId (Nat.iter j (respawn_collectible rnd) s) = (nextId s + j)%nat
  /\ beside_spawns (Nat.iter j (respawn_collectible rnd) s) = beside_spawns s
  /\ enemies (Nat.iter j (respawn_collectible rnd) s) = enemies s
  /\ (forall id, (id < nextId s \/ nextId s + j <= id)%nat ->
        sprites (Nat.iter j (respawn_collectible rnd) s) !! id
        = sprites s !! id)
  /\ (forall i, (i < j)%nat ->
        exists sp, respawned sp
          /\ sprites (Nat.iter j (respawn_collectible rnd) s)
               !! (nextId s + i)%nat = Some sp)
  /\ ((forall id, id ∈ collectibles s -> (id < nextId s)%nat) ->
      collectibles (Nat.iter j (respawn_collectible rnd) s)
      = collectibles s ++ seq (nextId s) j).
Proof.
  induction j as [|j IH].
  - cbn [Nat.iter seq]. rewrite Nat.add_0_r, app_nil_r.
    repeat split; auto. intros i Hi. lia.
  - destruct IH as (Hn & Hb & He & Hold & Hnew & Hc).
    change (Nat.iter (S j) (respawn_collectible rnd) s)
      with (respawn_collectible rnd (Nat.iter j (respawn_collectible rnd) s)).
    set (a := Nat.iter j (respawn_collectible rnd) s) in *.
    clearbody a. rewrite respawn_collectible_eq. rsimpl.
    split; [lia|]. split; [rewrite <- Hb; reflexivity|].
    split; [exact He|]. split; [|split].
    + intros id Hid. rewrite lookup_insert_ne by lia. apply Hold. lia.
    + intros i Hi. rewrite Hn. destruct (decide (i = j)) as [->|Hne].
      * rewrite lookup_insert_eq. eexists. split; [|reflexivity].
        eexists _, _. split; [|split; [|reflexivity]];
          apply draw_range; cbv; discriminate.
      * rewrite lookup_insert_ne by lia. apply Hnew. lia.
    + intros Hlt. rewrite Hc by exact Hlt. rewrite Hn.
      rewrite group_add_fresh.
      * rewrite seq_S, app_assoc. reflexivity.
      * intros [Hin|Hin]%elem_of_app.
        -- apply Hlt in Hin. lia.
        -- apply elem_of_seq in Hin. lia.
Qed.

Lemma drawn_type_elem n : drawn_type n ∈ ENEMY_TYPES.
Proof.
  unfold drawn_type, ENEMY_TYPES. cbn [length].
  destruct (Z.to_nat _) as [|[|[|[|m]]]]; cbn [nth];
    rewrite !elem_of_cons; auto.
Qed.

Lemma new_round_spec s :
  collectibles s = [] -> (forall e, e ∈ enemies s -> (e < nextId s)%nat) ->
  round (new_round s) = (round s + 1)%Z
  /\ enemySpeed (new_round s) = (enemySpeed s + 1)%Z
  /\ count_calls playNewRoundSound (new_round s)
     = S (count_calls playNewRoundSound s)
  /\ collectibles (new_round s)
     = seq (nextId s) GAME_CONSTANTS.COLLECTIBLE_COUNT
  /\ (forall id, (id < nextId s)%nat ->
        sprites (new_round s) !! id = sprites s !! id)
  /\ (forall i, (i < GAME_CONSTANTS.COLLECTIBLE_COUNT)%nat ->
        exists sp, respawned sp
                   /\ sprites (new_round s) !! (nextId s + i)%nat = Some sp)
  /\ if (2 <=? round s + 1)%Z
     then enemies (new_round s)
          = enemies s ++ [(nextId s + GAME_CONSTANTS.COLLECTIBLE_COUNT)%nat]
          /\ exists sp, round_enemy sp
               /\ sprites (new_round s)
                    !! (nextId s + GAME_CONSTANTS.COLLECTIBLE_COUNT)%nat
                  = Some sp
     else enemies (new_round s) = enemies s.
Proof.
  intros Hc He. unfold new_round. cbv zeta.
  set (s1 := call playNewRoundSound
               (set_enemySpeed (enemySpeed (set_round (round s + 1) s) + 1)
                  (set_round (round s + 1) s))).
  destruct (respawn_iter_spec GAME_CONSTANTS.COLLECTIBLE_COUNT s1)
    as (Hn & Hb & Hen & Hold & Hnew & Hcol).
  set (a := Nat.iter GAME_CONSTANTS.COLLECTIBLE_COUNT
              (respawn_collectible rnd) s1) in *.
  clearbody a.
  assert (Hcol' : collectibles a
                  = seq (nextId s) GAME_CONSTANTS.COLLECTIBLE_COUNT).
  { rewrite Hcol; [subst s1; cbn [collectibles call set_enemySpeed set_round];
                   rewrite Hc; reflexivity|].
    subst s1. cbn [collectibles call set_enemySpeed set_round]. rewrite Hc.
    intros id []%elem_of_nil. }
  assert (Hr : round a = (round s + 1)%Z
               /\ enemySpeed a = (enemySpeed s + 1)%Z
               /\ calls a = calls s ++ [playNewRoundSound]).
  { unfold beside_spawns in Hb.
    injection Hb as _ _ _ Hr Hs _ _ Hca. rewrite Hr, Hs, Hca. auto. }
  destruct Hr as (Hr & Hsp & Hca).
  assert (Hcnt : count_calls playNewRoundSound a
                 = S (count_calls playNewRoundSound s)).
  { unfold count_calls. rewrite Hca, count_occ_app. cbn [count_occ].
    destruct (Call_eq_dec _ _); [lia|congruence]. }
  change (nextId s1) with (nextId s) in *.
  change (sprites s1) with (sprites s) in *.
  change (enemies s1) with (enemies s) in *.
  clear Hb Hcol. clearbody s1. rewrite Hr.
  destruct (2 <=? round s + 1)%Z.
  - rewrite spawn_round_enemy_eq. rsimpl. rewrite Hn, Hen.
    unfold count_calls in *. rsimpl.
    split; [exact Hr|]. split; [exact Hsp|]. split; [exact Hcnt|].
    split; [exact Hcol'|]. split; [|split; [|split]].
    + intros id Hid. rewrite lookup_insert_ne by lia. apply Hold. lia.
    + intros i Hi. rewrite lookup_insert_ne by lia. apply Hnew, Hi.
    + apply group_add_fresh. intros Hin. apply He in Hin. lia.
    + rewrite lookup_insert_eq. eexists. split; [|reflexivity].
      eexists _, _, _, _. split; [apply drawn_type_elem|].
      split; [|split; [|split; [|reflexivity]]];
        apply draw_range; cbv; discriminate.
  - split; [exact Hr|]. split; [exact Hsp|]. split; [exact Hcnt|].
    split; [exact Hcol'|]. split; [|split; [|exact Hen]].
    + intros id Hid. apply Hold. lia.
    + exact Hnew.
Qed.

(** ** The initial population *)

Lemma destroy_all_lookup ids (m : gmap nat Sprite) id :
  destroy_all ids m !! id = if decide (id ∈ ids) then None else m !! id.
Proof.
  unfold destroy_all. revert m. induction ids as [|a ids IH]; intros m.
  - cbn [fold_left]. rewrite decide_False by apply not_elem_of_nil.
    reflexivity.
  - cbn [fold_left]. rewrite IH.
    destruct (decide (id ∈ ids)) as [Hin|Hin].
    + rewrite decide_True by (right; exact Hin). reflexivity.
    + destruct (decide (a = id)) as [->|Hne].
      * rewrite decide_True by left. apply lookup_delete_eq.
      * rewrite decide_False by (intros [?|?]%elem_of_cons; congruence).
        apply lookup_delete_ne, Hne.
Qed.

Lemma spawn_initial_enemy_iter j s :
  nextId (Nat.iter j (spawn_initial_enemy rnd) s) = (nextId s + j)%nat
  /\ beside_spawns (Nat.iter j (spawn_initial_enemy rnd) s) = beside_spawns s
  /\ collectibles (Nat.iter j (spawn_initial_enemy rnd) s) = collectibles s
  /\ (forall id, (id < nextId s \/ nextId s + j <= id)%nat ->
        sprites (Nat.iter j (spawn_initial_enemy rnd) s) !! id
        = sprites s !! id)
  /\ (forall i, (i < j)%nat ->
        exists sp, initial_enemy sp
          /\ sprites (Nat.iter j (spawn_initial_enemy rnd) s)
               !! (nextId s + i)%nat = Some sp)
  /\ ((forall id, id ∈ enemies s -> (id < nextId s)%nat) ->
      enemies (Nat.iter j (spawn_initial_enemy rnd) s)
      = enemies s ++ seq (nextId s) j).
Proof.
  induction j as [|j IH].
  - cbn [Nat.iter seq]. rewrite Nat.add_0_r, app_nil_r.
    repeat split; auto. intros i Hi. lia.
  - destruct IH as (Hn & Hb & He & Hold & Hnew & Hc).
    change (Nat.iter (S j) (spawn_initial_enemy rnd) s)
      with (spawn_initial_enemy rnd (Nat.iter j (spawn_initial_enemy rnd) s)).
    set (a := Nat.iter j (spawn_initial_enemy rnd) s) in *.
    clearbody a. rewrite spawn_initial_enemy_eq. rsimpl.
    split; [lia|]. split; [rewrite <- Hb; reflexivity|].
    split; [exact He|]. split; [|split].
    + intros id Hid. rewrite lookup_insert_ne by lia. apply Hold. lia.
    + intros i Hi. rewrite Hn. destruct (decide (i = j)) as [->|Hne].
      * rewrite lookup_insert_eq. eexists. split; [|reflexivity].
        split; [reflexivity|]. split; [reflexivity|].
        eexists. reflexivity.
      * rewrite lookup_insert_ne by lia. apply Hnew. lia.
    + intros Hlt. rewrite Hc by exact Hlt. rewrite Hn.
      rewrite group_add_fresh.
      * rewrite seq_S, app_assoc. reflexivity.
      * intros [Hin|Hin]%elem_of_app.
        -- apply Hlt in Hin. lia.
        -- apply elem_of_seq in Hin. lia.
Qed.

Lemma spawn_initial_collectible_iter j s :
  nextId (Nat.iter j (spawn_initial_collectible rnd) s) = (nextId s + j)%nat
  /\ beside_spawns (Nat.iter j (spawn_initial_collectible rnd) s)
     = beside_spawns s
  /\ enemies (Nat.iter j (spawn_initial_collectible rnd) s) = enemies s
  /\ (forall id, (id < nextId s \/ nextId s + j <= id)%nat ->
        sprites (Nat.iter j (spawn_initial_collectible rnd) s) !! id
        = sprites s !! id)
  /\ (forall i, (i < j)%nat ->
        exists sp, initial_collectible sp
          /\ sprites (Nat.iter j (spawn_initial_collectible rnd) s)
               !! (nextId s + i)%nat = Some sp)
  /\ ((forall id, id ∈ collectibles s -> (id < nextId s)%nat) ->
      collectibles (Nat.iter j (spawn_initial_collectible rnd) s)
      = collectibles s ++ seq (nextId s) j).
Proof.
  induction j as [|j IH].
  - cbn [Nat.iter seq]. rewrite Nat.add_0_r, app_nil_r.
    repeat split; auto. intros i Hi. lia.
  - destruct IH as (Hn & Hb & He & Hold & Hnew & Hc).
    change (Nat.iter (S j) (spawn_initial_collectible rnd) s)
      with (spawn_initial_collectible rnd
              (Nat.iter j (spawn_initial_collectible rnd) s)).
    set (a := Nat.iter j (spawn_initial_collectible rnd) s) in *.
    clearbody a. rewrite spawn_initial_collectible_eq. rsimpl.
    split; [lia|]. split; [rewrite <- Hb; reflexivity|].
    split; [exact He|]. split; [|split].
    + intros id Hid. rewrite lookup_insert_ne by lia. apply Hold. lia.
    + intros i Hi. rewrite Hn. destruct (decide (i = j)) as [->|Hne].
      * rewrite lookup_insert_eq. eexists. split; [|reflexivity].
        split; [reflexivity|]. split; reflexivity.
      * rewrite lookup_insert_ne by lia. apply Hnew. lia.
    + intros Hlt. rewrite Hc by exact Hlt. rewrite Hn.
      rewrite group_add_fresh.
      * rewrite seq_S, app_assoc. reflexivity.
      * intros [Hin|Hin]%elem_of_app.
        -- apply Hlt in Hin. lia.
        -- apply elem_of_seq in Hin. lia.
Qed.

(** ** The whole frame *)

Lemma update_full k s :
  escDown k && negb (escapePressed s) = false -> gameOver s = false ->
  spaceDown k && introComplete s = false ->
  update k s
  = enemy_collisions (collectible_collisions (after_movement k s)).
Proof.
  intros Hesc Hgo Hsp. unfold update. rewrite Hesc.
  fold (after_escape k s).
  destruct (session_fields _ _ (after_escape_session k s))
    as (_ & _ & _ & _ & _ & _ & _ & Hi & Hg & _).
  rewrite Hg, Hgo.
  destruct (session_fields _ _ (move_player_session k (after_escape k s)))
    as (_ & _ & _ & _ & _ & _ & _ & Hi' & Hg' & _).
  cbn [introComplete gameOver clamp_player update_sprite set_sprites].
  rewrite Hi', Hg', Hi, Hg, Hgo.
  replace (spaceDown k && negb (negb (introComplete s) || false))
    with (spaceDown k && introComplete s)
    by (destruct (spaceDown k), (introComplete s); reflexivity).
  rewrite Hsp. reflexivity.
Qed.

Lemma after_movement_session k s : session (after_movement k s) = session s.
Proof.
  unfold after_movement. fold (after_escape k s).
  rewrite move_enemies_session, clamp_player_session, move_player_session.
  apply after_escape_session.
Qed.

Lemma steered_lookup k s :
  sprites (clamp_player (move_player k (after_escape k s))) !! player s
  = (fun sp => clamp_sprite (steer k sp)) <$> sprites s !! player s.
Proof.
  destruct (session_fields _ _ (move_player_session k (after_escape k s)))
    as (Hp' & _).
  destruct (session_fields _ _ (after_escape_session k s)) as (Hp & _).
  unfold clamp_player. rsimpl. rewrite move_player_sprites.
  rewrite Hp', Hp, after_escape_sprites, alter_alter.
  apply lookup_alter_eq.
Qed.

Lemma moved_in_bounds (g : Sprite -> Sprite) (o : option Sprite) sp :
  moves g -> g <$> o = Some sp -> in_bounds sp.
Proof.
  intros Hg. destruct o as [q|]; [|discriminate].
  intros [= <-]. apply Hg.
Qed.

Lemma collisions_evolve s :
  evolves s (enemy_collisions (collectible_collisions s)).
Proof.
  eapply evolves_trans;
    [apply evolves_collectible_collisions|apply evolves_enemy_collisions].
Qed.

(** C4, amended: on a frame that gets to the movement code (no fresh press
    of the escape key, game not over) the player ends within
    [[32, 800 - 32]] by [[32, 600 - 32]]; when the frame also gets to the
    enemy loop (the spacebar does not block it) every enemy of the group,
    one spawned in this frame included, ends within the same bounds, those
    of the player size 32: the clamp of the enemies uses [PLAYER_SIZE] too. *)
Theorem clamped_within_player_bounds k s :
  wf s ->
  escDown k && negb (escapePressed s) = false -> gameOver s = false ->
  (forall sp, sprites (update k s) !! player s = Some sp -> in_bounds sp)
  /\ (spaceDown k && introComplete s = false ->
      forall e sp, e ∈ enemies (update k s) ->
                   sprites (update k s) !! e = Some sp -> in_bounds sp).
Proof.
  intros Hwf Hesc Hgo.
  assert (Hpl : forall sp,
            sprites (clamp_player (move_player k (after_escape k s)))
              !! player s = Some sp -> in_bounds sp).
  { intros sp. rewrite steered_lookup.
    apply (moved_in_bounds (fun q => clamp_sprite (steer k q))).
    apply (moves_clamp_after (steer k)). intros q. unfold steer.
    destruct (leftDown k), (rightDown k), (upDown k), (downDown k); auto. }
  assert (Hfull : spaceDown k && introComplete s = false ->
            (forall sp, sprites (update k s) !! player s = Some sp ->
                        in_bounds sp)
            /\ forall e sp, e ∈ enemies (update k s) ->
                 sprites (update k s) !! e = Some sp -> in_bounds sp).
  { intros Hspace. rewrite (update_full k s Hesc Hgo Hspace).
    pose proof (collisions_evolve (after_movement k s)) as Hev.
    destruct (session_fields _ _ (after_movement_session k s))
      as (Hp & He & _).
    set (m := after_movement k s) in *.
    set (c := clamp_player (move_player k (after_escape k s))) in *.
    assert (Hmove : forall id, nextId m = nextId s
              /\ (id ∉ enemies s -> sprites m !! id = sprites c !! id)
              /\ (id ∈ enemies s ->
                  exists g, moves g /\ sprites m !! id = g <$> sprites c !! id)).
    { intros id. subst m c. unfold after_movement.
      fold (after_escape k s).
      destruct (move_enemies_lookup
                  (clamp_player (move_player k (after_escape k s))) id)
        as (Hn & Hout & Hin).
      destruct (session_fields _ _ (move_player_session k (after_escape k s)))
        as (_ & He1 & _).
      destruct (session_fields _ _ (after_escape_session k s))
        as (_ & He2 & _).
      cbn [enemies clamp_player update_sprite set_sprites] in Hout, Hin.
      rewrite He1, He2 in Hout, Hin.
      split; [|split; assumption].
      rewrite Hn. unfold clamp_player, move_player, after_escape.
      destruct (leftDown k), (rightDown k), (upDown k), (downDown k),
        (escDown k); reflexivity. }
    assert (Hm : forall id sp, (id = player s \/ id ∈ enemies s) ->
              sprites m !! id = Some sp -> in_bounds sp).
    { intros id sp Hid Hsp. destruct (Hmove id) as (_ & Hout & Hin).
      destruct (decide (id ∈ enemies s)) as [Hi|Hi].
      - destruct (Hin Hi) as (g & Hg & Hlk). rewrite Hlk in Hsp.
        eapply moved_in_bounds; eassumption.
      - destruct Hid as [->|Hid]; [|contradiction].
        rewrite Hout in Hsp by exact Hi. apply Hpl. exact Hsp. }
    assert (Hold : forall id sp, (id < nextId s)%nat ->
              (id = player s \/ id ∈ enemies s) ->
              sprites (enemy_collisions (collectible_collisions m)) !! id
              = Some sp -> in_bounds sp).
    { intros id sp Hlt Hid Hsp.
      assert (Hlt' : (id < nextId m)%nat)
        by (destruct (Hmove id) as (-> & _); exact Hlt).
      destruct (hides_in_bounds _ _ _
                  (ev_old _ _ Hev id (or_introl Hlt')) Hsp)
        as (sp0 & Hsp0 & Hx & Hy & _).
      eapply in_bounds_pos; [exact Hx|exact Hy|].
      apply (Hm id sp0 Hid Hsp0). }
    split.
    - intros sp Hsp. apply (Hold (player s) sp); auto.
      apply (wf_player _ Hwf).
    - intros e sp Hin Hsp.
      destruct (ev_enemies _ _ Hev e Hin) as [Ho|Hnew].
      + rewrite He in Ho. apply (Hold e sp); auto.
        apply (wf_enemies _ Hwf), Ho.
      + apply (ev_new _ _ Hev e sp Hnew Hsp). }
  split; [|intros Hsp; apply Hfull, Hsp].
  destruct (spaceDown k && introComplete s) eqn:Hsp;
    [|apply Hfull; reflexivity].
  apply andb_true_iff in Hsp as [Hsp' Hin].
  rewrite (update_blocked k s Hsp' Hin Hgo Hesc). exact Hpl.
Qed.

(** Frames after the end of the game write nothing of the session. *)
Lemma run_game_over ks s :
  gameOver s = true ->
  score (run ks s) = score s /\ health (run ks s) = health s
  /\ round (run ks s) = round s /\ gameOver (run ks s) = true
  /\ count_calls playGameOverSound (run ks s)
     = count_calls playGameOverSound s.
Proof.
  revert s. induction ks as [|k ks IH]; intros s Hgo; [auto|].
  unfold run. cbn [fold_left].
  destruct (update_game_over_frame k s Hgo)
    as (_ & _ & _ & Hsc & Hh & Hr & Hg & Hc).
  destruct (IH (update k s) Hg) as (A & B & C & D & E).
  unfold run in *. unfold count_calls in *.
  rewrite A, B, C, D, E. auto.
Qed.

(** What a frame that ends the game has done by its end, and what the
    frames after it leave alone. *)
Lemma game_over_frame k s :
  gameOver s = false -> gameOver (update k s) = true ->
  count_calls playGameOverSound (update k s)
  = S (count_calls playGameOverSound s)
  /\ (health (update k s) <= 0)%Z
  /\ ((0 < health s)%Z ->
      (- GAME_CONSTANTS.DAMAGE_PER_ENEMY < health (update k s))%Z)
  /\ all_hidden (update k s)
  /\ forall ks,
       score (run ks (update k s)) = score (update k s)
       /\ health (run ks (update k s)) = health (update k s)
       /\ round (run ks (update k s)) = round (update k s)
       /\ gameOver (run ks (update k s)) = true
       /\ count_calls playGameOverSound (run ks (update k s))
          = count_calls playGameOverSound (update k s).
Proof.
  intros Hgo Hover.
  assert (Hlater : forall ks,
       score (run ks (update k s)) = score (update k s)
       /\ health (run ks (update k s)) = health (update k s)
       /\ round (run ks (update k s)) = round (update k s)
       /\ gameOver (run ks (update k s)) = true
       /\ count_calls playGameOverSound (run ks (update k s))
          = count_calls playGameOverSound (update k s))
    by (intros ks; apply run_game_over, Hover).
  destruct (escDown k && negb (escapePressed s)) eqn:Hesc.
  { unfold update in Hover. rewrite Hesc in Hover. cbn in Hover. congruence. }
  destruct (spaceDown k && introComplete s) eqn:Hsp.
  { apply andb_true_iff in Hsp as [Hsp Hin].
    rewrite (update_blocked k s Hsp Hin Hgo Hesc) in Hover.
    destruct (session_fields _ _ (move_player_session k (after_escape k s)))
      as (_ & _ & _ & _ & _ & _ & _ & _ & Hg' & _).
    destruct (session_fields _ _ (after_escape_session k s))
      as (_ & _ & _ & _ & _ & _ & _ & _ & Hg & _).
    cbn [gameOver clamp_player update_sprite set_sprites] in Hover.
    congruence. }
  rewrite (update_full k s Hesc Hgo Hsp) in *.
  destruct (session_fields _ _ (after_movement_session k s))
    as (_ & _ & _ & _ & Hh & _ & _ & _ & Hg & Hc).
  destruct (beside_collects_fields _ _
              (collectible_collisions_beside (after_movement k s)))
    as (_ & Hh' & _ & Hg' & Hc' & _).
  set (m := collectible_collisions (after_movement k s)) in *.
  assert (Hgm : gameOver m = false) by congruence.
  assert (Hcm : count_calls playGameOverSound m
                = count_calls playGameOverSound s)
    by (rewrite Hc'; unfold count_calls; rewrite Hc; reflexivity).
  assert (Hhm : health m = health s) by congruence.
  destruct (introComplete m) eqn:Hi.
  2:{ unfold enemy_collisions in Hover. rewrite Hi in Hover.
      cbn in Hover. congruence. }
  rewrite (enemy_collisions_fold m Hi Hgm) in *.
  destruct (hit_loop_outcome (enemies m) m Hgm)
    as [(H1 & _)|(H1 & H2 & H3 & H4 & H5)]; [congruence|].
  rewrite <- Hcm, <- Hhm. auto.
Qed.

(** C6, amended: on a frame of active play that gets to the collision code
    (no fresh press of the escape key, spacebar not held), every enemy that
    is visible and closer than 48 to the visible player when the enemy loop
    starts takes ten points of health, one damage call each, as long as the
    health is positive before each hit: there is no limit of one hit per
    frame. *)
Theorem overlapping_enemies_each_hit k s :
  introComplete s = true -> gameOver s = false ->
  escDown k && negb (escapePressed s) = false -> spaceDown k = false ->
  (GAME_CONSTANTS.DAMAGE_PER_ENEMY
   * (Z.of_nat
        (length (touching
                   (enemies (collectible_collisions (after_movement k s)))
                   (collectible_collisions (after_movement k s)))) - 1)
   < health s)%Z ->
  health (update k s)
  = (health s
     - GAME_CONSTANTS.DAMAGE_PER_ENEMY
       * Z.of_nat
           (length (touching
                      (enemies (collectible_collisions (after_movement k s)))
                      (collectible_collisions (after_movement k s)))))%Z
  /\ count_calls playDamageSound (update k s)
     = (count_calls playDamageSound s
        + length (touching
                    (enemies (collectible_collisions (after_movement k s)))
                    (collectible_collisions (after_movement k s))))%nat.
Proof.
  intros Hin Hgo Hesc Hsp Hh.
  rewrite (update_full k s Hesc Hgo) by (rewrite Hsp; reflexivity).
  destruct (session_fields _ _ (after_movement_session k s))
    as (_ & _ & _ & _ & Hh1 & _ & _ & Hi1 & Hg1 & Hc1).
  destruct (beside_collects_fields _ _
              (collectible_collisions_beside (after_movement k s)))
    as (_ & Hh2 & Hi2 & Hg2 & _ & Hc2).
  set (m := collectible_collisions (after_movement k s)) in *.
  rewrite (enemy_collisions_fold m) by congruence.
  destruct (hit_loop_damage (enemies m) m) as (A & B); [rewrite Hh2, Hh1; exact Hh|].
  rewrite A, B, Hh2, Hh1, Hc2. unfold count_calls. rewrite Hc1. auto.
Qed.

Lemma hides_Some sp o' :
  hides (Some sp) o' ->
  exists sp', o' = Some sp' /\ x sp' = x sp /\ y sp' = y sp
              /\ key sp' = key sp /\ props sp' = props sp.
Proof.
  intros [->| ->]; [exists sp|exists (set_visible false sp)]; auto 10.
Qed.

Lemma enemy_collisions_beside s :
  beside_hits (enemy_collisions s) = beside_hits s.
Proof.
  unfold enemy_collisions. destruct (_ && _); [|reflexivity].
  apply (forEach_inv enemies hit (fun st => beside_hits st = beside_hits s));
    [|reflexivity].
  intros id st <-. apply hit_beside.
Qed.



Lemma after_movement_nextId k s : nextId (after_movement k s) = nextId s.
Proof.
  unfold after_movement. fold (after_escape k s).
  destruct (move_enemies_lookup
              (clamp_player (move_player k (after_escape k s))) 0%nat)
    as (Hn & _).
  rewrite Hn. unfold clamp_player, move_player, after_escape.
  destruct (leftDown k), (rightDown k), (upDown k), (downDown k),
    (escDown k); reflexivity.
Qed.






(** The loop passes over children that are not touched. *)
Lemma collect_loop_skip d n k s :
  (forall j c, (k <= j < k + d)%nat -> collectibles s !! j = Some c ->
               touches c GAME_CONSTANTS.COLLECTIBLE_SIZE s = false) ->
  forEach_from (d + n) k collectibles collect s
  = forEach_from n (k + d) collectibles collect s.
Proof.
  revert k. induction d as [|d IH]; intros k Hno.
  - rewrite Nat.add_0_r. reflexivity.
  - cbn [Nat.add]. rewrite forEach_from_S.
    replace (k + S d)%nat with (S k + d)%nat by lia.
    assert (Hstep : match collectibles s !! k with
                    | Some id => collect id s
                    | None => s
                    end = s).
    { destruct (collectibles s !! k) as [c|] eqn:Hc; [|reflexivity].
      apply collect_not_touching, (Hno k c); [lia|exact Hc]. }
    rewrite Hstep. apply IH. intros j c Hj. apply Hno. lia.
Qed.



Lemma evolves_collected c s : evolves s (collected c s).
Proof.
  unfold collected.
  eapply evolves_trans; [apply (evolves_setVisible c)|].
  constructor; rsimpl; auto using hides_refl.
  - intros id sp Hid. lia.
  - intros id Hid. left. eapply elem_of_group_remove, Hid.
Qed.


(** ** [returnToStartScreen] *)

Lemma clear_enemies_fields s :
  beside_spawns (clear_enemies s) = beside_spawns s
  /\ nextId (clear_enemies s) = nextId s
  /\ collectibles (clear_enemies s) = collectibles s
  /\ sprites (clear_enemies s) = destroy_all (enemies s) (sprites s)
  /\ enemies (clear_enemies s) = [].
Proof. repeat split. Qed.

Lemma clear_collectibles_fields s :
  beside_spawns (clear_collectibles s) = beside_spawns s
  /\ nextId (clear_collectibles s) = nextId s
  /\ enemies (clear_collectibles s) = enemies s
  /\ sprites (clear_collectibles s)
     = destroy_all (collectibles s) (sprites s)
  /\ collectibles (clear_collectibles s) = [].
Proof. repeat split. Qed.

Lemma nil_below (l : list nat) (n : nat) :
  l = [] -> forall id, id ∈ l -> (id < n)%nat.
Proof. intros -> id []%elem_of_nil. Qed.

Lemma returnToStartScreen_stages s :
  returnToStartScreen s
  = call showTitleScreen
      (Nat.iter GAME_CONSTANTS.COLLECTIBLE_COUNT (spawn_initial_collectible rnd)
         (clear_collectibles
            (Nat.iter GAME_CONSTANTS.ENEMY_COUNT (spawn_initial_enemy rnd)
               (clear_enemies (hide_all (reset_session s)))))).
Proof. reflexivity. Qed.

Lemma reset_hidden_spec s :
  session (hide_all (reset_session s))
  = (player s, enemies s, collectibles s, 0%Z, GAME_CONSTANTS.MAX_HEALTH,
     1%Z, GAME_CONSTANTS.ENEMY_SPEED, false, false,
     calls s ++ [stopIntroMusic])
  /\ nextId (hide_all (reset_session s)) = nextId s
  /\ forall id,
       sprites (hide_all (reset_session s)) !! id
       = if decide (id = player s \/ id ∈ enemies s \/ id ∈ collectibles s)
         then set_visible false <$> sprites s !! id
         else sprites s !! id.
Proof.
  split; [rewrite hide_all_session; reflexivity|].
  split; [rewrite hide_all_nextId; reflexivity|].
  intros id. rewrite hide_all_lookup. reflexivity.
Qed.

Lemma returnToStartScreen_spec s :
  wf s ->
  beside_spawns (returnToStartScreen s)
  = (player s, 0%Z, GAME_CONSTANTS.MAX_HEALTH, 1%Z,
     GAME_CONSTANTS.ENEMY_SPEED, false, false,
     (calls s ++ [stopIntroMusic]) ++ [showTitleScreen])
  /\ nextId (returnToStartScreen s)
     = (nextId s + GAME_CONSTANTS.ENEMY_COUNT
        + GAME_CONSTANTS.COLLECTIBLE_COUNT)%nat
  /\ enemies (returnToStartScreen s)
     = seq (nextId s) GAME_CONSTANTS.ENEMY_COUNT
  /\ collectibles (returnToStartScreen s)
     = seq (nextId s + GAME_CONSTANTS.ENEMY_COUNT)
         GAME_CONSTANTS.COLLECTIBLE_COUNT
  /\ (forall i, (i < GAME_CONSTANTS.ENEMY_COUNT)%nat ->
        exists sp, initial_enemy sp
          /\ sprites (returnToStartScreen s) !! (nextId s + i)%nat = Some sp)
  /\ (forall i, (i < GAME_CONSTANTS.COLLECTIBLE_COUNT)%nat ->
        exists sp, initial_collectible sp
          /\ sprites (returnToStartScreen s)
               !! (nextId s + GAME_CONSTANTS.ENEMY_COUNT + i)%nat = Some sp)
  /\ (forall id,
        (id < nextId s
         \/ nextId s + GAME_CONSTANTS.ENEMY_COUNT
            + GAME_CONSTANTS.COLLECTIBLE_COUNT <= id)%nat ->
        sprites (returnToStartScreen s) !! id
        = if decide (id ∈ enemies s \/ id ∈ collectibles s) then None
          else if decide (id = player s)
               then set_visible false <$> sprites s !! id
               else sprites s !! id).
Proof.
  intros Hwf. rewrite returnToStartScreen_stages.
  destruct (reset_hidden_spec s) as (Hh & Hnh & Hlh).
  remember (hide_all (reset_session s)) as h eqn:Eh. clear Eh.
  unfold session in Hh.
  injection Hh as Hph Heh Hch Hsch Hhh Hrh Hsh Hih Hgh Hcah.
  destruct (spawn_initial_enemy_iter GAME_CONSTANTS.ENEMY_COUNT
              (clear_enemies h))
    as (Hn9 & Hb9 & Hc9 & Hold9 & Hnew9 & He9).
  assert (He9' := He9 (nil_below _ _ (proj2 (proj2 (proj2 (proj2
                        (clear_enemies_fields h))))))). clear He9.
  destruct (clear_enemies_fields h) as (Hb9' & Hn8 & Hc8 & Hs8 & He8).
  rewrite Hb9', Hn8, Hc8, Hs8, He8 in *. clear Hb9' Hn8 Hc8 Hs8 He8.
  remember (Nat.iter GAME_CONSTANTS.ENEMY_COUNT (spawn_initial_enemy rnd)
              (clear_enemies h)) as s9 eqn:E9. clear E9.
  destruct (spawn_initial_collectible_iter GAME_CONSTANTS.COLLECTIBLE_COUNT
              (clear_collectibles s9))
    as (Hn11 & Hb11 & He11 & Hold11 & Hnew11 & Hc11).
  assert (Hc11' := Hc11 (nil_below _ _ (proj2 (proj2 (proj2 (proj2
                          (clear_collectibles_fields s9))))))). clear Hc11.
  destruct (clear_collectibles_fields s9) as (Hb10 & Hn10 & He10 & Hs10 & Hc10).
  rewrite Hb10, Hn10, He10, Hs10, Hc10 in *. clear Hb10 Hn10 He10 Hs10 Hc10.
  remember (Nat.iter GAME_CONSTANTS.COLLECTIBLE_COUNT
              (spawn_initial_collectible rnd) (clear_collectibles s9))
    as s11 eqn:E11. clear E11.
  cbn [app] in *.
  rewrite Hn9, Hnh, Hc9, Hch in *.
  assert (Hcol : forall id, id ∈ collectibles s -> (id < nextId s)%nat)
    by apply (wf_collectibles _ Hwf).
  split.
  { unfold beside_spawns in *. cbn [player score health round enemySpeed
      introComplete gameOver calls call].
    injection Hb11 as -> -> -> -> -> -> -> ->.
    injection Hb9 as -> -> -> -> -> -> -> ->.
    rewrite Hph, Hsch, Hhh, Hrh, Hsh, Hih, Hgh, Hcah. reflexivity. }
  cbn [nextId enemies collectibles sprites call].
  split; [lia|]. split; [rewrite He11; exact He9'|]. split; [exact Hc11'|].
  split; [|split].
  - intros i Hi. destruct (Hnew9 i Hi) as (sp & Hsp & Hlk).
    exists sp. split; [exact Hsp|].
    rewrite Hold11 by lia. rewrite destroy_all_lookup.
    rewrite decide_False; [exact Hlk|].
    intros Hin. apply Hcol in Hin. lia.
  - intros i Hi. destruct (Hnew11 i Hi) as (sp & Hsp & Hlk).
    exists sp. split; [exact Hsp|exact Hlk].
  - intros id Hid. rewrite Hold11 by lia. rewrite destroy_all_lookup.
    rewrite Hold9 by lia. rewrite destroy_all_lookup, Heh, Hlh.
    destruct (decide (id ∈ collectibles s)) as [Hc|Hc];
      [rewrite decide_True by tauto; reflexivity|].
    destruct (decide (id ∈ enemies s)) as [He|He];
      [rewrite decide_True by tauto; reflexivity|].
    rewrite (decide_False (P := id ∈ enemies s \/ id ∈ collectibles s))
      by tauto.
    destruct (decide (id = player s)) as [->|Hp].
    + rewrite decide_True by tauto. reflexivity.
    + rewrite decide_False by tauto. reflexivity.
Qed.

Lemma wf_returnToStartScreen s : wf s -> wf (returnToStartScreen s).
Proof.
  intros Hwf.
  destruct (returnToStartScreen_spec s Hwf)
    as (Hb & Hn & He & Hc & _ & _ & Hold).
  remember (returnToStartScreen s) as r eqn:Er. clear Er.
  unfold beside_spawns in Hb. injection Hb as Hp _ _ _ _ _ _ _.
  unfold GAME_CONSTANTS.ENEMY_COUNT, GAME_CONSTANTS.COLLECTIBLE_COUNT in *.
  constructor; rewrite ?Hn, ?Hp, ?He, ?Hc.
  - intros id Hsome.
    destruct (decide (id < nextId s + 5 + 10)%nat) as [Hlt|Hge]; [exact Hlt|].
    assert (Hcond : (id < nextId s \/ nextId s + 5 + 10 <= id)%nat) by lia.
    rewrite (Hold id Hcond) in Hsome.
    assert (Hs : is_Some (sprites s !! id)).
    { destruct (decide _); [destruct Hsome; discriminate|].
      destruct (decide _); [|exact Hsome].
      destruct (sprites s !! id); [eauto|destruct Hsome; discriminate]. }
    pose proof (wf_sprites _ Hwf id Hs). lia.
  - pose proof (wf_player _ Hwf). lia.
  - intros id Hid%elem_of_seq. lia.
  - intros id Hid%elem_of_seq. lia.
  - apply NoDup_seq.
  - apply NoDup_seq.
Qed.

Lemma returnToStartScreen_canonical s :
  wf s -> canonical (returnToStartScreen s).
Proof.
  intros Hwf.
  destruct (returnToStartScreen_spec s Hwf)
    as (Hb & Hn & He & Hc & Hen & Hco & Hold).
  remember (returnToStartScreen s) as r eqn:Er. clear Er.
  unfold beside_spawns in Hb. injection Hb as Hp Hsc Hh Hr Hs Hi Hg _.
  assert (Hene : forall e, e ∈ enemies r ->
            exists sp, sprites r !! e = Some sp /\ initial_enemy sp).
  { intros e Hin. rewrite He in Hin. apply elem_of_seq in Hin.
    destruct (Hen (e - nextId s)%nat) as (sp & Hsp & Hlk); [lia|].
    replace (nextId s + (e - nextId s))%nat with e in Hlk by lia. eauto. }
  assert (Hcol : forall c, c ∈ collectibles r ->
            exists sp, sprites r !! c = Some sp /\ initial_collectible sp).
  { intros c Hin. rewrite Hc in Hin. apply elem_of_seq in Hin.
    destruct (Hco (c - (nextId s + GAME_CONSTANTS.ENEMY_COUNT))%nat)
      as (sp & Hsp & Hlk); [lia|].
    replace (nextId s + GAME_CONSTANTS.ENEMY_COUNT
             + (c - (nextId s + GAME_CONSTANTS.ENEMY_COUNT)))%nat
      with c in Hlk by lia.
    eauto. }
  unfold canonical. rewrite Hsc, Hh, Hr, Hs, Hi, Hg.
  repeat (split; [reflexivity|]).
  split; [rewrite He; apply length_seq|]. split; [exact Hene|].
  split; [rewrite Hc; apply length_seq|]. split; [exact Hcol|].
  split; [|split].
  - rewrite Hp. intros sp. rewrite Hold by (left; apply (wf_player _ Hwf)).
    destruct (decide _); [discriminate|].
    rewrite decide_True by reflexivity.
    destruct (sprites s !! player s); [|discriminate].
    intros [= <-]. reflexivity.
  - intros e Hin sp Hsp. destruct (Hene e Hin) as (sp' & Hsp' & Hv & _).
    congruence.
  - intros c Hin sp Hsp. destruct (Hcol c Hin) as (sp' & Hsp' & Hv & _).
    congruence.
Qed.

(** C8: from any scene, [returnToStartScreen] restores the canonical
    initial state: score 0, health 100, round 1, enemy speed 4, intro not
    complete, game not over, an enemy group of five new hidden enemies of
    type [random], a collectible group of ten new hidden collectibles, the
    player hidden, the sprites of the former groups destroyed; and a second
    call restores it again. *)
Theorem reset_restores_canonical s :
  wf s ->
  canonical (returnToStartScreen s)
  /\ canonical (returnToStartScreen (returnToStartScreen s))
  /\ enemies (returnToStartScreen s)
     = seq (nextId s) GAME_CONSTANTS.ENEMY_COUNT
  /\ collectibles (returnToStartScreen s)
     = seq (nextId s + GAME_CONSTANTS.ENEMY_COUNT)
         GAME_CONSTANTS.COLLECTIBLE_COUNT
  /\ forall id, id ∈ enemies s \/ id ∈ collectibles s ->
       sprites (returnToStartScreen s) !! id = None.
Proof.
  intros Hwf. split; [apply returnToStartScreen_canonical, Hwf|].
  split; [apply returnToStartScreen_canonical, wf_returnToStartScreen, Hwf|].
  destruct (returnToStartScreen_spec s Hwf) as (_ & _ & He & Hc & _ & _ & Hold).
  split; [exact He|]. split; [exact Hc|].
  intros id Hid. rewrite Hold.
  - rewrite decide_True by exact Hid. reflexivity.
  - left. destruct Hid as [Hid|Hid];
      [apply (wf_enemies _ Hwf), Hid|apply (wf_collectibles _ Hwf), Hid].
Qed.

(** ** Patrol enemies *)

Lemma patrol_turn_keeps p s :
  (moveCounter p + 1 <= 60)%Z ->
  patrol_turn rnd p s
  = (mkEnemyProps (type p) (moveCounter p + 1) (moveDirection p), s).
Proof.
  intros Hc. unfold patrol_turn.
  destruct (Z.ltb_spec 60 (moveCounter p + 1)); [lia|reflexivity].
Qed.

Lemma patrol_turn_rerolls p s :
  (60 < moveCounter p + 1)%Z ->
  patrol_turn rnd p s
  = (mkEnemyProps (type p) 0 (draw 0 3 (draws s)), set_draws (S (draws s)) s).
Proof.
  intros Hc. unfold patrol_turn.
  destruct (Z.ltb_spec 60 (moveCounter p + 1)); [reflexivity|lia].
Qed.

(** One pass of the movement loop body over a patrol enemy: the counter
    and the facing are those of [patrol_turn], and the sprite moved
    [speed * 0.7] along the axis of that facing before the clamp. *)
Lemma move_enemy_patrol e s sp p :
  sprites s !! e = Some sp -> props sp = Some p -> type p = patrol ->
  sprites (move_enemy e s) !! e
  = Some (clamp_sprite
            (patrol_step (moveDirection (fst (patrol_turn rnd p s)))
               (inject_Z (enemySpeed s) * (7 # 10))
               (set_props (Some (fst (patrol_turn rnd p s))) sp))).
Proof.
  intros Hsp Hp Ht. unfold move_enemy, move_by_type.
  rewrite Hsp, Hp, Ht.
  destruct (patrol_turn rnd p s) as [p1 s1] eqn:Hturn.
  assert (Hs1 : sprites s1 = sprites s).
  { unfold patrol_turn, Between in Hturn.
    destruct (60 <? moveCounter p + 1)%Z; inversion Hturn; reflexivity. }
  rsimpl. rewrite !alter_alter, lookup_alter_eq, Hs1, Hsp. reflexivity.
Qed.

Lemma patrol_turn_next p s :
  fst (patrol_turn rnd p s) = patrol_next p (draw 0 3 (draws s)).
Proof.
  unfold patrol_turn, patrol_next, Between.
  destruct (60 <? moveCounter p + 1)%Z; reflexivity.
Qed.

Lemma patrol_step_props d st sp : props (patrol_step d st sp) = props sp.
Proof. unfold patrol_step. destruct d as [|[[|[]|]|[]|]|]; reflexivity. Qed.

Lemma move_enemy_draws e s : (draws s <= draws (move_enemy e s))%nat.
Proof.
  unfold move_enemy, move_by_type, patrol_turn, Between.
  destruct (sprites s !! e) as [sp|]; [|reflexivity].
  destruct (props sp) as [p|]; [|reflexivity].
  destruct (type p); rsimpl; try lia.
  - destruct (sprites s !! player s) as [pl|]; [|reflexivity].
    destruct (visible pl); reflexivity.
  - destruct (60 <? moveCounter p + 1)%Z; rsimpl; lia.
Qed.

(** In the movement loop a patrol enemy that is in the group once gets
    exactly one turn. *)
Lemma move_fold_patrol l s e sp p :
  NoDup l -> e ∈ l ->
  sprites s !! e = Some sp -> props sp = Some p -> type p = patrol ->
  exists n sp',
    (draws s <= n)%nat
    /\ sprites (fold_left (fun st a => move_enemy a st) l s) !! e = Some sp'
    /\ props sp' = Some (patrol_next p (draw 0 3 n)).
Proof.
  revert s. induction l as [|a l IH]; intros s Hnd Hin Hsp Hp Ht;
    [destruct (not_elem_of_nil _ Hin)|].
  apply NoDup_cons in Hnd as [Ha Hnd]. cbn [fold_left].
  destruct (decide (a = e)) as [->|Hne].
  - destruct (move_fold_lookup l (move_enemy e s) e) as (_ & Hout & _).
    rewrite (Hout Ha), (move_enemy_patrol e s sp p Hsp Hp Ht).
    eexists (draws s), _. split; [lia|]. split; [reflexivity|].
    unfold clamp_sprite. cbn [props set_x set_y].
    rewrite patrol_step_props. cbn [props set_props].
    rewrite patrol_turn_next. reflexivity.
  - apply elem_of_cons in Hin as [Heq|Hin]; [congruence|].
    destruct (move_enemy_alter a s) as (g & _ & Hs & _).
    destruct (IH (move_enemy a s) Hnd Hin) as (n & sp' & Hn & Hlk & Hpr); auto.
    { rewrite Hs, lookup_alter_ne by exact Hne. exact Hsp. }
    exists n, sp'. split; [|auto].
    pose proof (move_enemy_draws a s). lia.
Qed.

(** A frame that gets to the movement loop gives a patrol enemy its turn:
    the counter goes up by one and the facing stays, until the counter
    would pass 60; then the facing is drawn again and the counter is
    reset. *)
Lemma update_patrol k s e sp p :
  wf s ->
  escDown k && negb (escapePressed s) = false -> gameOver s = false ->
  spaceDown k && introComplete s = false ->
  e ∈ enemies s -> e <> player s ->
  sprites s !! e = Some sp -> props sp = Some p -> type p = patrol ->
  exists n sp',
    (draws s <= n)%nat
    /\ sprites (update k s) !! e = Some sp'
    /\ props sp' = Some (patrol_next p (draw 0 3 n)).
Proof.
  intros Hwf Hesc Hgo Hspace Hin Hne Hsp Hp Ht.
  rewrite (update_full k s Hesc Hgo Hspace).
  pose proof (collisions_evolve (after_movement k s)) as Hev.
  pose proof (after_movement_nextId k s) as Hn.
  unfold after_movement in *. fold (after_escape k s) in *.
  rewrite move_enemies_fold in *.
  set (c := clamp_player (move_player k (after_escape k s))) in *.
  assert (Hc : sprites c !! e = Some sp).
  { subst c. unfold clamp_player. rsimpl. rewrite move_player_sprites.
    rewrite !lookup_alter_ne, after_escape_sprites; [exact Hsp| |].
    - destruct (session_fields _ _ (after_escape_session k s)) as (-> & _).
      congruence.
    - destruct (session_fields _ _ (move_player_session k (after_escape k s)))
        as (-> & _).
      destruct (session_fields _ _ (after_escape_session k s)) as (-> & _).
      congruence. }
  assert (He : enemies c = enemies s).
  { subst c.
    destruct (session_fields _ _ (move_player_session k (after_escape k s)))
      as (_ & He1 & _).
    destruct (session_fields _ _ (after_escape_session k s)) as (_ & He2 & _).
    cbn [enemies clamp_player update_sprite set_sprites]. congruence. }
  assert (Hd : draws c = draws s).
  { subst c. unfold clamp_player, move_player, after_escape.
    destruct (leftDown k), (rightDown k), (upDown k), (downDown k),
      (escDown k); reflexivity. }
  rewrite He in *.
  destruct (move_fold_patrol (enemies s) c e sp p
              (wf_enemies_NoDup _ Hwf) Hin Hc Hp Ht)
    as (n & sp1 & Hle & Hlk & Hpr).
  set (m := fold_left (fun st a => move_enemy a st) (enemies s) c) in *.
  clearbody m.
  assert (Hlt : (e < nextId m)%nat)
    by (rewrite Hn; apply (wf_enemies _ Hwf), Hin).
  pose proof (ev_old _ _ Hev e (or_introl Hlt)) as Hh. rewrite Hlk in Hh.
  destruct (hides_Some _ _ Hh) as (sp' & Hsp' & _ & _ & _ & Hpr').
  exists n, sp'. split; [lia|]. split; [exact Hsp'|congruence].
Qed.

(** C5: the facing of a patrol enemy is re-rolled on the 61st frame after
    the last turn, not on the 60th.  The enemy of [scene_patrol] has just
    turned right (counter 0, facing 3): after 60 frames it has counter 60
    and still faces right, and no random number was drawn; the 61st frame
    draws the new facing and resets the counter. *)
Theorem patrol_rerolls_on_frame_61 :
  props <$> sprites (run (repeat quiet 60) scene_patrol) !! 1%nat
  = Some (Some (mkEnemyProps patrol 60 3))
  /\ draws (run (repeat quiet 60) scene_patrol) = 0%nat
  /\ exists n,
       props <$> sprites (run (repeat quiet 61) scene_patrol) !! 1%nat
       = Some (Some (mkEnemyProps patrol 0 (draw 0 3 n))).
Proof.
  assert (H60 : props <$> sprites (run (repeat quiet 60) scene_patrol) !! 1%nat
                = Some (Some (mkEnemyProps patrol 60 3)))
    by (vm_compute; reflexivity).
  split; [exact H60|]. split; [vm_compute; reflexivity|].
  assert (Hrun : run (repeat quiet 61) scene_patrol
                 = update quiet (run (repeat quiet 60) scene_patrol)).
  { change (repeat quiet 61) with (repeat quiet 60 ++ [quiet]).
    unfold run. rewrite fold_left_app. reflexivity. }
  rewrite Hrun. clear Hrun.
  assert (Hwf : wf_check (run (repeat quiet 60) scene_patrol) = true)
    by (vm_compute; reflexivity).
  assert (Hesc : escDown quiet
                 && negb (escapePressed (run (repeat quiet 60) scene_patrol))
                 = false) by (vm_compute; reflexivity).
  assert (Hgo : gameOver (run (repeat quiet 60) scene_patrol) = false)
    by (vm_compute; reflexivity).
  assert (Hspace : spaceDown quiet
                   && introComplete (run (repeat quiet 60) scene_patrol)
                   = false) by (vm_compute; reflexivity).
  assert (He : enemies (run (repeat quiet 60) scene_patrol) = [1%nat])
    by (vm_compute; reflexivity).
  assert (Hpl : player (run (repeat quiet 60) scene_patrol) = 0%nat)
    by (vm_compute; reflexivity).
  remember (run (repeat quiet 60) scene_patrol) as s60 eqn:E60. clear E60.
  destruct (sprites s60 !! 1%nat) as [sp|] eqn:Hsp; [|discriminate].
  injection H60 as Hp.
  destruct (update_patrol quiet s60 1 sp (mkEnemyProps patrol 60 3))
    as (n & sp' & _ & Hlk & Hpr); auto.
  - apply wf_check_sound, Hwf.
  - rewrite He. left.
  - rewrite Hpl. discriminate.
  - exists n. rewrite Hlk. cbn [fmap option_fmap option_map]. rewrite Hpr.
    reflexivity.
Qed.

(** C9, amended: the factory functions leave a new sprite visible; the
    loops of [create] and [returnToStartScreen] hide each entity right
    after adding it to its group, and [create] ends with the player and
    both groups hidden; the respawn loop and the enemy spawn of a new round
    add their sprites and leave them visible. *)
Theorem spawned_entities_visibility s :
  (forall px py t,
     exists sp,
       sprites (snd (createEnemy rnd px py t s))
         !! fst (createEnemy rnd px py t s) = Some sp
       /\ visible sp = true)
  /\ (forall px py,
        exists sp,
          sprites (snd (createCollectible px py s))
            !! fst (createCollectible px py s) = Some sp
          /\ visible sp = true)
  /\ (nextId s ∈ enemies (spawn_initial_enemy rnd s)
      /\ exists sp, sprites (spawn_initial_enemy rnd s) !! nextId s = Some sp
                    /\ visible sp = false)
  /\ (nextId s ∈ collectibles (spawn_initial_collectible rnd s)
      /\ exists sp,
           sprites (spawn_initial_collectible rnd s) !! nextId s = Some sp
           /\ visible sp = false)
  /\ all_hidden (create rnd)
  /\ (nextId s ∈ collectibles (respawn_collectible rnd s)
      /\ exists sp, sprites (respawn_collectible rnd s) !! nextId s = Some sp
                    /\ visible sp = true)
  /\ (nextId s ∈ enemies (spawn_round_enemy rnd s)
      /\ exists sp, sprites (spawn_round_enemy rnd s) !! nextId s = Some sp
                    /\ visible sp = true).
Proof.
  assert (Hadd : forall id l, id ∈ group_add id l).
  { intros id l. unfold group_add. destruct (decide (id ∈ l)) as [H|H];
      [exact H|]. apply elem_of_app. right. left. }
  split.
  { intros px py t. unfold createEnemy, add_sprite, Between. rsimpl.
    rewrite alter_insert_eq, lookup_insert_eq. eexists. split; reflexivity. }
  split.
  { intros px py. unfold createCollectible, add_sprite. rsimpl.
    rewrite lookup_insert_eq. eexists. split; reflexivity. }
  split.
  { rewrite spawn_initial_enemy_eq. rsimpl. split; [apply Hadd|].
    rewrite lookup_insert_eq. eexists. split; reflexivity. }
  split.
  { rewrite spawn_initial_collectible_eq. rsimpl. split; [apply Hadd|].
    rewrite lookup_insert_eq. eexists. split; reflexivity. }
  split; [apply hide_all_hidden|].
  split.
  { rewrite respawn_collectible_eq. rsimpl. split; [apply Hadd|].
    rewrite lookup_insert_eq. eexists. split; reflexivity. }
  rewrite spawn_round_enemy_eq. rsimpl. split; [apply Hadd|].
  rewrite lookup_insert_eq. eexists. split; reflexivity.
Qed.

(** C7, amended: movement is inert once the game is over; on such a frame
    every sprite and both groups are left as they are.  (It is not gated on
    the intro being complete, nor on visibility.) *)
Theorem movement_inert_when_game_over k s :
  gameOver s = true ->
  (forall id, sprites (update k s) !! id = sprites s !! id)
  /\ enemies (update k s) = enemies s
  /\ collectibles (update k s) = collectibles s.
Proof.
  intros Hgo. destruct (update_game_over_frame k s Hgo) as (Hs & He & Hc & _).
  rewrite Hs. auto.
Qed.

(** * Sessions: what every scene satisfies *)

Lemma kept_refl a : kept a a.
Proof. split; auto. Qed.

Lemma kept_visible v a : kept a (set_visible v a).
Proof. split; [intros H; exact H|reflexivity]. Qed.

Lemma moved_refl a : moved a a.
Proof. split; [apply kept_refl|reflexivity]. Qed.

Lemma moved_clamp_after (h : Sprite -> Sprite) a :
  (ok_look a -> ok_look (h a)) -> key (h a) = key a ->
  visible (h a) = visible a ->
  moved a (clamp_sprite (h a)).
Proof.
  intros Hl Hk Hv. split; [split|exact Hv]; [|exact Hk].
  intros [_ Ha]. split; [apply clamp_sprite_in_bounds|exact (Hl Ha)].
Qed.

Lemma lookup_alter_Forall2 (R : Sprite -> Sprite -> Prop) g i
    (m : gmap nat Sprite) :
  (forall a, R a a) -> (forall a, m !! i = Some a -> R a (g a)) ->
  forall id, option_Forall2 R (m !! id) (alter g i m !! id).
Proof.
  intros Hrefl Hg id. destruct (decide (i = id)) as [->|Hne].
  - rewrite lookup_alter_eq. destruct (m !! id) as [a|] eqn:Ha;
      constructor. apply Hg. reflexivity.
  - rewrite lookup_alter_ne by exact Hne.
    destruct (m !! id); constructor. apply Hrefl.
Qed.

Lemma scene_ok_kept s s' :
  scene_ok s ->
  nextId s' = nextId s -> player s' = player s ->
  enemies s' = enemies s -> collectibles s' = collectibles s ->
  (forall id, option_Forall2 kept (sprites s !! id) (sprites s' !! id)) ->
  scene_ok s'.
Proof.
  intros [[] Hok Hpl Hen Hco] Hn Hp He Hc Hk.
  assert (Hfw : forall j sp, sprites s !! j = Some sp ->
            exists sp', sprites s' !! j = Some sp' /\ key sp' = key sp).
  { intros j sp Hj. specialize (Hk j). rewrite Hj in Hk.
    inversion Hk as [a b [_ Hkey] E1 E2|]; subst. eauto. }
  constructor; [constructor|..]; rewrite ?Hn, ?Hp, ?He, ?Hc; try assumption.
  - intros j [b Hj]. apply wf_sprites0. specialize (Hk j). rewrite Hj in Hk.
    inversion Hk; subst. eauto.
  - intros j b Hj. specialize (Hk j). rewrite Hj in Hk.
    inversion Hk as [a b' [Hab _] E1 E2|]; subst. apply Hab, (Hok j). auto.
  - destruct Hpl as (sp & Hsp & Hkey). destruct (Hfw _ _ Hsp) as (b & Hb & Hkb).
    exists b. split; [exact Hb|congruence].
  - intros e Hin. destruct (Hen e Hin) as (sp & Hsp & t0 & Hkey).
    destruct (Hfw _ _ Hsp) as (b & Hb & Hkb).
    exists b. split; [exact Hb|]. exists t0. congruence.
  - intros c Hin. destruct (Hco c Hin) as (sp & Hsp & Hkey).
    destruct (Hfw _ _ Hsp) as (b & Hb & Hkb).
    exists b. split; [exact Hb|congruence].
Qed.

Lemma scene_ok_same s s' :
  scene_ok s -> sprites s' = sprites s ->
  nextId s' = nextId s -> player s' = player s ->
  enemies s' = enemies s -> collectibles s' = collectibles s ->
  scene_ok s'.
Proof.
  intros H Hs Hn Hp He Hc. apply (scene_ok_kept s); auto.
  intros id. rewrite Hs. destruct (sprites s !! id); constructor.
  apply kept_refl.
Qed.

Lemma scene_ok_setVisible v id s : scene_ok s -> scene_ok (setVisible v id s).
Proof.
  intros H. apply (scene_ok_kept s); auto.
  apply lookup_alter_Forall2; [apply kept_refl|].
  intros a _. apply kept_visible.
Qed.

Lemma scene_ok_group_setVisible v ids s :
  scene_ok s -> scene_ok (group_setVisible v ids s).
Proof.
  unfold group_setVisible. revert s.
  induction ids as [|id ids IH]; intros s H; [exact H|].
  cbn [fold_left]. apply IH, scene_ok_setVisible, H.
Qed.

Lemma scene_ok_hide_all s : scene_ok s -> scene_ok (hide_all s).
Proof.
  intros H. unfold hide_all.
  apply scene_ok_group_setVisible, scene_ok_group_setVisible,
    scene_ok_setVisible, H.
Qed.

Lemma counters_ok_same s s' :
  counters_ok s ->
  enemies s' = enemies s -> collectibles s' = collectibles s ->
  round s' = round s -> enemySpeed s' = enemySpeed s ->
  health s' = health s -> gameOver s' = gameOver s -> score s' = score s ->
  counters_ok s'.
Proof.
  intros [] He Hc Hr Hsp Hh Hg Hsc.
  constructor; rewrite ?He, ?Hc, ?Hr, ?Hsp, ?Hh, ?Hg, ?Hsc; assumption.
Qed.

Lemma inv_fields_eq s s' :
  inv_fields s' = inv_fields s ->
  nextId s' = nextId s /\ player s' = player s /\ enemies s' = enemies s
  /\ collectibles s' = collectibles s /\ round s' = round s
  /\ enemySpeed s' = enemySpeed s /\ health s' = health s
  /\ gameOver s' = gameOver s /\ score s' = score s
  /\ introComplete s' = introComplete s.
Proof. unfold inv_fields. intros [= -> -> -> -> -> -> -> -> -> ->]. tauto. Qed.

Lemma session_inv_fields s s' :
  session s' = session s -> nextId s' = nextId s ->
  inv_fields s' = inv_fields s.
Proof.
  intros Hs Hn.
  destruct (session_fields _ _ Hs)
    as (Hp & He & Hc & Hsc & Hh & Hr & Hsp & Hi & Hg & _).
  unfold inv_fields. congruence.
Qed.

(** A step that moves sprites about and writes none of the counters. *)
Lemma Inv_moved s s' :
  Inv s -> inv_fields s' = inv_fields s ->
  (forall id, option_Forall2 moved (sprites s !! id) (sprites s' !! id)) ->
  Inv s'.
Proof.
  intros (Hsc & Hco & Hh) Hf Hm.
  destruct (inv_fields_eq _ _ Hf)
    as (Hn & Hp & He & Hc & Hr & Hsp & Hhe & Hg & Hscore & Hi).
  split; [|split].
  - apply (scene_ok_kept s); auto.
    intros id. destruct (Hm id) as [a b [Hk _]|]; constructor. exact Hk.
  - apply (counters_ok_same s); auto.
  - rewrite Hi. intros Hfalse. destruct (Hh Hfalse) as (H1 & H2 & H3).
    assert (Hhid : forall id, hidden id s -> hidden id s').
    { intros id Hid b Hb. specialize (Hm id). rewrite Hb in Hm.
      inversion Hm as [a b' [_ Hv] E1 E2|]; subst.
      rewrite Hv. apply Hid. auto. }
    unfold all_hidden. rewrite Hp, He, Hc. auto.
Qed.

Lemma Inv_same s s' :
  Inv s -> inv_fields s' = inv_fields s -> sprites s' = sprites s -> Inv s'.
Proof.
  intros H Hf Hs. apply (Inv_moved s); auto.
  intros id. rewrite Hs. destruct (sprites s !! id); constructor.
  apply moved_refl.
Qed.

Lemma Inv_after_escape k s : Inv s -> Inv (after_escape k s).
Proof.
  intros H. apply (Inv_same s); auto;
    unfold after_escape; destruct (escDown k); reflexivity.
Qed.

Lemma steer_look k a :
  props (steer k a) = props a /\ key (steer k a) = key a
  /\ visible (steer k a) = visible a.
Proof.
  unfold steer.
  destruct (leftDown k), (rightDown k), (upDown k), (downDown k); auto.
Qed.

Lemma Inv_steered k s :
  Inv s -> Inv (clamp_player (move_player k s)).
Proof.
  intros H. apply (Inv_moved s); auto.
  - apply session_inv_fields.
    + rewrite clamp_player_session. apply move_player_session.
    + unfold clamp_player, move_player.
      destruct (leftDown k), (rightDown k), (upDown k), (downDown k);
        reflexivity.
  - assert (Hs : sprites (clamp_player (move_player k s))
                 = alter (fun sp => clamp_sprite (steer k sp)) (player s)
                     (sprites s)).
    { unfold clamp_player. rsimpl. rewrite move_player_sprites.
      destruct (session_fields _ _ (move_player_session k s)) as (-> & _).
      apply alter_alter. }
    rewrite Hs. apply lookup_alter_Forall2; [apply moved_refl|].
    intros a _. destruct (steer_look k a) as (Hpr & Hk & Hv).
    apply (moved_clamp_after (steer k)); auto.
    unfold ok_look. rewrite Hpr, Hk. auto.
Qed.

(** A frame of enemy movement rewrites the sprite of that enemy only, and
    leaves it a sprite as the game keeps them. *)
Lemma move_enemy_alter_moved e s :
  exists g, sprites (move_enemy e s) = alter g e (sprites s)
            /\ forall a, sprites s !! e = Some a -> moved a (g a).
Proof.
  unfold move_enemy, move_by_type, patrol_turn, Between.
  destruct (sprites s !! e) as [sp|];
    [|exists clamp_sprite; split; [reflexivity|discriminate]].
  destruct (props sp) as [p|] eqn:Hp.
  2:{ exists clamp_sprite. split; [reflexivity|]. intros a [= <-].
      apply (moved_clamp_after id); auto. }
  destruct (type p) eqn:Ht.
  - eexists. split; [rsimpl; rewrite !alter_alter; reflexivity|].
    intros a [= <-].
    apply (moved_clamp_after
             (fun q => set_y (y (set_x (x q + _) q) + _) (set_x (x q + _) q)));
      auto.
  - destruct (sprites s !! player s) as [pl|].
    2:{ exists clamp_sprite. split; [reflexivity|]. intros a [= <-].
        apply (moved_clamp_after id); auto. }
    destruct (visible pl).
    2:{ exists clamp_sprite. split; [reflexivity|]. intros a [= <-].
        apply (moved_clamp_after id); auto. }
    eexists. split; [rsimpl; rewrite !alter_alter; reflexivity|].
    intros a [= <-].
    apply (moved_clamp_after
             (fun q => set_y (y (set_x (x q + _) q) + _) (set_x (x q + _) q)));
      auto.
  - destruct (60 <? moveCounter p + 1)%Z eqn:Hc;
      (eexists; split; [rsimpl; rewrite !alter_alter; reflexivity|]);
      intros a [= <-];
      match goal with |- moved _ (clamp_sprite (patrol_step ?d ?st ?q)) =>
        apply (moved_clamp_after (fun b => patrol_step d st (set_props (props q) b)));
        [|exact (proj2 (patrol_step_look d st q))
         |exact (proj1 (patrol_step_look d st q))]
      end;
      unfold ok_look; rewrite patrol_step_props, Hp; cbn [props set_props];
      match goal with |- context [key (patrol_step ?d ?st ?q)] =>
        rewrite (proj2 (patrol_step_look d st q)) end;
      cbn [key set_props type moveCounter moveDirection];
      intros (Hk & Hcnt & Hdir); (split; [congruence|]).
    + split; [lia|]. apply (draw_range 0 3 (draws s)). lia.
    + apply Z.ltb_ge in Hc. split; [lia|exact Hdir].
Qed.

Lemma Inv_move_enemy e s : Inv s -> Inv (move_enemy e s).
Proof.
  intros H. destruct (move_enemy_alter_moved e s) as (g & Hs & Hg).
  destruct (move_enemy_alter e s) as (_ & _ & _ & Hn).
  apply (Inv_moved s); auto.
  - apply session_inv_fields; [apply move_enemy_session|exact Hn].
  - rewrite Hs. apply lookup_alter_Forall2; [apply moved_refl|exact Hg].
Qed.

Lemma Inv_move_enemies s : Inv s -> Inv (move_enemies s).
Proof.
  unfold move_enemies. apply forEach_inv. intros id st. apply Inv_move_enemy.
Qed.

(** ** New sprites *)

Lemma iter_inv (P : GameState -> Prop) (f : GameState -> GameState) n s :
  (forall st, P st -> P (f st)) -> P s -> P (Nat.iter n f s).
Proof.
  intros Hf Hs. induction n as [|n IH]; [exact Hs|].
  change (P (f (Nat.iter n f s))). apply Hf, IH.
Qed.

(** A sprite put on the display list under the fresh identity and added to
    one of the two groups. *)
Lemma scene_ok_add s s' sp :
  scene_ok s -> ok_sprite sp ->
  sprites s' = <[nextId s := sp]> (sprites s) -> nextId s' = S (nextId s) ->
  player s' = player s ->
  (enemies s' = group_add (nextId s) (enemies s)
   /\ collectibles s' = collectibles s /\ exists t, key sp = spriteKey t)
  \/ (collectibles s' = group_add (nextId s) (collectibles s)
      /\ enemies s' = enemies s /\ key sp = key_collectible) ->
  scene_ok s'.
Proof.
  intros [[] Hok Hpl Hen Hco] Hsp Hs Hn Hp Hg.
  assert (Hold : forall j, (j < nextId s)%nat ->
            sprites s' !! j = sprites s !! j).
  { intros j Hj. rewrite Hs, lookup_insert_ne by lia. reflexivity. }
  assert (Hnew : sprites s' !! nextId s = Some sp).
  { rewrite Hs, lookup_insert_eq. reflexivity. }
  assert (He : forall e, e ∈ enemies s' ->
            (e < S (nextId s))%nat
            /\ exists a, sprites s' !! e = Some a
                         /\ exists t, key a = spriteKey t).
  { intros e Hin.
    assert (Hcase : e ∈ enemies s
                    \/ (e = nextId s /\ exists t, key sp = spriteKey t)).
    { destruct Hg as [(E & _ & Ht)|(_ & E & _)]; rewrite E in Hin; [|auto].
      apply elem_of_group_add in Hin. destruct Hin; auto. }
    destruct Hcase as [Hin'|(-> & Ht)]; [|split; [lia|eauto]].
    pose proof (wf_enemies0 e Hin'). split; [lia|].
    rewrite Hold by lia. auto. }
  assert (Hc : forall c, c ∈ collectibles s' ->
            (c < S (nextId s))%nat
            /\ exists a, sprites s' !! c = Some a /\ key a = key_collectible).
  { intros c Hin.
    assert (Hcase : c ∈ collectibles s
                    \/ (c = nextId s /\ key sp = key_collectible)).
    { destruct Hg as [(_ & E & _)|(E & _ & Ht)]; rewrite E in Hin; [auto|].
      apply elem_of_group_add in Hin. destruct Hin; auto. }
    destruct Hcase as [Hin'|(-> & Ht)]; [|split; [lia|eauto]].
    pose proof (wf_collectibles0 c Hin'). split; [lia|].
    rewrite Hold by lia. auto. }
  constructor; [constructor|..]; rewrite ?Hn, ?Hp.
  - intros j Hj. rewrite Hs in Hj.
    destruct (decide (nextId s = j)) as [<-|Hne]; [lia|].
    rewrite lookup_insert_ne in Hj by exact Hne.
    pose proof (wf_sprites0 j Hj). lia.
  - lia.
  - intros e Hin. apply (He e Hin).
  - intros c Hin. apply (Hc c Hin).
  - destruct Hg as [(E & _)|(_ & E & _)]; rewrite E;
      [apply NoDup_group_add|]; assumption.
  - destruct Hg as [(_ & E & _)|(E & _)]; rewrite E;
      [|apply NoDup_group_add]; assumption.
  - intros j a Hj. rewrite Hs in Hj.
    destruct (decide (nextId s = j)) as [<-|Hne].
    + rewrite lookup_insert_eq in Hj. congruence.
    + rewrite lookup_insert_ne in Hj by exact Hne. apply (Hok j a Hj).
  - rewrite Hold by exact wf_player0. exact Hpl.
  - intros e Hin. apply (He e Hin).
  - intros c Hin. apply (Hc c Hin).
Qed.

Lemma ok_sprite_collectible v px py :
  (GAME_CONSTANTS.COLLECTIBLE_SIZE <= px
   <= GAME_CONSTANTS.WIDTH - GAME_CONSTANTS.COLLECTIBLE_SIZE)%Z ->
  (GAME_CONSTANTS.COLLECTIBLE_SIZE <= py
   <= GAME_CONSTANTS.HEIGHT - GAME_CONSTANTS.COLLECTIBLE_SIZE)%Z ->
  ok_sprite (set_visible v (collectible_at px py)).
Proof.
  intros Hx Hy. split; [|right; reflexivity].
  apply (in_bounds_spawn key_collectible v px py None); assumption.
Qed.

Lemma ok_sprite_enemy v t d px py :
  (GAME_CONSTANTS.PLAYER_SIZE <= px
   <= GAME_CONSTANTS.WIDTH - GAME_CONSTANTS.PLAYER_SIZE)%Z ->
  (GAME_CONSTANTS.PLAYER_SIZE <= py
   <= GAME_CONSTANTS.HEIGHT - GAME_CONSTANTS.PLAYER_SIZE)%Z ->
  (0 <= d <= 3)%Z ->
  ok_sprite (set_visible v (enemy_at t 0 d px py)).
Proof.
  intros Hx Hy Hd. split.
  - apply (in_bounds_spawn (spriteKey t) v px py
             (Some (mkEnemyProps t 0 d))); assumption.
  - unfold ok_look. cbn. split; [reflexivity|]. split; [lia|exact Hd].
Qed.

Lemma scene_ok_respawn_collectible s :
  scene_ok s -> scene_ok (respawn_collectible rnd s).
Proof.
  intros H. rewrite respawn_collectible_eq.
  eapply (scene_ok_add s); [exact H| |reflexivity|reflexivity|reflexivity|].
  - apply (ok_sprite_collectible true); apply draw_range;
      unfold GAME_CONSTANTS.COLLECTIBLE_SIZE, GAME_CONSTANTS.WIDTH,
        GAME_CONSTANTS.HEIGHT; lia.
  - right. repeat split.
Qed.

Lemma scene_ok_spawn_initial_collectible s :
  scene_ok s -> scene_ok (spawn_initial_collectible rnd s).
Proof.
  intros H. rewrite spawn_initial_collectible_eq.
  eapply (scene_ok_add s); [exact H| |reflexivity|reflexivity|reflexivity|].
  - apply (ok_sprite_collectible false); apply draw_range;
      unfold GAME_CONSTANTS.COLLECTIBLE_SIZE, GAME_CONSTANTS.WIDTH,
        GAME_CONSTANTS.HEIGHT; lia.
  - right. repeat split.
Qed.

Lemma scene_ok_spawn_initial_enemy s :
  scene_ok s -> scene_ok (spawn_initial_enemy rnd s).
Proof.
  intros H. rewrite spawn_initial_enemy_eq.
  eapply (scene_ok_add s); [exact H| |reflexivity|reflexivity|reflexivity|].
  - apply (ok_sprite_enemy false); apply draw_range;
      unfold GAME_CONSTANTS.PLAYER_SIZE, GAME_CONSTANTS.WIDTH,
        GAME_CONSTANTS.HEIGHT; lia.
  - left. split; [reflexivity|]. split; [reflexivity|]. exists random.
    reflexivity.
Qed.

Lemma scene_ok_spawn_round_enemy s :
  scene_ok s -> scene_ok (spawn_round_enemy rnd s).
Proof.
  intros H. rewrite spawn_round_enemy_eq.
  eapply (scene_ok_add s); [exact H| |reflexivity|reflexivity|reflexivity|].
  - pose proof (draw_range GAME_CONSTANTS.ENEMY_SIZE
                  (GAME_CONSTANTS.WIDTH - GAME_CONSTANTS.ENEMY_SIZE)
                  (S (draws s))) as Hx.
    pose proof (draw_range GAME_CONSTANTS.ENEMY_SIZE
                  (GAME_CONSTANTS.HEIGHT - GAME_CONSTANTS.ENEMY_SIZE)
                  (S (S (draws s)))) as Hy.
    apply (ok_sprite_enemy true); [| |apply draw_range; lia];
      unfold GAME_CONSTANTS.PLAYER_SIZE, GAME_CONSTANTS.ENEMY_SIZE,
        GAME_CONSTANTS.WIDTH, GAME_CONSTANTS.HEIGHT in *; lia.
  - left. split; [reflexivity|]. split; [reflexivity|].
    exists (drawn_type (draws s)). reflexivity.
Qed.

Lemma scene_ok_new_round s : scene_ok s -> scene_ok (new_round s).
Proof.
  intros H. unfold new_round. cbv zeta.
  match goal with |- scene_ok (if ?b then _ else _) => destruct b end;
    [apply scene_ok_spawn_round_enemy|];
    (apply (iter_inv scene_ok (respawn_collectible rnd));
      [apply scene_ok_respawn_collectible|]);
    (apply (scene_ok_same s); [exact H|reflexivity..]).
Qed.

Lemma spawn_round_enemy_score st :
  score (spawn_round_enemy rnd st) = score st.
Proof. rewrite spawn_round_enemy_eq. reflexivity. Qed.

Lemma respawn_iter_score n st :
  score (Nat.iter n (respawn_collectible rnd) st) = score st.
Proof.
  destruct (respawn_iter_spec n st) as (_ & Hb & _).
  remember (Nat.iter n (respawn_collectible rnd) st) as it eqn:E. clear E.
  unfold beside_spawns in Hb. injection Hb as _ Hsc _ _ _ _ _ _. exact Hsc.
Qed.

Lemma new_round_score s : score (new_round s) = score s.
Proof.
  unfold new_round. cbv zeta.
  match goal with |- score (if ?b then _ else _) = _ => destruct b end;
    rewrite ?spawn_round_enemy_score, respawn_iter_score; reflexivity.
Qed.

(** ** The collectible loop *)

Lemma collected_fields c s :
  sprites (collected c s) = alter (set_visible false) c (sprites s)
  /\ nextId (collected c s) = nextId s
  /\ player (collected c s) = player s
  /\ enemies (collected c s) = enemies s
  /\ collectibles (collected c s) = group_remove c (collectibles s)
  /\ score (collected c s)
     = (score s + GAME_CONSTANTS.SCORE_PER_COLLECTIBLE)%Z
  /\ round (collected c s) = round s
  /\ enemySpeed (collected c s) = enemySpeed s
  /\ health (collected c s) = health s
  /\ gameOver (collected c s) = gameOver s
  /\ introComplete (collected c s) = introComplete s.
Proof. repeat split. Qed.

Lemma scene_ok_collected c s : scene_ok s -> scene_ok (collected c s).
Proof.
  intros H. apply (scene_ok_setVisible false c) in H.
  destruct H as [[] Hok Hpl Hen Hco].
  constructor; [constructor|..]; try assumption.
  - intros id Hin. apply wf_collectibles0.
    apply (elem_of_group_remove c). exact Hin.
  - apply NoDup_group_remove. exact wf_collectibles_NoDup0.
  - intros id Hin. apply Hco. apply (elem_of_group_remove c). exact Hin.
Qed.

Lemma scene_ok_collect c s : scene_ok s -> scene_ok (collect c s).
Proof.
  intros H.
  destruct (touches c GAME_CONSTANTS.COLLECTIBLE_SIZE s) eqn:Ht;
    [|rewrite collect_not_touching by exact Ht; exact H].
  rewrite collect_touching by exact Ht.
  destruct (_ =? _)%nat; [apply scene_ok_new_round|];
    apply scene_ok_collected, H.
Qed.

Lemma counters_ok_collect c s :
  wf s -> c ∈ collectibles s -> counters_ok s -> counters_ok (collect c s).
Proof.
  intros Hwf Hin Hc.
  destruct (touches c GAME_CONSTANTS.COLLECTIBLE_SIZE s) eqn:Ht;
    [|rewrite collect_not_touching by exact Ht; exact Hc].
  rewrite collect_touching by exact Ht.
  destruct (collected_fields c s)
    as (Hs1 & Hn1 & Hp1 & He1 & Hc1 & Hsc1 & Hr1 & Hsp1 & Hh1 & Hg1 & Hi1).
  remember (collected c s) as s1 eqn:E1. clear E1.
  pose proof (length_group_remove c _ Hin) as Hlen. rewrite <- Hc1 in Hlen.
  rewrite <- Hc1.
  destruct Hc as [Hr Hsp Hen Hco Hh Hov Hsc].
  unfold GAME_CONSTANTS.SCORE_PER_COLLECTIBLE, GAME_CONSTANTS.ENEMY_SPEED,
    GAME_CONSTANTS.ENEMY_COUNT, GAME_CONSTANTS.COLLECTIBLE_COUNT,
    GAME_CONSTANTS.MAX_HEALTH, GAME_CONSTANTS.DAMAGE_PER_ENEMY in *.
  destruct (length (collectibles s1) =? 0)%nat eqn:Hz.
  - apply Nat.eqb_eq in Hz.
    assert (Hnil : collectibles s1 = [])
      by (destruct (collectibles s1); [reflexivity|discriminate]).
    assert (Hlt : forall e, e ∈ enemies s1 -> (e < nextId s1)%nat).
    { intros e. rewrite He1, Hn1. apply (wf_enemies _ Hwf). }
    destruct (new_round_spec s1 Hnil Hlt)
      as (Hr2 & Hsp2 & _ & Hc2 & _ & _ & He2).
    pose proof (new_round_score s1) as Hsc2.
    destruct (beside_collects_fields _ _ (new_round_beside s1))
      as (_ & Hh2 & _ & Hg2 & _).
    remember (new_round s1) as s2 eqn:E2. clear E2.
    assert (Hge : (2 <=? round s1 + 1)%Z = true)
      by (apply Z.leb_le; lia).
    rewrite Hge in He2. destruct He2 as (He2 & _).
    unfold GAME_CONSTANTS.COLLECTIBLE_COUNT in *.
    constructor; unfold GAME_CONSTANTS.SCORE_PER_COLLECTIBLE,
      GAME_CONSTANTS.ENEMY_SPEED, GAME_CONSTANTS.ENEMY_COUNT,
      GAME_CONSTANTS.COLLECTIBLE_COUNT, GAME_CONSTANTS.MAX_HEALTH,
      GAME_CONSTANTS.DAMAGE_PER_ENEMY;
      rewrite ?Hr2, ?Hsp2, ?Hc2, ?He2, ?Hsc2, ?Hh2, ?Hg2, ?length_app,
        ?length_seq, ?Hr1, ?Hsp1, ?He1, ?Hsc1, ?Hh1, ?Hg1;
      cbn [length]; try assumption; lia.
  - apply Nat.eqb_neq in Hz.
    constructor; unfold GAME_CONSTANTS.SCORE_PER_COLLECTIBLE,
      GAME_CONSTANTS.ENEMY_SPEED, GAME_CONSTANTS.ENEMY_COUNT,
      GAME_CONSTANTS.COLLECTIBLE_COUNT, GAME_CONSTANTS.MAX_HEALTH,
      GAME_CONSTANTS.DAMAGE_PER_ENEMY;
      rewrite ?Hr1, ?Hsp1, ?He1, ?Hsc1, ?Hh1, ?Hg1;
      try assumption; lia.
Qed.

Lemma Inv_collectible_collisions s :
  Inv s -> Inv (collectible_collisions s).
Proof.
  intros H. unfold collectible_collisions.
  destruct (introComplete s && negb (gameOver s)) eqn:Hgo; [|exact H].
  apply andb_prop in Hgo. destruct Hgo as [Hi _].
  apply (forEach_inv_elem collectibles collect
           (fun st => Inv st /\ introComplete st = true)); [|auto].
  intros c st Hin ((Hsc & Hco & _) & Hist).
  assert (Hi' : introComplete (collect c st) = true).
  { destruct (beside_collects_fields _ _ (collect_beside c st))
      as (_ & _ & -> & _). exact Hist. }
  split; [|exact Hi']. split; [apply scene_ok_collect, Hsc|].
  split; [apply counters_ok_collect; [apply Hsc|exact Hin|exact Hco]|].
  rewrite Hi'. discriminate.
Qed.

(** ** The enemy collision loop *)

Lemma scene_ok_game_over s : scene_ok s -> scene_ok (game_over s).
Proof.
  intros H. unfold game_over.
  apply (scene_ok_same (hide_all (set_gameOver true s)));
    [|reflexivity..].
  apply scene_ok_hide_all. apply (scene_ok_same s); [exact H|reflexivity..].
Qed.

Lemma hit_step e s :
  scene_ok s -> counters_ok s ->
  (gameOver s = true -> hidden (player s) s) ->
  scene_ok (hit e s) /\ counters_ok (hit e s)
  /\ (gameOver (hit e s) = true -> hidden (player (hit e s)) (hit e s)).
Proof.
  intros Hsc Hco Hhid.
  destruct (beside_hits_fields _ _ (hit_beside e s))
    as (Hp & He & Hc & Hscore & Hr & Hsp & _).
  revert Hp He Hc Hscore Hr Hsp. unfold hit.
  destruct (touches e GAME_CONSTANTS.ENEMY_SIZE s) eqn:Ht; [|auto].
  destruct (gameOver s) eqn:Hg.
  { rewrite touches_player_hidden in Ht by auto. discriminate. }
  cbv zeta.
  remember (call playDamageSound
              (set_health (health s - GAME_CONSTANTS.DAMAGE_PER_ENEMY) s))
    as s1 eqn:E1.
  assert (Hsc1 : scene_ok s1)
    by (subst s1; apply (scene_ok_same s); [exact Hsc|reflexivity..]).
  assert (Hh1 : health s1 = (health s - GAME_CONSTANTS.DAMAGE_PER_ENEMY)%Z)
    by (subst s1; reflexivity).
  assert (Hg1 : gameOver s1 = false) by (subst s1; exact Hg).
  assert (Hp1 : player s1 = player s) by (subst s1; reflexivity).
  clear E1.
  destruct Hco as [Cr Csp Cen Cco [Ch [z Hz]] Cov Csc].
  unfold GAME_CONSTANTS.DAMAGE_PER_ENEMY, GAME_CONSTANTS.MAX_HEALTH in *.
  assert (Hpos : health s <> 0%Z)
    by (intros Hz0; apply Cov in Hz0; congruence).
  destruct (health s1 <=? 0)%Z eqn:Hle.
  - apply Z.leb_le in Hle.
    destruct (game_over_fields s1) as (Hg2 & Hh2 & _).
    pose proof (game_over_hidden s1) as (Hhid2 & _).
    pose proof (scene_ok_game_over s1 Hsc1) as Hsc2.
    remember (game_over s1) as s2 eqn:E2. clear E2.
    intros Hp He Hc Hscore Hr Hsp.
    split; [exact Hsc2|]. split; [|intros _; exact Hhid2].
    constructor; unfold GAME_CONSTANTS.DAMAGE_PER_ENEMY,
      GAME_CONSTANTS.MAX_HEALTH;
      rewrite ?He, ?Hc, ?Hscore, ?Hr, ?Hsp, ?Hh2, ?Hg2, ?Hh1;
      try assumption.
    + split; [lia|]. exists (z - 1)%Z. lia.
    + split; [lia|reflexivity].
  - apply Z.leb_gt in Hle.
    intros Hp He Hc Hscore Hr Hsp.
    split; [exact Hsc1|]. split; [|rewrite Hg1; discriminate].
    constructor; unfold GAME_CONSTANTS.DAMAGE_PER_ENEMY,
      GAME_CONSTANTS.MAX_HEALTH;
      rewrite ?He, ?Hc, ?Hscore, ?Hr, ?Hsp, ?Hh1, ?Hg1;
      try assumption.
    + split; [lia|]. exists (z - 1)%Z. lia.
    + split; [discriminate|lia].
Qed.

Lemma Inv_enemy_collisions s : Inv s -> Inv (enemy_collisions s).
Proof.
  intros H. unfold enemy_collisions.
  destruct (introComplete s && negb (gameOver s)) eqn:Hgo; [|exact H].
  apply andb_prop in Hgo. destruct Hgo as [Hi Hg].
  apply negb_true_iff in Hg.
  assert (Hloop :
    (fun st => scene_ok st /\ counters_ok st
               /\ (gameOver st = true -> hidden (player st) st)
               /\ introComplete st = true) (forEach enemies hit s)).
  { apply forEach_inv.
    - intros e st (Hsc & Hco & Hhid & Hist).
      destruct (hit_step e st Hsc Hco Hhid) as (A & B & C).
      destruct (beside_hits_fields _ _ (hit_beside e st))
        as (_ & _ & _ & _ & _ & _ & Hi' & _).
      rewrite Hi'. auto.
    - destruct H as (Hsc & Hco & _).
      split; [exact Hsc|]. split; [exact Hco|]. split; [|exact Hi].
      rewrite Hg. discriminate. }
  destruct Hloop as (A & B & _ & D).
  split; [exact A|]. split; [exact B|]. rewrite D. discriminate.
Qed.

(** ** [update], [startActualGame], [returnToStartScreen], [create] *)

Lemma Inv_update k s : Inv s -> Inv (update k s).
Proof.
  intros H. unfold update.
  destruct (escDown k && negb (escapePressed s));
    [apply (Inv_same s); auto|].
  cbv zeta.
  change (if negb (escDown k) then set_escapePressed false s else s)
    with (after_escape k s).
  apply (Inv_after_escape k) in H.
  remember (after_escape k s) as a eqn:Ea. clear Ea.
  destruct (gameOver a); [exact H|].
  apply (Inv_steered k) in H.
  remember (clamp_player (move_player k a)) as b eqn:Eb. clear Eb.
  destruct (spaceDown k && _); [exact H|].
  apply Inv_enemy_collisions, Inv_collectible_collisions, Inv_move_enemies, H.
Qed.

Lemma counters_ok_session s s' :
  counters_ok s -> session s' = session s -> counters_ok s'.
Proof.
  intros H Hs.
  destruct (session_fields _ _ Hs)
    as (Hp & He & Hc & Hsc & Hh & Hr & Hsp & Hi & Hg & _).
  apply (counters_ok_same s); auto.
Qed.

Lemma Inv_startActualGame s : Inv s -> Inv (startActualGame s).
Proof.
  intros (Hsc & Hco & _). unfold startActualGame. cbv zeta.
  split; [|split; [|discriminate]].
  - match goal with |- scene_ok (set_introComplete _ (call _ ?st)) =>
      apply (scene_ok_same st); [|reflexivity..] end.
    apply scene_ok_group_setVisible, scene_ok_group_setVisible,
      scene_ok_setVisible.
    apply (scene_ok_same s); [exact Hsc|reflexivity..].
  - match goal with |- counters_ok (set_introComplete _ (call _ ?st)) =>
      apply (counters_ok_same st); [|reflexivity..] end.
    match goal with |- counters_ok (group_setVisible _ _ ?st) =>
      apply (counters_ok_session st); [|apply group_setVisible_session] end.
    match goal with |- counters_ok (group_setVisible _ _ ?st) =>
      apply (counters_ok_session st); [|apply group_setVisible_session] end.
    apply (counters_ok_same s); [exact Hco|reflexivity..].
Qed.

Lemma spriteKey_not_player t : spriteKey t <> key_player.
Proof. destruct t; discriminate. Qed.

Lemma spriteKey_not_collectible t : spriteKey t <> key_collectible.
Proof. destruct t; discriminate. Qed.

Lemma scene_ok_clear_enemies s : scene_ok s -> scene_ok (clear_enemies s).
Proof.
  intros [[] Hok Hpl Hen Hco].
  assert (Hlk : forall id, sprites (clear_enemies s) !! id
                = if decide (id ∈ enemies s) then None else sprites s !! id)
    by (intros id; apply destroy_all_lookup).
  assert (Hkeep : forall id a, sprites s !! id = Some a ->
            (forall t, key a <> spriteKey t) ->
            sprites (clear_enemies s) !! id = Some a).
  { intros id a Ha Hk. rewrite Hlk.
    destruct (decide (id ∈ enemies s)) as [Hin|]; [|exact Ha].
    destruct (Hen id Hin) as (b & Hb & t & Hkb).
    exfalso. apply (Hk t). congruence. }
  constructor; [constructor|..]; try assumption.
  - intros id [a Ha]. rewrite Hlk in Ha.
    destruct (decide _); [discriminate|]. apply wf_sprites0. eauto.
  - intros id []%elem_of_nil.
  - apply NoDup_nil. exact I.
  - intros id a Ha. rewrite Hlk in Ha.
    destruct (decide _); [discriminate|]. apply (Hok id a Ha).
  - destruct Hpl as (a & Ha & Hk). exists a. split; [|exact Hk].
    apply Hkeep; [exact Ha|]. intros t. rewrite Hk.
    apply not_eq_sym, spriteKey_not_player.
  - intros id []%elem_of_nil.
  - intros c Hin. destruct (Hco c Hin) as (a & Ha & Hk).
    exists a. split; [|exact Hk].
    apply Hkeep; [exact Ha|]. intros t. rewrite Hk.
    apply not_eq_sym, spriteKey_not_collectible.
Qed.

Lemma scene_ok_clear_collectibles s :
  scene_ok s -> scene_ok (clear_collectibles s).
Proof.
  intros [[] Hok Hpl Hen Hco].
  assert (Hlk : forall id, sprites (clear_collectibles s) !! id
                = if decide (id ∈ collectibles s) then None
                  else sprites s !! id)
    by (intros id; apply destroy_all_lookup).
  assert (Hkeep : forall id a, sprites s !! id = Some a ->
            key a <> key_collectible ->
            sprites (clear_collectibles s) !! id = Some a).
  { intros id a Ha Hk. rewrite Hlk.
    destruct (decide (id ∈ collectibles s)) as [Hin|]; [|exact Ha].
    destruct (Hco id Hin) as (b & Hb & Hkb).
    exfalso. apply Hk. congruence. }
  constructor; [constructor|..]; try assumption.
  - intros id [a Ha]. rewrite Hlk in Ha.
    destruct (decide _); [discriminate|]. apply wf_sprites0. eauto.
  - intros id []%elem_of_nil.
  - apply NoDup_nil. exact I.
  - intros id a Ha. rewrite Hlk in Ha.
    destruct (decide _); [discriminate|]. apply (Hok id a Ha).
  - destruct Hpl as (a & Ha & Hk). exists a. split; [|exact Hk].
    apply Hkeep; [exact Ha|]. rewrite Hk. discriminate.
  - intros e Hin. destruct (Hen e Hin) as (a & Ha & t & Hk).
    exists a. split; [|eauto].
    apply Hkeep; [exact Ha|]. rewrite Hk. apply spriteKey_not_collectible.
  - intros id []%elem_of_nil.
Qed.

Lemma scene_ok_call c s : scene_ok s -> scene_ok (call c s).
Proof. intros H. apply (scene_ok_same s); [exact H|reflexivity..]. Qed.

Lemma scene_ok_returnToStartScreen s :
  scene_ok s -> scene_ok (returnToStartScreen s).
Proof.
  intros H. rewrite returnToStartScreen_stages.
  apply scene_ok_call.
  apply (iter_inv scene_ok (spawn_initial_collectible rnd));
    [apply scene_ok_spawn_initial_collectible|].
  apply scene_ok_clear_collectibles.
  apply (iter_inv scene_ok (spawn_initial_enemy rnd));
    [apply scene_ok_spawn_initial_enemy|].
  apply scene_ok_clear_enemies, scene_ok_hide_all.
  apply (scene_ok_same s); [exact H|reflexivity..].
Qed.

Lemma Inv_returnToStartScreen s : Inv s -> Inv (returnToStartScreen s).
Proof.
  intros (Hsc & _ & _).
  pose proof (scene_ok_returnToStartScreen s Hsc) as Hsc'.
  pose proof (scene_wf _ Hsc) as Hwf.
  destruct (returnToStartScreen_canonical s Hwf)
    as (Hscore & Hh & Hr & Hsp & Hi & Hg & He & _ & Hc & _ & Hhid).
  remember (returnToStartScreen s) as r eqn:Er. clear Er.
  split; [exact Hsc'|]. split; [|intros _; exact Hhid].
  unfold GAME_CONSTANTS.SCORE_PER_COLLECTIBLE, GAME_CONSTANTS.ENEMY_SPEED,
    GAME_CONSTANTS.ENEMY_COUNT, GAME_CONSTANTS.COLLECTIBLE_COUNT,
    GAME_CONSTANTS.MAX_HEALTH, GAME_CONSTANTS.DAMAGE_PER_ENEMY in *.
  constructor; unfold GAME_CONSTANTS.SCORE_PER_COLLECTIBLE,
    GAME_CONSTANTS.ENEMY_SPEED, GAME_CONSTANTS.ENEMY_COUNT,
    GAME_CONSTANTS.COLLECTIBLE_COUNT, GAME_CONSTANTS.MAX_HEALTH,
    GAME_CONSTANTS.DAMAGE_PER_ENEMY;
    rewrite ?Hscore, ?Hh, ?Hr, ?Hsp, ?Hg, ?He, ?Hc; try lia.
  all: try (split; [lia|exists 10%Z; reflexivity]).
  all: try (split; discriminate).
Qed.

Lemma create_stages :
  create rnd
  = hide_all
      (call showTitleScreen
         (Nat.iter GAME_CONSTANTS.COLLECTIBLE_COUNT
            (spawn_initial_collectible rnd)
            (Nat.iter GAME_CONSTANTS.ENEMY_COUNT (spawn_initial_enemy rnd)
               scene_created))).
Proof. reflexivity. Qed.

Lemma scene_ok_created : scene_ok scene_created.
Proof.
  assert (Hlk : forall id a, sprites scene_created !! id = Some a ->
            id = 0%nat
            /\ a = mkSprite (inject_Z GAME_CONSTANTS.WIDTH / 2)%Q
                     (inject_Z GAME_CONSTANTS.HEIGHT / 2)%Q true key_player
                     None).
  { intros id a. unfold scene_created. cbn [sprites].
    destruct (decide (0%nat = id)) as [<-|Hne].
    - rewrite lookup_insert_eq. intros [= <-]. auto.
    - rewrite lookup_insert_ne by exact Hne. rewrite lookup_empty.
      discriminate. }
  constructor; [constructor|..].
  - intros id [a Ha]. destruct (Hlk id a Ha) as (-> & _). cbn. lia.
  - cbn. lia.
  - intros id []%elem_of_nil.
  - intros id []%elem_of_nil.
  - apply NoDup_nil. exact I.
  - apply NoDup_nil. exact I.
  - intros id a Ha. destruct (Hlk id a Ha) as (_ & ->).
    split; [|left; reflexivity].
    unfold in_bounds. cbn [x y].
    repeat split; vm_compute; discriminate.
  - eexists. split; [apply lookup_insert_eq|reflexivity].
  - intros id []%elem_of_nil.
  - intros id []%elem_of_nil.
Qed.

Lemma Inv_create : Inv (create rnd).
Proof.
  rewrite create_stages.
  pose proof (iter_inv scene_ok (spawn_initial_enemy rnd)
                GAME_CONSTANTS.ENEMY_COUNT scene_created
                scene_ok_spawn_initial_enemy scene_ok_created) as Hsc5.
  destruct (spawn_initial_enemy_iter GAME_CONSTANTS.ENEMY_COUNT scene_created)
    as (Hn5 & Hb5 & Hc5 & _ & _ & He5).
  specialize (He5 (nil_below _ _ eq_refl)).
  remember (Nat.iter GAME_CONSTANTS.ENEMY_COUNT (spawn_initial_enemy rnd)
              scene_created) as s5 eqn:E5. clear E5.
  pose proof (iter_inv scene_ok (spawn_initial_collectible rnd)
                GAME_CONSTANTS.COLLECTIBLE_COUNT s5
                scene_ok_spawn_initial_collectible Hsc5) as Hsc15.
  destruct (spawn_initial_collectible_iter GAME_CONSTANTS.COLLECTIBLE_COUNT s5)
    as (Hn15 & Hb15 & He15 & _ & _ & Hc15).
  assert (Hc15' := Hc15 (wf_collectibles _ (scene_wf _ Hsc5))). clear Hc15.
  remember (Nat.iter GAME_CONSTANTS.COLLECTIBLE_COUNT
              (spawn_initial_collectible rnd) s5) as s15 eqn:E15. clear E15.
  unfold beside_spawns in Hb5, Hb15.
  injection Hb5 as Hp5 Hscore5 Hh5 Hr5 Hsp5 Hi5 Hg5 _.
  injection Hb15 as Hp15 Hscore15 Hh15 Hr15 Hsp15 Hi15 Hg15 _.
  cbn [scene_created player score health round enemySpeed introComplete
       gameOver enemies collectibles nextId] in *.
  destruct (session_fields _ _ (hide_all_session (call showTitleScreen s15)))
    as (Hp & He & Hc & Hscore & Hh & Hr & Hsp & Hi & Hg & _).
  pose proof (hide_all_hidden (call showTitleScreen s15)) as Hhid.
  assert (Hsc : scene_ok (hide_all (call showTitleScreen s15))).
  { apply scene_ok_hide_all.
    apply (scene_ok_same s15); [exact Hsc15|reflexivity..]. }
  remember (hide_all (call showTitleScreen s15)) as s16 eqn:E16. clear E16.
  cbn [call player score health round enemySpeed introComplete
       gameOver enemies collectibles] in *.
  split; [exact Hsc|]. split; [|intros _; exact Hhid].
  unfold GAME_CONSTANTS.SCORE_PER_COLLECTIBLE, GAME_CONSTANTS.ENEMY_SPEED,
    GAME_CONSTANTS.ENEMY_COUNT, GAME_CONSTANTS.COLLECTIBLE_COUNT,
    GAME_CONSTANTS.MAX_HEALTH, GAME_CONSTANTS.DAMAGE_PER_ENEMY in *.
  constructor; unfold GAME_CONSTANTS.SCORE_PER_COLLECTIBLE,
    GAME_CONSTANTS.ENEMY_SPEED, GAME_CONSTANTS.ENEMY_COUNT,
    GAME_CONSTANTS.COLLECTIBLE_COUNT, GAME_CONSTANTS.MAX_HEALTH,
    GAME_CONSTANTS.DAMAGE_PER_ENEMY;
    rewrite ?Hscore, ?Hh, ?Hr, ?Hsp, ?Hg, ?He, ?Hc, ?Hscore15, ?Hh15, ?Hr15,
      ?Hsp15, ?Hg15, ?He15, ?Hc15', ?Hscore5, ?Hh5, ?Hr5, ?Hsp5, ?Hg5, ?He5,
      ?Hc5, ?length_app, ?length_seq; cbn [length app]; try lia.
  all: try (split; [lia|exists 10%Z; reflexivity]).
  all: try (split; discriminate).
Qed.

Lemma Inv_step s ev : Inv s -> Inv (step rnd cosTo sinTo s ev).
Proof.
  intros H. destruct ev; cbn [step].
  - apply Inv_update, H.
  - apply Inv_startActualGame, H.
  - apply Inv_returnToStartScreen, H.
Qed.

Lemma Inv_play evs : Inv (play rnd cosTo sinTo evs).
Proof.
  unfold play. generalize Inv_create. generalize (create rnd).
  induction evs as [|ev evs IH]; intros s H; [exact H|].
  cbn [fold_left]. apply IH, Inv_step, H.
Qed.

Lemma spriteKey_inj t t' : spriteKey t = spriteKey t' -> t = t'.
Proof. destruct t, t'; (reflexivity || discriminate). Qed.

(** * Sessions: the properties *)

(** X1: at every moment of a session, whatever was played, the health is a
    multiple of the damage of one hit between 0 and the maximum, and the
    game is over exactly when the health is 0; in particular the health
    never goes below 0. *)
Theorem session_health_and_game_over evs :
  let s := play rnd cosTo sinTo evs in
  (0 <= health s <= GAME_CONSTANTS.MAX_HEALTH)%Z
  /\ (GAME_CONSTANTS.DAMAGE_PER_ENEMY | health s)%Z
  /\ (gameOver s = true <-> health s = 0%Z).
Proof.
  destruct (Inv_play evs) as (_ & [] & _). cbv zeta. tauto.
Qed.

(** X2: at every moment of a session the score is the ledger of what was
    collected since the last return to the start screen: ten points for
    each of the ten collectibles of every round completed, and ten for each
    collectible missing from the group now. *)
Theorem session_score_ledger evs :
  let s := play rnd cosTo sinTo evs in
  score s
  = (GAME_CONSTANTS.SCORE_PER_COLLECTIBLE
     * (Z.of_nat GAME_CONSTANTS.COLLECTIBLE_COUNT * (round s - 1)
        + (Z.of_nat GAME_CONSTANTS.COLLECTIBLE_COUNT
           - Z.of_nat (length (collectibles s)))))%Z.
Proof.
  destruct (Inv_play evs) as (_ & [] & _). cbv zeta. assumption.
Qed.

(** X3: at every moment of a session the round is at least 1, the enemy
    speed is the initial speed plus one per round completed, and the enemy
    group holds the initial five enemies plus one per round completed: the
    test [round >= 2] that guards the new enemy of a round never fails. *)
Theorem session_difficulty evs :
  let s := play rnd cosTo sinTo evs in
  (1 <= round s)%Z
  /\ enemySpeed s = (GAME_CONSTANTS.ENEMY_SPEED + (round s - 1))%Z
  /\ Z.of_nat (length (enemies s))
     = (Z.of_nat GAME_CONSTANTS.ENEMY_COUNT + (round s - 1))%Z.
Proof.
  destruct (Inv_play evs) as (_ & [] & _). cbv zeta.
  split; [assumption|]. split; lia.
Qed.

(** X4: between two events of a session the collectible group is never
    empty and never holds more than ten collectibles. *)
Theorem session_collectibles_never_empty evs :
  let s := play rnd cosTo sinTo evs in
  (1 <= length (collectibles s) <= GAME_CONSTANTS.COLLECTIBLE_COUNT)%nat.
Proof.
  destruct (Inv_play evs) as (_ & [] & _). cbv zeta. assumption.
Qed.

(** X5: at every moment of a session every game sprite of the display
    list (player, enemy or collectible), shown or hidden, in a group or
    not, is within the bounds the clamp of [update] uses. *)
Theorem session_sprites_in_bounds evs id sp :
  sprites (play rnd cosTo sinTo evs) !! id = Some sp -> in_bounds sp.
Proof.
  intros Hsp. destruct (Inv_play evs) as ([_ Hok _ _ _] & _).
  apply (Hok id sp Hsp).
Qed.

(** X6: at every moment of a session the groups and the display list fit
    together: the player sprite exists and is in neither group, every child
    of a group exists, no child is in both groups or twice in one, and
    every identity in use is below the next fresh one. *)
Theorem session_scene_integrity evs :
  let s := play rnd cosTo sinTo evs in
  wf s
  /\ (exists sp, sprites s !! player s = Some sp /\ key sp = key_player)
  /\ (player s ∉ enemies s) /\ (player s ∉ collectibles s)
  /\ (forall e, e ∈ enemies s ->
        (e ∉ collectibles s)
        /\ exists sp t, sprites s !! e = Some sp /\ key sp = spriteKey t)
  /\ (forall c, c ∈ collectibles s ->
        exists sp, sprites s !! c = Some sp /\ key sp = key_collectible).
Proof.
  destruct (Inv_play evs) as ([Hwf Hok (pl & Hpl & Hkp) Hen Hco] & _).
  cbv zeta. split; [exact Hwf|]. split; [eauto|].
  split; [|split; [|split]].
  - intros Hin. destruct (Hen _ Hin) as (sp & Hsp & t & Hk).
    apply (spriteKey_not_player t). congruence.
  - intros Hin. destruct (Hco _ Hin) as (sp & Hsp & Hk). congruence.
  - intros e Hin. destruct (Hen _ Hin) as (sp & Hsp & t & Hk).
    split; [|eauto]. intros Hin'. destruct (Hco _ Hin') as (sp' & Hsp' & Hk').
    apply (spriteKey_not_collectible t). congruence.
  - exact Hco.
Qed.

(** X7: at every moment of a session every enemy of the group carries its
    three properties: a type that its texture shows, a move counter between
    0 and 60, and a facing among the four directions. *)
Theorem session_enemy_properties evs e :
  e ∈ enemies (play rnd cosTo sinTo evs) ->
  exists sp p,
    sprites (play rnd cosTo sinTo evs) !! e = Some sp
    /\ props sp = Some p
    /\ type p ∈ ENEMY_TYPES
    /\ key sp = spriteKey (type p)
    /\ (0 <= moveCounter p <= 60)%Z
    /\ (0 <= moveDirection p <= 3)%Z.
Proof.
  intros Hin. destruct (Inv_play evs) as ([_ Hok _ Hen _] & _).
  destruct (Hen e Hin) as (sp & Hsp & t & Hk).
  destruct (Hok e sp Hsp) as (_ & Hl). unfold ok_look in Hl.
  destruct (props sp) as [p|] eqn:Hp.
  - destruct Hl as (Hk' & Hc & Hd). exists sp, p.
    split; [exact Hsp|]. split; [exact Hp|].
    split; [|auto]. unfold ENEMY_TYPES.
    destruct (type p); rewrite !elem_of_cons; auto.
  - exfalso. destruct Hl as [Hl|Hl]; rewrite Hl in Hk.
    + apply (spriteKey_not_player t). auto.
    + apply (spriteKey_not_collectible t). auto.
Qed.

(** X8: as long as play has not started (after [create] and after every
    return to the start screen, until [startActualGame] runs) the player
    and every child of the two groups are hidden, whatever frames ran in
    between. *)
Theorem session_hidden_before_start evs :
  introComplete (play rnd cosTo sinTo evs) = false ->
  all_hidden (play rnd cosTo sinTo evs).
Proof.
  destruct (Inv_play evs) as (_ & _ & H). exact H.
Qed.

(** * The live array of the collectible loop *)

(** [splice] takes out the one entry of the child. *)
Lemma group_remove_at c l i :
  NoDup l -> l !! i = Some c -> group_remove c l = take i l ++ drop (S i) l.
Proof.
  revert i. induction l as [|a l IH]; intros i Hnd Hi; [discriminate|].
  apply NoDup_cons in Hnd. destruct Hnd as [Ha Hnd].
  cbn [group_remove]. destruct i as [|i].
  - injection Hi as ->. rewrite decide_True by reflexivity. reflexivity.
  - cbn in Hi. rewrite decide_False.
    + cbn [take drop app]. rewrite (IH i Hnd Hi). reflexivity.
    + intros ->. apply Ha. apply list_elem_of_lookup. eauto.
Qed.

Lemma group_remove_lookup_before c l i j :
  NoDup l -> l !! i = Some c -> (j < i)%nat ->
  group_remove c l !! j = l !! j.
Proof.
  intros Hnd Hi Hj. rewrite (group_remove_at c l i Hnd Hi).
  pose proof (lookup_lt_Some _ _ _ Hi) as Hlen.
  rewrite lookup_app_l by (rewrite length_take; lia).
  apply lookup_take_lt. exact Hj.
Qed.

Lemma group_remove_lookup_from c l i j :
  NoDup l -> l !! i = Some c -> (i <= j)%nat ->
  group_remove c l !! j = l !! S j.
Proof.
  intros Hnd Hi Hj. rewrite (group_remove_at c l i Hnd Hi).
  pose proof (lookup_lt_Some _ _ _ Hi) as Hlen.
  rewrite lookup_app_r by (rewrite length_take; lia).
  rewrite length_take, lookup_drop. f_equal. lia.
Qed.

(** Once the loop is past an index, the child at that index stays where it
    is until the end of the loop. *)
Lemma collect_loop_keeps_passed n k s j d :
  NoDup (collectibles s) -> (j < k)%nat -> collectibles s !! j = Some d ->
  collectibles (forEach_from n k collectibles collect s) !! j = Some d
  /\ beside_rounds (forEach_from n k collectibles collect s)
     = beside_rounds s.
Proof.
  revert k s. induction n as [|n IH]; intros k s Hnd Hj Hd; [auto|].
  rewrite forEach_from_S.
  destruct (collectibles s !! k) as [c|] eqn:Hk; [|apply IH; auto; lia].
  assert (Hstep : NoDup (collectibles (collect c s))
                  /\ collectibles (collect c s) !! j = Some d
                  /\ beside_rounds (collect c s) = beside_rounds s).
  { destruct (touches c GAME_CONSTANTS.COLLECTIBLE_SIZE s) eqn:Ht;
      [|rewrite collect_not_touching by exact Ht; auto].
    rewrite collect_touching by exact Ht.
    destruct (collected_fields c s) as (_ & _ & _ & _ & Hc1 & _).
    pose proof (collected_beside_rounds c s) as Hb1.
    remember (collected c s) as s1 eqn:E1. clear E1.
    rewrite <- Hc1.
    assert (Hd1 : collectibles s1 !! j = Some d).
    { rewrite Hc1, (group_remove_lookup_before c _ k); auto. }
    pose proof (lookup_lt_Some _ _ _ Hd1) as Hlen.
    destruct (length (collectibles s1) =? 0)%nat eqn:Hz;
      [apply Nat.eqb_eq in Hz; lia|].
    split; [rewrite Hc1; apply NoDup_group_remove, Hnd|]. auto. }
  destruct Hstep as (Hnd' & Hd' & Hb').
  destruct (IH (S k) (collect c s) Hnd' ltac:(lia) Hd') as (A & B).
  split; [exact A|congruence].
Qed.

(** X9: the collectible loop walks the live array of the group, from which
    a collected child is spliced out: the child that followed the first
    collected one moves into its slot and is passed over in that frame,
    whether the player touches it or not; it is still in the group after
    the frame, and the frame starts no new round. *)
Theorem neighbour_of_collected_is_skipped k s i c d :
  wf s -> introComplete s = true -> gameOver s = false ->
  escDown k && negb (escapePressed s) = false -> spaceDown k = false ->
  collectibles (after_movement k s) !! i = Some c ->
  collectibles (after_movement k s) !! S i = Some d ->
  touches c GAME_CONSTANTS.COLLECTIBLE_SIZE (after_movement k s) = true ->
  (forall j c', (j < i)%nat ->
     collectibles (after_movement k s) !! j = Some c' ->
     touches c' GAME_CONSTANTS.COLLECTIBLE_SIZE (after_movement k s) = false) ->
  d <> c
  /\ collectibles (update k s) !! i = Some d
  /\ round (update k s) = round s.
Proof.
  intros Hwf Hin Hgo Hesc Hsp Hi Hd Ht Hno.
  rewrite (update_full k s Hesc Hgo) by (rewrite Hsp; reflexivity).
  destruct (session_fields _ _ (after_movement_session k s))
    as (_ & _ & Hc & _ & _ & Hr & _ & Hic & Hgc & _).
  remember (after_movement k s) as m eqn:Em. clear Em.
  assert (Hnd : NoDup (collectibles m))
    by (rewrite Hc; apply (wf_collectibles_NoDup _ Hwf)).
  pose proof (lookup_lt_Some _ _ _ Hd) as Hlen.
  destruct (collected_fields c m) as (_ & _ & _ & _ & Hc1 & _).
  pose proof (collected_beside_rounds c m) as Hb1.
  assert (Hd1 : collectibles (collected c m) !! i = Some d).
  { rewrite Hc1, (group_remove_lookup_from c _ i i); auto. }
  assert (Hloop : collectible_collisions m
            = forEach_from (length (collectibles m) - S i) (S i)
                collectibles collect (collected c m)).
  { unfold collectible_collisions. rewrite Hic, Hgc, Hin, Hgo.
    cbn [negb andb]. unfold forEach.
    replace (length (collectibles m))
      with (i + S (length (collectibles m) - S i))%nat at 1 by lia.
    rewrite collect_loop_skip by (intros j c' Hj; apply Hno; lia).
    rewrite forEach_from_S. cbn [Nat.add]. rewrite Hi.
    rewrite collect_touching by exact Ht.
    pose proof (lookup_lt_Some _ _ _ Hd1) as Hlen1. rewrite Hc1 in Hlen1.
    destruct (length (group_remove c (collectibles m)) =? 0)%nat eqn:Hz;
      [apply Nat.eqb_eq in Hz; lia|].
    replace (i + 1)%nat with (S i) by lia. reflexivity. }
  remember (collected c m) as s1 eqn:E1. clear E1.
  destruct (collect_loop_keeps_passed (length (collectibles m) - S i) (S i)
              s1 i d) as (A & B); auto.
  { rewrite Hc1. apply NoDup_group_remove, Hnd. }
  rewrite <- Hloop in A, B.
  destruct (beside_hits_fields _ _
              (enemy_collisions_beside (collectible_collisions m)))
    as (_ & _ & Hc2 & _ & Hr2 & _).
  remember (collectible_collisions m) as s2 eqn:E2. clear E2 Hloop.
  rewrite Hc2, Hr2.
  split; [|split; [exact A|]].
  - intros ->. apply (NoDup_lookup _ _ _ _ Hnd Hi) in Hd. lia.
  - unfold beside_rounds in B, Hb1.
    injection B as B _ _ _ _ _. injection Hb1 as Hb1 _ _ _ _ _. congruence.
Qed.

(** * The escape key *)

Lemma latch_call c s :
  c <> delayedCall_returnToStartScreen -> c <> createBeep ->
  c <> playGameOverSound ->
  latch (call c s) = latch s.
Proof.
  intros H1 H2 H3. unfold latch. cbn [calls call escapePressed].
  rewrite !count_occ_app. cbn [count_occ].
  destruct (Call_eq_dec c delayedCall_returnToStartScreen); [contradiction|].
  destruct (Call_eq_dec c createBeep); [contradiction|].
  destruct (Call_eq_dec c playGameOverSound); [contradiction|].
  rewrite !Nat.add_0_r. reflexivity.
Qed.

(** The beep of the game-over block and the game-over sound cancel. *)
Lemma latch_game_over_calls s :
  latch (call playGameOverSound (call createBeep s)) = latch s.
Proof.
  unfold latch. cbn [calls call escapePressed].
  rewrite !count_occ_app. cbn [count_occ].
  repeat (destruct (Call_eq_dec _ _); try congruence).
  rewrite !Nat.add_0_r. apply f_equal2; [reflexivity|lia].
Qed.

Lemma latch_group_setVisible v ids s :
  latch (group_setVisible v ids s) = latch s.
Proof.
  unfold group_setVisible. revert s.
  induction ids as [|id ids IH]; intros s; [reflexivity|].
  cbn [fold_left]. rewrite IH. reflexivity.
Qed.

Lemma latch_hide_all s : latch (hide_all s) = latch s.
Proof. unfold hide_all. rewrite !latch_group_setVisible. reflexivity. Qed.

Lemma latch_move_player k s : latch (move_player k s) = latch s.
Proof.
  unfold move_player.
  destruct (leftDown k), (rightDown k), (upDown k), (downDown k); reflexivity.
Qed.

Lemma latch_move_enemy e s : latch (move_enemy e s) = latch s.
Proof.
  unfold move_enemy, move_by_type, patrol_turn, Between.
  destruct (sprites s !! e) as [sp|]; [|reflexivity].
  destruct (props sp) as [p|]; [|reflexivity].
  destruct (type p); rsimpl; try reflexivity.
  - destruct (sprites s !! player s) as [pl|]; [|reflexivity].
    destruct (visible pl); reflexivity.
  - destruct (60 <? moveCounter p + 1)%Z; reflexivity.
Qed.

Lemma latch_spawn_round_enemy st : latch (spawn_round_enemy rnd st) = latch st.
Proof. rewrite spawn_round_enemy_eq. reflexivity. Qed.

Lemma latch_respawn_iter n st :
  latch (Nat.iter n (respawn_collectible rnd) st) = latch st.
Proof.
  apply (iter_beside latch (respawn_collectible rnd)).
  intros a. rewrite respawn_collectible_eq. reflexivity.
Qed.

Lemma latch_new_round s : latch (new_round s) = latch s.
Proof.
  unfold new_round. cbv zeta.
  match goal with |- latch (if ?b then _ else _) = _ => destruct b end;
    rewrite ?latch_spawn_round_enemy, latch_respawn_iter;
    rewrite latch_call by discriminate; reflexivity.
Qed.

Lemma latch_collect c s : latch (collect c s) = latch s.
Proof.
  destruct (touches c GAME_CONSTANTS.COLLECTIBLE_SIZE s) eqn:Ht;
    [|rewrite collect_not_touching by exact Ht; reflexivity].
  rewrite collect_touching by exact Ht.
  destruct (_ =? _)%nat; rewrite ?latch_new_round; unfold collected;
    rewrite latch_call by discriminate; reflexivity.
Qed.

Lemma latch_hit e s : latch (hit e s) = latch s.
Proof.
  unfold hit. destruct (touches e GAME_CONSTANTS.ENEMY_SIZE s); [|reflexivity].
  cbv zeta. destruct (_ <=? _)%Z.
  - unfold game_over. rewrite latch_game_over_calls, latch_hide_all.
    change (latch (call playDamageSound
                     (set_health (health s - GAME_CONSTANTS.DAMAGE_PER_ENEMY) s))
            = latch s).
    rewrite latch_call by discriminate. reflexivity.
  - rewrite latch_call by discriminate. reflexivity.
Qed.

(** A frame that does not take the escape branch leaves the latch as the
    release test left it and schedules nothing. *)
Lemma update_rest_latch k s :
  escDown k && negb (escapePressed s) = false ->
  latch (update k s) = latch (after_escape k s).
Proof.
  intros Hesc. unfold update. rewrite Hesc. cbv zeta.
  change (if negb (escDown k) then set_escapePressed false s else s)
    with (after_escape k s).
  remember (after_escape k s) as a eqn:Ea. clear Ea.
  destruct (gameOver a); [reflexivity|].
  assert (Hb : latch (clamp_player (move_player k a)) = latch a)
    by (rewrite <- (latch_move_player k a); reflexivity).
  remember (clamp_player (move_player k a)) as b eqn:Eb. clear Eb.
  destruct (spaceDown k && _); [exact Hb|].
  rewrite <- Hb. clear Hb a.
  assert (H1 : latch (move_enemies b) = latch b).
  { unfold move_enemies.
    apply (forEach_inv enemies move_enemy (fun st => latch st = latch b));
      [|reflexivity].
    intros id st <-. apply latch_move_enemy. }
  remember (move_enemies b) as m eqn:Em. clear Em.
  assert (H2 : latch (collectible_collisions m) = latch m).
  { unfold collectible_collisions.
    destruct (introComplete m && negb (gameOver m)); [|reflexivity].
    apply (forEach_inv collectibles collect (fun st => latch st = latch m));
      [|reflexivity].
    intros id st <-. apply latch_collect. }
  remember (collectible_collisions m) as c eqn:Ec. clear Ec.
  assert (H3 : latch (enemy_collisions c) = latch c).
  { unfold enemy_collisions.
    destruct (introComplete c && negb (gameOver c)); [|reflexivity].
    apply (forEach_inv enemies hit (fun st => latch st = latch c));
      [|reflexivity].
    intros id st <-. apply latch_hit. }
  congruence.
Qed.

Lemma run_escape_held ks s :
  Forall (fun k => escDown k = true) ks -> escapePressed s = true ->
  latch (run ks s) = latch s.
Proof.
  unfold run. intros Hks. revert s.
  induction Hks as [|k ks Hk _ IH]; intros s Hs; [reflexivity|].
  cbn [fold_left].
  assert (Hu : latch (update k s) = latch s).
  { rewrite update_rest_latch by (rewrite Hk, Hs; reflexivity).
    unfold after_escape. rewrite Hk. reflexivity. }
  rewrite IH; [exact Hu|].
  unfold latch in Hu. injection Hu as Hu _ _. congruence.
Qed.

(** X10: the escape key is edge-triggered.  However many frames the key is
    held for, one press schedules exactly one return to the start screen
    and asks for exactly one beep of its own: every other beep [update]
    asks for in those frames is the one of a game-over block, which the
    game-over sound follows, and there is none when the game is already
    over.  A frame with the key up schedules no return, asks for no beep
    but that of a game-over block, and re-arms the latch. *)
Theorem escape_key_latch s :
  (forall ks, escapePressed s = false -> ks <> [] ->
     Forall (fun k => escDown k = true) ks ->
     escapePressed (run ks s) = true
     /\ count_calls delayedCall_returnToStartScreen (run ks s)
        = S (count_calls delayedCall_returnToStartScreen s)
     /\ (count_calls createBeep (run ks s)
         + count_calls playGameOverSound s
         = S (count_calls createBeep s)
           + count_calls playGameOverSound (run ks s))%nat
     /\ (gameOver s = true ->
         count_calls createBeep (run ks s) = S (count_calls createBeep s)))
  /\ (forall k, escDown k = false ->
        escapePressed (update k s) = false
        /\ count_calls delayedCall_returnToStartScreen (update k s)
           = count_calls delayedCall_returnToStartScreen s
        /\ (count_calls createBeep (update k s)
            + count_calls playGameOverSound s
            = count_calls createBeep s
              + count_calls playGameOverSound (update k s))%nat
        /\ (gameOver s = true ->
            count_calls createBeep (update k s) = count_calls createBeep s)).
Proof.
  split.
  - intros [|k ks] Hs Hne Hks; [contradiction|].
    apply Forall_cons in Hks. destruct Hks as [Hk Hks].
    assert (Hu : update k s
                 = call delayedCall_returnToStartScreen
                     (call createBeep (set_escapePressed true s))).
    { unfold update. rewrite Hk, Hs. reflexivity. }
    assert (Hover : gameOver s = true ->
              count_calls playGameOverSound (run (k :: ks) s)
              = count_calls playGameOverSound s).
    { intros Hgo. unfold run. cbn [fold_left].
      destruct (run_game_over ks (update k s)) as (_ & _ & _ & _ & Hc);
        [rewrite Hu; exact Hgo|].
      unfold run in Hc. rewrite Hc, Hu. unfold count_calls.
      cbn [calls call set_escapePressed].
      rewrite !count_occ_app. cbn. lia. }
    revert Hover. unfold run. cbn [fold_left].
    pose proof (run_escape_held ks (update k s) Hks) as Hl.
    unfold run in Hl. rewrite Hu in Hl |- *.
    specialize (Hl eq_refl).
    generalize dependent (fold_left (fun st k0 => update k0 st) ks
      (call delayedCall_returnToStartScreen
         (call createBeep (set_escapePressed true s)))).
    intros r Hl Hover.
    unfold latch in Hl. injection Hl as He Hd Hb.
    revert Hb Hover. unfold count_calls. rewrite He, Hd.
    cbn [calls call set_escapePressed escapePressed].
    rewrite !count_occ_app. cbn. intros Hb Hover.
    split; [reflexivity|]. split; [lia|]. split; [lia|].
    intros Hgo. specialize (Hover Hgo). lia.
  - intros k Hk.
    pose proof (update_rest_latch k s) as Hl. rewrite Hk in Hl.
    specialize (Hl eq_refl). unfold after_escape in Hl. rewrite Hk in Hl.
    assert (Hover : gameOver s = true ->
              count_calls playGameOverSound (update k s)
              = count_calls playGameOverSound s).
    { intros Hgo. destruct (run_game_over [k] s Hgo) as (_ & _ & _ & _ & Hc).
      exact Hc. }
    revert Hover.
    unfold latch in Hl. injection Hl as He Hd Hb.
    revert Hb. unfold count_calls. cbn [calls set_escapePressed].
    intros Hb Hover.
    split; [exact He|]. split; [exact Hd|]. split; [lia|].
    intros Hgo. specialize (Hover Hgo). lia.
Qed.

(** * The end of the game *)

(** C3: on a frame of active play that gets to the collision code (no
    fresh press of the escape key, spacebar not held), when the enemies
    touching the player as the enemy loop starts are enough for a hit to
    bring the health to zero or below, the game-over transition is made,
    and exactly once: [gameOver] is set, the game-over sound and the beep of
    the game-over block are asked for once each, the player and the
    children of both groups are hidden, the health is left where the fatal
    hit put it (above [-10] when it was positive before the frame, so no
    other touching enemy hits after it), and no later frame changes the
    score, the health or the round or makes the call again. *)
Theorem game_over_happens_once k s :
  introComplete s = true -> gameOver s = false ->
  escDown k && negb (escapePressed s) = false -> spaceDown k = false ->
  touching (enemies (collectible_collisions (after_movement k s)))
    (collectible_collisions (after_movement k s)) <> [] ->
  (health s
   <= GAME_CONSTANTS.DAMAGE_PER_ENEMY
      * Z.of_nat
          (length (touching
                     (enemies (collectible_collisions (after_movement k s)))
                     (collectible_collisions (after_movement k s)))))%Z ->
  gameOver (update k s) = true
  /\ count_calls playGameOverSound (update k s)
     = S (count_calls playGameOverSound s)
  /\ count_calls createBeep (update k s) = S (count_calls createBeep s)
  /\ (health (update k s) <= 0)%Z
  /\ ((0 < health s)%Z ->
      (- GAME_CONSTANTS.DAMAGE_PER_ENEMY < health (update k s))%Z)
  /\ all_hidden (update k s)
  /\ forall ks,
       score (run ks (update k s)) = score (update k s)
       /\ health (run ks (update k s)) = health (update k s)
       /\ round (run ks (update k s)) = round (update k s)
       /\ gameOver (run ks (update k s)) = true
       /\ count_calls playGameOverSound (run ks (update k s))
          = count_calls playGameOverSound (update k s).
Proof.
  intros Hin Hgo Hesc Hsp Hne Hh.
  assert (Hover : gameOver (update k s) = true).
  { rewrite (update_full k s Hesc Hgo) by (rewrite Hsp; reflexivity).
    destruct (session_fields _ _ (after_movement_session k s))
      as (_ & _ & _ & _ & Hh1 & _ & _ & Hi1 & Hg1 & _).
    destruct (beside_collects_fields _ _
                (collectible_collisions_beside (after_movement k s)))
      as (_ & Hh2 & Hi2 & Hg2 & _).
    revert Hne Hh Hh2 Hi2 Hg2.
    generalize (collectible_collisions (after_movement k s)).
    intros m Hne Hh Hh2 Hi2 Hg2.
    rewrite (enemy_collisions_fold m) by congruence.
    apply hit_loop_fatal; [exact Hne|]. rewrite Hh2, Hh1. exact Hh. }
  destruct (game_over_frame k s Hgo Hover) as (A & B & C & D & E).
  pose proof (update_rest_latch k s Hesc) as Hl.
  assert (Hca : calls (after_escape k s) = calls s)
    by (unfold after_escape; destruct (negb (escDown k)); reflexivity).
  revert Hover A B C D E Hl. generalize (update k s).
  intros r Hover A B C D E Hl.
  split; [exact Hover|]. split; [exact A|]. split.
  - unfold latch in Hl. injection Hl as _ _ Hb. rewrite Hca in Hb.
    unfold count_calls in *. lia.
  - split; [exact B|]. split; [exact C|]. split; [exact D|exact E].
Qed.

(** * The player *)

(** X11: in every frame that is not game over and does not take the escape
    branch, the player sprite ends the frame at the position the four arrow
    keys give, clamped to the bounds: five pixels per axis (a diagonal is
    not normalised), opposite keys cancelling each other; no later step of
    the frame (enemy movement, the two collision loops) moves it. *)
Theorem player_step k s pl :
  wf s -> player s ∉ enemies s ->
  escDown k && negb (escapePressed s) = false -> gameOver s = false ->
  sprites s !! player s = Some pl ->
  exists pl',
    sprites (update k s) !! player s = Some pl'
    /\ x pl'
       = Clamp (x (steer k pl)) (inject_Z GAME_CONSTANTS.PLAYER_SIZE)
           (inject_Z (GAME_CONSTANTS.WIDTH - GAME_CONSTANTS.PLAYER_SIZE))
    /\ y pl'
       = Clamp (y (steer k pl)) (inject_Z GAME_CONSTANTS.PLAYER_SIZE)
           (inject_Z (GAME_CONSTANTS.HEIGHT - GAME_CONSTANTS.PLAYER_SIZE))
    /\ (x (steer k pl)
        == x pl
           + inject_Z GAME_CONSTANTS.PLAYER_SPEED
             * ((if rightDown k then 1 else 0)
                - (if leftDown k then 1 else 0)))%Q
    /\ (y (steer k pl)
        == y pl
           + inject_Z GAME_CONSTANTS.PLAYER_SPEED
             * ((if downDown k then 1 else 0)
                - (if upDown k then 1 else 0)))%Q.
Proof.
  intros Hwf Hpe Hesc Hgo Hpl.
  assert (Hsteer : (x (steer k pl)
        == x pl
           + inject_Z GAME_CONSTANTS.PLAYER_SPEED
             * ((if rightDown k then 1 else 0)
                - (if leftDown k then 1 else 0)))%Q
    /\ (y (steer k pl)
        == y pl
           + inject_Z GAME_CONSTANTS.PLAYER_SPEED
             * ((if downDown k then 1 else 0)
                - (if upDown k then 1 else 0)))%Q).
  { unfold steer.
    destruct (leftDown k), (rightDown k), (upDown k), (downDown k);
      cbn [x y set_x set_y]; split; ring. }
  pose proof (steered_lookup k s) as Hst. rewrite Hpl in Hst.
  cbn [fmap option_fmap option_map] in Hst.
  assert (Hgoal : forall f,
            hides (Some (clamp_sprite (steer k pl))) (sprites f !! player s) ->
            exists pl',
              sprites f !! player s = Some pl'
              /\ x pl'
                 = Clamp (x (steer k pl))
                     (inject_Z GAME_CONSTANTS.PLAYER_SIZE)
                     (inject_Z (GAME_CONSTANTS.WIDTH
                                - GAME_CONSTANTS.PLAYER_SIZE))
              /\ y pl'
                 = Clamp (y (steer k pl))
                     (inject_Z GAME_CONSTANTS.PLAYER_SIZE)
                     (inject_Z (GAME_CONSTANTS.HEIGHT
                                - GAME_CONSTANTS.PLAYER_SIZE))).
  { intros f [Hf|Hf]; rewrite Hf; eexists; (split; [reflexivity|]);
      split; reflexivity. }
  assert (Hfin : forall f,
            hides (Some (clamp_sprite (steer k pl))) (sprites f !! player s) ->
            f = update k s ->
            exists pl',
              sprites (update k s) !! player s = Some pl'
              /\ x pl'
                 = Clamp (x (steer k pl))
                     (inject_Z GAME_CONSTANTS.PLAYER_SIZE)
                     (inject_Z (GAME_CONSTANTS.WIDTH
                                - GAME_CONSTANTS.PLAYER_SIZE))
              /\ y pl'
                 = Clamp (y (steer k pl))
                     (inject_Z GAME_CONSTANTS.PLAYER_SIZE)
                     (inject_Z (GAME_CONSTANTS.HEIGHT
                                - GAME_CONSTANTS.PLAYER_SIZE))
              /\ (x (steer k pl)
                  == x pl
                     + inject_Z GAME_CONSTANTS.PLAYER_SPEED
                       * ((if rightDown k then 1 else 0)
                          - (if leftDown k then 1 else 0)))%Q
              /\ (y (steer k pl)
                  == y pl
                     + inject_Z GAME_CONSTANTS.PLAYER_SPEED
                       * ((if downDown k then 1 else 0)
                          - (if upDown k then 1 else 0)))%Q).
  { intros f Hf ->. destruct (Hgoal _ Hf) as (pl' & A & B & C).
    exists pl'. tauto. }
  destruct (spaceDown k && introComplete s) eqn:Hsp.
  - apply andb_prop in Hsp. destruct Hsp as [Hsp Hin].
    apply (Hfin (clamp_player (move_player k (after_escape k s))));
      [left; exact Hst|].
    symmetry. apply update_blocked; assumption.
  - apply (Hfin (enemy_collisions
                   (collectible_collisions (after_movement k s))));
      [|symmetry; apply update_full; assumption].
    destruct (session_fields _ _ (after_movement_session k s))
      as (Hp & He & _).
    pose proof (after_movement_nextId k s) as Hn.
    assert (Hm : sprites (after_movement k s) !! player s
                 = Some (clamp_sprite (steer k pl))).
    { unfold after_movement. fold (after_escape k s).
      destruct (move_enemies_lookup
                  (clamp_player (move_player k (after_escape k s)))
                  (player s)) as (_ & Hout & _).
      rewrite Hout; [exact Hst|].
      destruct (session_fields _ _
                  (clamp_player_session (move_player k (after_escape k s))))
        as (_ & -> & _).
      destruct (session_fields _ _ (move_player_session k (after_escape k s)))
        as (_ & -> & _).
      destruct (session_fields _ _ (after_escape_session k s))
        as (_ & -> & _).
      exact Hpe. }
    pose proof (collisions_evolve (after_movement k s)) as Hev.
    remember (after_movement k s) as m eqn:Em. clear Em.
    pose proof (ev_old _ _ Hev (player s)) as Hold.
    rewrite Hm in Hold. apply Hold. left. rewrite Hn.
    apply (wf_player _ Hwf).
Qed.

(** * [create] *)

Lemma initial_enemy_hidden sp : initial_enemy sp -> initial_enemy (set_visible false sp).
Proof. intros (_ & Hk & Hp). split; [reflexivity|]. split; assumption. Qed.

Lemma initial_collectible_hidden sp :
  initial_collectible sp -> initial_collectible (set_visible false sp).
Proof. intros (_ & Hk & Hp). split; [reflexivity|]. split; assumption. Qed.

Lemma hide_all_call_lookup c s id :
  sprites (hide_all (call c s)) !! id
  = if decide (id = player s \/ id ∈ enemies s \/ id ∈ collectibles s)
    then set_visible false <$> sprites s !! id
    else sprites s !! id.
Proof. exact (hide_all_lookup (call c s) id). Qed.

(** The two population loops and the final hiding, from any scene with
    empty groups. *)
Lemma populate_spec s0 :
  enemies s0 = [] -> collectibles s0 = [] -> (player s0 < nextId s0)%nat ->
  let s := hide_all
             (call showTitleScreen
                (Nat.iter GAME_CONSTANTS.COLLECTIBLE_COUNT
                   (spawn_initial_collectible rnd)
                   (Nat.iter GAME_CONSTANTS.ENEMY_COUNT
                      (spawn_initial_enemy rnd) s0))) in
  beside_spawns s
  = (player s0, score s0, health s0, round s0, enemySpeed s0,
     introComplete s0, gameOver s0, calls s0 ++ [showTitleScreen])
  /\ enemies s = seq (nextId s0) GAME_CONSTANTS.ENEMY_COUNT
  /\ collectibles s
     = seq (nextId s0 + GAME_CONSTANTS.ENEMY_COUNT)
         GAME_CONSTANTS.COLLECTIBLE_COUNT
  /\ nextId s
     = (nextId s0 + GAME_CONSTANTS.ENEMY_COUNT
        + GAME_CONSTANTS.COLLECTIBLE_COUNT)%nat
  /\ sprites s !! player s0 = set_visible false <$> sprites s0 !! player s0
  /\ (forall e, e ∈ enemies s ->
        exists sp, sprites s !! e = Some sp /\ initial_enemy sp)
  /\ (forall c, c ∈ collectibles s ->
        exists sp, sprites s !! c = Some sp /\ initial_collectible sp).
Proof.
  intros He0 Hc0 Hp0. cbv zeta.
  destruct (spawn_initial_enemy_iter GAME_CONSTANTS.ENEMY_COUNT s0)
    as (Hn5 & Hb5 & Hc5 & Hold5 & Hnew5 & He5).
  assert (He5' := He5 (nil_below _ _ He0)). clear He5.
  remember (Nat.iter GAME_CONSTANTS.ENEMY_COUNT (spawn_initial_enemy rnd) s0)
    as s5 eqn:E5. clear E5.
  destruct (spawn_initial_collectible_iter GAME_CONSTANTS.COLLECTIBLE_COUNT s5)
    as (Hn15 & Hb15 & He15 & Hold15 & Hnew15 & Hc15).
  assert (Hc15' := Hc15 (nil_below _ _ (eq_trans Hc5 Hc0))). clear Hc15.
  remember (Nat.iter GAME_CONSTANTS.COLLECTIBLE_COUNT
              (spawn_initial_collectible rnd) s5) as s15 eqn:E15. clear E15.
  unfold beside_spawns in Hb5, Hb15.
  injection Hb5 as Hp5 Hscore5 Hh5 Hr5 Hsp5 Hi5 Hg5 Hca5.
  injection Hb15 as Hp15 Hscore15 Hh15 Hr15 Hsp15 Hi15 Hg15 Hca15.
  rewrite He0 in He5'. rewrite Hc5, Hc0, Hn5 in Hc15'.
  cbn [app] in He5', Hc15'.
  rewrite Hn5 in Hn15, Hold15, Hnew15.
  assert (Hf : beside_spawns (hide_all (call showTitleScreen s15))
               = (player s15, score s15, health s15, round s15,
                  enemySpeed s15, introComplete s15, gameOver s15,
                  calls s15 ++ [showTitleScreen])
               /\ enemies (hide_all (call showTitleScreen s15)) = enemies s15
               /\ collectibles (hide_all (call showTitleScreen s15))
                  = collectibles s15
               /\ nextId (hide_all (call showTitleScreen s15)) = nextId s15).
  { destruct (session_fields _ _
                (hide_all_session (call showTitleScreen s15)))
      as (Hp & He & Hc & Hscore & Hh & Hr & Hsp & Hi & Hg & Hca).
    unfold beside_spawns. rewrite Hp, He, Hc, Hscore, Hh, Hr, Hsp, Hi, Hg, Hca.
    rewrite hide_all_nextId. repeat split. }
  destruct Hf as (Hb & He & Hc & Hn).
  rewrite Hb, He, Hc, Hn, He15, Hc15', Hn15.
  split; [congruence|]. split; [exact He5'|]. split; [reflexivity|].
  split; [reflexivity|]. split; [|split].
  - rewrite hide_all_call_lookup, decide_True by (left; congruence).
    rewrite Hold15 by lia. rewrite Hold5 by lia. reflexivity.
  - intros e Hin. rewrite hide_all_call_lookup.
    rewrite decide_True by (rewrite He15; auto).
    rewrite He5' in Hin. apply elem_of_seq in Hin.
    destruct (Hnew5 (e - nextId s0)%nat) as (sp & Hsp0 & Hlk0); [lia|].
    replace (nextId s0 + (e - nextId s0))%nat with e in Hlk0 by lia.
    rewrite Hold15 by lia.
    rewrite Hlk0. eexists. split; [reflexivity|].
    apply initial_enemy_hidden, Hsp0.
  - intros c Hin. rewrite hide_all_call_lookup.
    rewrite decide_True by (rewrite Hc15'; auto).
    apply elem_of_seq in Hin.
    destruct (Hnew15 (c - (nextId s0 + GAME_CONSTANTS.ENEMY_COUNT))%nat)
      as (sp & Hsp0 & Hlk0); [lia|].
    replace (nextId s0 + GAME_CONSTANTS.ENEMY_COUNT
             + (c - (nextId s0 + GAME_CONSTANTS.ENEMY_COUNT)))%nat
      with c in Hlk0 by lia.
    rewrite Hlk0. eexists. split; [reflexivity|].
    apply initial_collectible_hidden, Hsp0.
Qed.

Lemma create_spec :
  beside_spawns (create rnd)
  = (0%nat, 0%Z, GAME_CONSTANTS.MAX_HEALTH, 1%Z, GAME_CONSTANTS.ENEMY_SPEED,
     false, false, [showTitleScreen])
  /\ enemies (create rnd) = seq 1 GAME_CONSTANTS.ENEMY_COUNT
  /\ collectibles (create rnd)
     = seq (1 + GAME_CONSTANTS.ENEMY_COUNT) GAME_CONSTANTS.COLLECTIBLE_COUNT
  /\ nextId (create rnd)
     = (1 + GAME_CONSTANTS.ENEMY_COUNT + GAME_CONSTANTS.COLLECTIBLE_COUNT)%nat
  /\ sprites (create rnd) !! 0%nat
     = Some (mkSprite (inject_Z GAME_CONSTANTS.WIDTH / 2)%Q
               (inject_Z GAME_CONSTANTS.HEIGHT / 2)%Q false key_player None)
  /\ (forall e, e ∈ enemies (create rnd) ->
        exists sp, sprites (create rnd) !! e = Some sp /\ initial_enemy sp)
  /\ (forall c, c ∈ collectibles (create rnd) ->
        exists sp, sprites (create rnd) !! c = Some sp
                   /\ initial_collectible sp).
Proof.
  rewrite create_stages.
  destruct (populate_spec scene_created eq_refl eq_refl)
    as (Hb & He & Hc & Hn & Hpl & Hen & Hco); [cbn; lia|].
  split; [exact Hb|]. split; [exact He|]. split; [exact Hc|].
  split; [exact Hn|]. split; [|split; [exact Hen|exact Hco]].
  exact Hpl.
Qed.

(** X12: [create] builds the canonical start state, the one
    [returnToStartScreen] restores: zeroed counters, five hidden enemies of
    type [random] and ten hidden collectibles under the identities 1 to 15,
    the hidden player at the centre under the identity 0, and the title
    screen asked for once. *)
Theorem create_is_canonical :
  canonical (create rnd)
  /\ player (create rnd) = 0%nat
  /\ sprites (create rnd) !! 0%nat
     = Some (mkSprite (inject_Z GAME_CONSTANTS.WIDTH / 2)%Q
               (inject_Z GAME_CONSTANTS.HEIGHT / 2)%Q false key_player None)
  /\ enemies (create rnd) = seq 1 GAME_CONSTANTS.ENEMY_COUNT
  /\ collectibles (create rnd)
     = seq (1 + GAME_CONSTANTS.ENEMY_COUNT) GAME_CONSTANTS.COLLECTIBLE_COUNT
  /\ calls (create rnd) = [showTitleScreen].
Proof.
  destruct create_spec as (Hb & He & Hc & Hn & Hpl & Hen & Hco).
  destruct Inv_create as (_ & _ & Hhid).
  remember (create rnd) as s eqn:Es. clear Es.
  unfold beside_spawns in Hb.
  injection Hb as Hp Hscore Hh Hr Hsp Hi Hg Hca.
  split; [|auto].
  unfold canonical. rewrite Hscore, Hh, Hr, Hsp, Hi, Hg.
  repeat (split; [reflexivity|]).
  split; [rewrite He; apply length_seq|]. split; [exact Hen|].
  split; [rewrite Hc; apply length_seq|]. split; [exact Hco|].
  apply Hhid, Hi.
Qed.

(** * Sessions: who is on stage *)

Lemma stage_ok_moved s s' :
  stage_ok s -> inv_fields s' = inv_fields s ->
  (forall id, option_Forall2 moved (sprites s !! id) (sprites s' !! id)) ->
  stage_ok s'.
Proof.
  intros (H1 & H2) Hf Hm.
  destruct (inv_fields_eq _ _ Hf)
    as (Hn & Hp & He & Hc & Hr & Hsp & Hhe & Hg & Hscore & Hi).
  split.
  - rewrite Hi, Hg. intros Hit Hgf. specialize (H1 Hit Hgf).
    unfold player_visible in *. rewrite Hp.
    destruct (Hm (player s)) as [a b [_ Hv]|]; [|discriminate].
    rewrite Hv. exact H1.
  - rewrite Hi, He. intros Hif e Hin.
    destruct (H2 Hif e Hin) as (sp & Hsp0 & Hk).
    specialize (Hm e). rewrite Hsp0 in Hm.
    inversion Hm as [a b [[_ Hkb] _] E1 E2|]; subst.
    exists b. split; [reflexivity|congruence].
Qed.

Lemma steered_moved k s :
  inv_fields (clamp_player (move_player k s)) = inv_fields s
  /\ forall id, option_Forall2 moved (sprites s !! id)
                  (sprites (clamp_player (move_player k s)) !! id).
Proof.
  split.
  - apply session_inv_fields.
    + rewrite clamp_player_session. apply move_player_session.
    + unfold clamp_player, move_player.
      destruct (leftDown k), (rightDown k), (upDown k), (downDown k);
        reflexivity.
  - assert (Hs : sprites (clamp_player (move_player k s))
                 = alter (fun sp => clamp_sprite (steer k sp)) (player s)
                     (sprites s)).
    { unfold clamp_player. rsimpl. rewrite move_player_sprites.
      destruct (session_fields _ _ (move_player_session k s)) as (-> & _).
      apply alter_alter. }
    rewrite Hs. apply lookup_alter_Forall2; [apply moved_refl|].
    intros a _. destruct (steer_look k a) as (Hpr & Hk & Hv).
    apply (moved_clamp_after (steer k)); auto.
    unfold ok_look. rewrite Hpr, Hk. auto.
Qed.

Lemma move_enemy_moved e s :
  inv_fields (move_enemy e s) = inv_fields s
  /\ forall id, option_Forall2 moved (sprites s !! id)
                  (sprites (move_enemy e s) !! id).
Proof.
  destruct (move_enemy_alter_moved e s) as (g & Hs & Hg).
  destruct (move_enemy_alter e s) as (_ & _ & _ & Hn).
  split.
  - apply session_inv_fields; [apply move_enemy_session|exact Hn].
  - rewrite Hs. apply lookup_alter_Forall2; [apply moved_refl|exact Hg].
Qed.

Lemma stage_ok_same s s' :
  stage_ok s -> inv_fields s' = inv_fields s -> sprites s' = sprites s ->
  stage_ok s'.
Proof.
  intros H Hf Hs. apply (stage_ok_moved s); auto.
  intros id. rewrite Hs. destruct (sprites s !! id); constructor.
  apply moved_refl.
Qed.

Lemma collect_keeps_player c s :
  scene_ok s -> c ∈ collectibles s ->
  sprites (collect c s) !! player s = sprites s !! player s.
Proof.
  intros Hsc Hin.
  destruct (touches c GAME_CONSTANTS.COLLECTIBLE_SIZE s) eqn:Ht;
    [|rewrite collect_not_touching by exact Ht; reflexivity].
  rewrite collect_touching by exact Ht.
  assert (Hne : c <> player s).
  { destruct Hsc as [_ _ (pl & Hpl & Hkp) _ Hco].
    destruct (Hco c Hin) as (sp & Hsp & Hk). intros ->. congruence. }
  pose proof (wf_player _ (scene_wf _ Hsc)) as Hlt.
  destruct (collected_fields c s)
    as (Hs1 & Hn1 & Hp1 & He1 & Hc1 & _).
  assert (H1 : sprites (collected c s) !! player s = sprites s !! player s)
    by (rewrite Hs1, lookup_alter_ne by exact Hne; reflexivity).
  pose proof (scene_wf _ (scene_ok_collected c s Hsc)) as Hwf1.
  remember (collected c s) as s1 eqn:E1. clear E1.
  destruct (length (group_remove c (collectibles s)) =? 0)%nat eqn:Hz;
    [|exact H1].
  apply Nat.eqb_eq in Hz. rewrite <- Hc1 in Hz.
  assert (Hnil : collectibles s1 = [])
    by (destruct (collectibles s1); [reflexivity|discriminate]).
  destruct (new_round_spec s1 Hnil (wf_enemies _ Hwf1))
    as (_ & _ & _ & _ & Hold & _).
  rewrite Hold by (rewrite Hn1; exact Hlt). exact H1.
Qed.

Lemma hit_alive e s :
  gameOver (hit e s) = false ->
  sprites (hit e s) = sprites s /\ gameOver s = false.
Proof.
  unfold hit. destruct (touches e GAME_CONSTANTS.ENEMY_SIZE s); [|auto].
  cbv zeta. destruct (_ <=? _)%Z.
  - intros H. destruct (game_over_fields
                          (call playDamageSound
                             (set_health
                                (health s - GAME_CONSTANTS.DAMAGE_PER_ENEMY)
                                s))) as (Hg & _).
    congruence.
  - intros H. split; [reflexivity|exact H].
Qed.

Lemma stage_ok_update k s : Inv s -> stage_ok s -> stage_ok (update k s).
Proof.
  intros HI H. unfold update.
  destruct (escDown k && negb (escapePressed s));
    [apply (stage_ok_same s); auto|].
  cbv zeta.
  change (if negb (escDown k) then set_escapePressed false s else s)
    with (after_escape k s).
  assert (Ha : stage_ok (after_escape k s)).
  { apply (stage_ok_same s); auto;
      unfold after_escape; destruct (escDown k); reflexivity. }
  apply (Inv_after_escape k) in HI. clear H.
  remember (after_escape k s) as a eqn:Ea. clear Ea.
  destruct (gameOver a); [exact Ha|].
  assert (Hb : stage_ok (clamp_player (move_player k a))).
  { destruct (steered_moved k a). apply (stage_ok_moved a); auto. }
  apply (Inv_steered k) in HI. clear Ha.
  remember (clamp_player (move_player k a)) as b eqn:Eb. clear Eb.
  destruct (spaceDown k && _); [exact Hb|].
  assert (Hm : Inv (move_enemies b) /\ stage_ok (move_enemies b)).
  { unfold move_enemies.
    apply (forEach_inv enemies move_enemy (fun st => Inv st /\ stage_ok st));
      [|auto].
    intros e st [A B]. split; [apply Inv_move_enemy, A|].
    destruct (move_enemy_moved e st). apply (stage_ok_moved st); auto. }
  clear HI Hb. destruct Hm as [HI Hm].
  remember (move_enemies b) as m eqn:Em. clear Em.
  assert (Hc : Inv (collectible_collisions m)
               /\ stage_ok (collectible_collisions m)).
  { split; [apply Inv_collectible_collisions, HI|].
    unfold collectible_collisions.
    destruct (introComplete m && negb (gameOver m)) eqn:Hgo; [|exact Hm].
    apply andb_prop in Hgo. destruct Hgo as [Hi Hg].
    apply negb_true_iff in Hg.
    assert (Hloop :
      (fun st => scene_ok st /\ introComplete st = true
                 /\ gameOver st = false /\ player_visible st = true)
        (forEach collectibles collect m)).
    { apply forEach_inv_elem.
      - intros c st Hin (Hsc & Hist & Hgst & Hv).
        destruct (beside_collects_fields _ _ (collect_beside c st))
          as (Hp' & _ & Hi' & Hg' & _).
        split; [apply scene_ok_collect, Hsc|].
        split; [congruence|]. split; [congruence|].
        unfold player_visible in *. rewrite Hp'.
        rewrite collect_keeps_player by assumption. exact Hv.
      - split; [apply HI|]. split; [exact Hi|]. split; [exact Hg|].
        apply Hm; assumption. }
    destruct Hloop as (_ & A & B & C).
    split; [auto|]. rewrite A. discriminate. }
  clear HI Hm. destruct Hc as [HI Hc].
  remember (collectible_collisions m) as c eqn:Ec. clear Ec.
  unfold enemy_collisions.
  destruct (introComplete c && negb (gameOver c)) eqn:Hgo; [|exact Hc].
  apply andb_prop in Hgo. destruct Hgo as [Hi Hg].
  apply negb_true_iff in Hg.
  assert (Hloop :
    (fun st => introComplete st = true
               /\ (gameOver st = false -> player_visible st = true))
      (forEach enemies hit c)).
  { apply forEach_inv.
    - intros e st (Hist & Hv).
      destruct (beside_hits_fields _ _ (hit_beside e st))
        as (Hp' & _ & _ & _ & _ & _ & Hi' & _).
      split; [congruence|]. intros Hgf.
      destruct (hit_alive e st Hgf) as (Hs' & Hgst).
      unfold player_visible in *. rewrite Hp', Hs'. auto.
    - split; [exact Hi|]. intros _. apply Hc; assumption. }
  destruct Hloop as (A & B).
  split; [auto|]. rewrite A. discriminate.
Qed.

Lemma stage_ok_startActualGame s :
  scene_ok s -> stage_ok (startActualGame s).
Proof.
  intros Hsc. split; [|discriminate]. intros _ _.
  destruct (scene_player _ Hsc) as (pl & Hpl & _).
  unfold startActualGame, player_visible. cbv zeta.
  cbn [sprites player set_introComplete call].
  rewrite !group_setVisible_lookup.
  assert (Hp : forall v ids st, player (group_setVisible v ids st) = player st).
  { intros v ids st.
    destruct (session_fields _ _ (group_setVisible_session v ids st))
      as (-> & _). reflexivity. }
  rewrite !Hp. rsimpl. rewrite lookup_alter_eq, Hpl.
  repeat destruct (decide _); reflexivity.
Qed.

Lemma initial_enemy_key sp : initial_enemy sp -> key sp = key_enemy_random.
Proof. intros (_ & Hk & _). exact Hk. Qed.

Lemma stage_ok_returnToStartScreen s :
  wf s -> stage_ok (returnToStartScreen s).
Proof.
  intros Hwf.
  destruct (returnToStartScreen_canonical s Hwf)
    as (_ & _ & _ & _ & Hi & _ & _ & Hen & _).
  remember (returnToStartScreen s) as r eqn:Er. clear Er.
  split; [rewrite Hi; discriminate|]. intros _ e Hin.
  destruct (Hen e Hin) as (sp & Hsp & Hini).
  exists sp. split; [exact Hsp|apply initial_enemy_key, Hini].
Qed.

Lemma stage_ok_create : stage_ok (create rnd).
Proof.
  destruct create_spec as (Hb & _ & _ & _ & _ & Hen & _).
  remember (create rnd) as s eqn:Es. clear Es.
  unfold beside_spawns in Hb. injection Hb as _ _ _ _ _ Hi _ _.
  split; [rewrite Hi; discriminate|]. intros _ e Hin.
  destruct (Hen e Hin) as (sp & Hsp & Hini).
  exists sp. split; [exact Hsp|apply initial_enemy_key, Hini].
Qed.

Lemma stage_ok_play evs :
  Inv (play rnd cosTo sinTo evs) /\ stage_ok (play rnd cosTo sinTo evs).
Proof.
  unfold play.
  generalize (conj Inv_create stage_ok_create). generalize (create rnd).
  induction evs as [|ev evs IH]; intros s H; [exact H|].
  cbn [fold_left]. apply IH. destruct H as [HI HS].
  split; [apply Inv_step, HI|].
  destruct ev; cbn [step].
  - apply stage_ok_update; assumption.
  - apply stage_ok_startActualGame, HI.
  - apply stage_ok_returnToStartScreen, scene_wf, HI.
Qed.

(** X13: at every moment of a session, while play is on (the intro is
    complete and the game is not over) the player sprite is shown: the
    visibility test of the collision loops and of the chaser movement never
    fails on the player during play. *)
Theorem session_player_shown_in_play evs :
  introComplete (play rnd cosTo sinTo evs) = true ->
  gameOver (play rnd cosTo sinTo evs) = false ->
  exists pl,
    sprites (play rnd cosTo sinTo evs) !! player (play rnd cosTo sinTo evs)
    = Some pl
    /\ visible pl = true.
Proof.
  intros Hi Hg. destruct (stage_ok_play evs) as (_ & H & _).
  specialize (H Hi Hg). unfold player_visible in H.
  destruct (sprites _ !! _) as [pl|]; [|discriminate]. eauto.
Qed.

(** X14: at every moment of a session before play starts, every enemy of
    the group is of type [random]: chasers and patrols only ever appear
    during play, and every return to the start screen removes them. *)
Theorem session_enemies_random_before_start evs e :
  introComplete (play rnd cosTo sinTo evs) = false ->
  e ∈ enemies (play rnd cosTo sinTo evs) ->
  exists sp p,
    sprites (play rnd cosTo sinTo evs) !! e = Some sp
    /\ props sp = Some p /\ type p = random.
Proof.
  intros Hi Hin. destruct (stage_ok_play evs) as (([_ Hok _ _ _] & _) & _ & H).
  destruct (H Hi e Hin) as (sp & Hsp & Hk).
  destruct (Hok e sp Hsp) as (_ & Hl). unfold ok_look in Hl.
  destruct (props sp) as [p|] eqn:Hp.
  - destruct Hl as (Hk' & _). exists sp, p.
    split; [exact Hsp|]. split; [exact Hp|].
    apply spriteKey_inj. rewrite <- Hk'. exact Hk.
  - destruct Hl as [Hl|Hl]; congruence.
Qed.

(** * The size of the display list *)

Lemma size_alter (g : Sprite -> Sprite) i (m : gmap nat Sprite) :
  size (alter g i m) = size m.
Proof.
  destruct (m !! i) as [a|] eqn:Hi.
  - replace (alter g i m) with (<[i := g a]> m).
    + apply map_size_insert_Some. eauto.
    + apply map_eq. intros j. destruct (decide (i = j)) as [<-|Hne].
      * rewrite lookup_insert_eq, lookup_alter_eq, Hi. reflexivity.
      * rewrite lookup_insert_ne, lookup_alter_ne by exact Hne. reflexivity.
  - f_equal. apply map_eq. intros j. destruct (decide (i = j)) as [<-|Hne].
    + rewrite lookup_alter_eq, Hi. reflexivity.
    + rewrite lookup_alter_ne by exact Hne. reflexivity.
Qed.

Lemma size_group_setVisible v ids s :
  size (sprites (group_setVisible v ids s)) = size (sprites s).
Proof.
  unfold group_setVisible. revert s.
  induction ids as [|id ids IH]; intros s; [reflexivity|].
  cbn [fold_left]. rewrite IH. apply size_alter.
Qed.

Lemma size_hide_all s : size (sprites (hide_all s)) = size (sprites s).
Proof.
  unfold hide_all. rewrite !size_group_setVisible. apply size_alter.
Qed.

(** [group.clear (true, true)] takes every child off the display list. *)
Lemma size_destroy_all ids (m : gmap nat Sprite) :
  NoDup ids -> (forall id, id ∈ ids -> is_Some (m !! id)) ->
  (size (destroy_all ids m) + length ids = size m)%nat.
Proof.
  unfold destroy_all. revert m.
  induction ids as [|id ids IH]; intros m Hnd Hin; [cbn; lia|].
  apply NoDup_cons in Hnd. destruct Hnd as [Hid Hnd].
  cbn [fold_left length].
  assert (Hin' : forall j, j ∈ ids -> is_Some (delete id m !! j)).
  { intros j Hj. rewrite lookup_delete_ne by (intros ->; contradiction).
    apply Hin, elem_of_cons. auto. }
  specialize (IH (delete id m) Hnd Hin').
  assert (Hsome : is_Some (m !! id)) by (apply Hin, elem_of_cons; auto).
  pose proof (map_size_delete_Some id m Hsome) as Hd.
  assert (Hne : size m <> 0%nat).
  { apply map_size_non_empty_iff. intros ->.
    rewrite lookup_empty in Hsome. destruct Hsome; discriminate. }
  lia.
Qed.

Lemma stock_same n s s' :
  stock n s -> size (sprites s') = size (sprites s) ->
  enemies s' = enemies s -> collectibles s' = collectibles s -> stock n s'.
Proof. unfold stock. intros H -> -> ->. exact H. Qed.

Lemma stock_add n s s' sp :
  wf s -> stock n s ->
  sprites s' = <[nextId s := sp]> (sprites s) ->
  (enemies s' = group_add (nextId s) (enemies s)
   /\ collectibles s' = collectibles s)
  \/ (collectibles s' = group_add (nextId s) (collectibles s)
      /\ enemies s' = enemies s) ->
  stock n s'.
Proof.
  intros Hwf H Hs Hg. unfold stock in *.
  assert (Hnone : sprites s !! nextId s = None).
  { destruct (sprites s !! nextId s) eqn:E; [|reflexivity].
    pose proof (wf_sprites _ Hwf (nextId s) ltac:(eauto)). lia. }
  rewrite Hs, map_size_insert_None by exact Hnone.
  destruct Hg as [(-> & ->)|(-> & ->)];
    rewrite group_add_fresh, length_app; cbn [length]; try lia.
  - intros Hin. pose proof (wf_enemies _ Hwf _ Hin). lia.
  - intros Hin. pose proof (wf_collectibles _ Hwf _ Hin). lia.
Qed.

Lemma staged_respawn_collectible n s :
  scene_ok s /\ stock n s ->
  scene_ok (respawn_collectible rnd s) /\ stock n (respawn_collectible rnd s).
Proof.
  intros [Hsc H]. split; [apply scene_ok_respawn_collectible, Hsc|].
  revert H. rewrite respawn_collectible_eq. intros H.
  eapply (stock_add n s); [apply Hsc|exact H|reflexivity|].
  right. split; reflexivity.
Qed.

Lemma staged_spawn_initial_collectible n s :
  scene_ok s /\ stock n s ->
  scene_ok (spawn_initial_collectible rnd s)
  /\ stock n (spawn_initial_collectible rnd s).
Proof.
  intros [Hsc H]. split; [apply scene_ok_spawn_initial_collectible, Hsc|].
  revert H. rewrite spawn_initial_collectible_eq. intros H.
  eapply (stock_add n s); [apply Hsc|exact H|reflexivity|].
  right. split; reflexivity.
Qed.

Lemma staged_spawn_initial_enemy n s :
  scene_ok s /\ stock n s ->
  scene_ok (spawn_initial_enemy rnd s) /\ stock n (spawn_initial_enemy rnd s).
Proof.
  intros [Hsc H]. split; [apply scene_ok_spawn_initial_enemy, Hsc|].
  revert H. rewrite spawn_initial_enemy_eq. intros H.
  eapply (stock_add n s); [apply Hsc|exact H|reflexivity|].
  left. split; reflexivity.
Qed.

Lemma staged_spawn_round_enemy n s :
  scene_ok s /\ stock n s ->
  scene_ok (spawn_round_enemy rnd s) /\ stock n (spawn_round_enemy rnd s).
Proof.
  intros [Hsc H]. split; [apply scene_ok_spawn_round_enemy, Hsc|].
  revert H. rewrite spawn_round_enemy_eq. intros H.
  eapply (stock_add n s); [apply Hsc|exact H|reflexivity|].
  left. split; reflexivity.
Qed.

Lemma stock_new_round n s :
  scene_ok s -> stock n s -> stock n (new_round s).
Proof.
  intros Hsc H. unfold new_round. cbv zeta.
  assert (Hit : forall a, scene_ok a /\ stock n a ->
            scene_ok (Nat.iter GAME_CONSTANTS.COLLECTIBLE_COUNT
                        (respawn_collectible rnd) a)
            /\ stock n (Nat.iter GAME_CONSTANTS.COLLECTIBLE_COUNT
                          (respawn_collectible rnd) a)).
  { intros a Ha.
    apply (iter_inv (fun st => scene_ok st /\ stock n st)
             (respawn_collectible rnd)); [|exact Ha].
    apply staged_respawn_collectible. }
  match goal with |- stock n (if ?b then _ else _) => destruct b end;
    [apply staged_spawn_round_enemy|]; apply Hit;
    (split; [apply (scene_ok_same s); [exact Hsc|reflexivity..]
            |apply (stock_same n s); [exact H|reflexivity..]]).
Qed.

Lemma tally_count s r :
  tally r = tally s -> score r = score s ->
  count_calls playCollectSound r = count_calls playCollectSound s.
Proof.
  intros Ht Hs. unfold tally in Ht. rewrite Hs in Ht.
  unfold count_calls, GAME_CONSTANTS.SCORE_PER_COLLECTIBLE in *. lia.
Qed.

Lemma collect_count_new_round s :
  count_calls playCollectSound (new_round s) = count_calls playCollectSound s.
Proof.
  apply tally_count; [apply keeps_tally_new_round|apply new_round_score].
Qed.

Lemma collect_count_hit e s :
  count_calls playCollectSound (hit e s) = count_calls playCollectSound s.
Proof.
  apply tally_count; [apply keeps_tally_hit|].
  apply (beside_hits_fields _ _ (hit_beside e s)).
Qed.

Lemma size_Forall2 (R : Sprite -> Sprite -> Prop) (m m' : gmap nat Sprite) :
  (forall id, option_Forall2 R (m !! id) (m' !! id)) -> size m' = size m.
Proof.
  intros H. rewrite <- !(size_dom (D := gset nat)). f_equal.
  apply set_eq. intros i. rewrite !elem_of_dom.
  destruct (H i); split; intros [? ?]; try discriminate; eauto.
Qed.

Lemma ledger_same s s' :
  ledger_ok s -> size (sprites s') = size (sprites s) ->
  enemies s' = enemies s -> collectibles s' = collectibles s ->
  count_calls playCollectSound s' = count_calls playCollectSound s ->
  ledger_ok s'.
Proof.
  unfold ledger_ok. intros H Hs He Hc ->.
  apply (stock_same _ s); assumption.
Qed.

Lemma ledger_session s s' :
  ledger_ok s -> size (sprites s') = size (sprites s) ->
  session s' = session s -> ledger_ok s'.
Proof.
  intros H Hs Hsess.
  destruct (session_fields _ _ Hsess)
    as (_ & He & Hc & _ & _ & _ & _ & _ & _ & Hca).
  apply (ledger_same s); auto. unfold count_calls. rewrite Hca. reflexivity.
Qed.

Lemma collected_count c s :
  count_calls playCollectSound (collected c s)
  = S (count_calls playCollectSound s).
Proof.
  unfold collected. rewrite count_calls_call.
  destruct (Call_eq_dec _ _); [|congruence].
  unfold count_calls. cbn [calls set_score set_collectibles]. rsimpl. lia.
Qed.

Lemma ledger_collect c s :
  scene_ok s -> c ∈ collectibles s -> ledger_ok s -> ledger_ok (collect c s).
Proof.
  intros Hsc Hin H.
  destruct (touches c GAME_CONSTANTS.COLLECTIBLE_SIZE s) eqn:Ht;
    [|rewrite collect_not_touching by exact Ht; exact H].
  rewrite collect_touching by exact Ht.
  assert (H1 : ledger_ok (collected c s)).
  { unfold ledger_ok, stock in *. rewrite collected_count.
    destruct (collected_fields c s) as (-> & _ & _ & -> & -> & _).
    rewrite size_alter.
    pose proof (length_group_remove c _ Hin). lia. }
  pose proof (scene_ok_collected c s Hsc) as Hsc1.
  destruct (_ =? _)%nat; [|exact H1].
  unfold ledger_ok. rewrite collect_count_new_round.
  apply stock_new_round; assumption.
Qed.

Lemma size_hit e s : size (sprites (hit e s)) = size (sprites s).
Proof.
  unfold hit. destruct (touches e GAME_CONSTANTS.ENEMY_SIZE s); [|reflexivity].
  cbv zeta. destruct (_ <=? _)%Z; [|reflexivity].
  unfold game_over. cbn [sprites call]. rewrite size_hide_all. reflexivity.
Qed.

Lemma ledger_hit e s : ledger_ok s -> ledger_ok (hit e s).
Proof.
  intros H.
  destruct (beside_hits_fields _ _ (hit_beside e s))
    as (_ & He & Hc & _).
  apply (ledger_same s); auto; [apply size_hit|apply collect_count_hit].
Qed.

Lemma ledger_update k s : Inv s -> ledger_ok s -> ledger_ok (update k s).
Proof.
  intros HI H. unfold update.
  destruct (escDown k && negb (escapePressed s)).
  { apply (ledger_same s); auto. rewrite !count_calls_call.
    repeat destruct (Call_eq_dec _ _); try discriminate.
    unfold count_calls. cbn [calls set_escapePressed]. lia. }
  cbv zeta.
  change (if negb (escDown k) then set_escapePressed false s else s)
    with (after_escape k s).
  assert (Ha : ledger_ok (after_escape k s)).
  { apply (ledger_session s); auto;
      [rewrite after_escape_sprites; reflexivity|apply after_escape_session]. }
  apply (Inv_after_escape k) in HI. clear H.
  remember (after_escape k s) as a eqn:Ea. clear Ea.
  destruct (gameOver a); [exact Ha|].
  assert (Hb : ledger_ok (clamp_player (move_player k a))).
  { apply (ledger_session a); auto.
    - apply (size_Forall2 moved), steered_moved.
    - rewrite clamp_player_session. apply move_player_session. }
  apply (Inv_steered k) in HI. clear Ha.
  remember (clamp_player (move_player k a)) as b eqn:Eb. clear Eb.
  destruct (spaceDown k && _); [exact Hb|].
  assert (Hm : Inv (move_enemies b) /\ ledger_ok (move_enemies b)).
  { unfold move_enemies.
    apply (forEach_inv enemies move_enemy (fun st => Inv st /\ ledger_ok st));
      [|auto].
    intros e st [A B]. split; [apply Inv_move_enemy, A|].
    apply (ledger_session st); auto.
    - apply (size_Forall2 moved), move_enemy_moved.
    - apply move_enemy_session. }
  clear HI Hb. destruct Hm as [HI Hm].
  remember (move_enemies b) as m eqn:Em. clear Em.
  assert (Hc : ledger_ok (collectible_collisions m)).
  { unfold collectible_collisions.
    destruct (introComplete m && negb (gameOver m)); [|exact Hm].
    apply (forEach_inv_elem collectibles collect
             (fun st => scene_ok st /\ ledger_ok st)); [|split; [apply HI|auto]].
    intros c st Hin (Hsc & Hl).
    split; [apply scene_ok_collect, Hsc|apply ledger_collect; assumption]. }
  remember (collectible_collisions m) as c eqn:Ec. clear Ec.
  unfold enemy_collisions.
  destruct (introComplete c && negb (gameOver c)); [|exact Hc].
  apply (forEach_inv enemies hit ledger_ok); [|exact Hc].
  intros e st. apply ledger_hit.
Qed.

Lemma ledger_startActualGame s : ledger_ok s -> ledger_ok (startActualGame s).
Proof.
  intros H. unfold startActualGame. cbv zeta.
  assert (Hg : forall v ids st,
            ledger_ok st -> ledger_ok (group_setVisible v ids st)).
  { intros v ids st Hst. apply (ledger_session st); auto;
      [apply size_group_setVisible|apply group_setVisible_session]. }
  assert (Hcall : forall c st, c <> playCollectSound ->
            ledger_ok st -> ledger_ok (call c st)).
  { intros c st Hne Hst. apply (ledger_same st); auto.
    rewrite count_calls_call. destruct (Call_eq_dec _ _); [contradiction|].
    lia. }
  match goal with |- ledger_ok (set_introComplete _ ?st) =>
    apply (ledger_same st); [|reflexivity..] end.
  apply Hcall; [discriminate|]. apply Hg, Hg.
  match goal with |- ledger_ok (setVisible _ _ ?st) =>
    apply (ledger_session st); [|apply size_alter|reflexivity] end.
  apply Hcall; [discriminate|exact H].
Qed.

Lemma staged_clear_enemies n s :
  scene_ok s /\ stock n s ->
  scene_ok (clear_enemies s) /\ stock n (clear_enemies s).
Proof.
  intros [Hsc H]. split; [apply scene_ok_clear_enemies, Hsc|].
  unfold stock in *. cbn [clear_enemies sprites enemies collectibles
    set_enemies set_sprites length].
  pose proof (size_destroy_all (enemies s) (sprites s)
                (wf_enemies_NoDup _ (scene_wf _ Hsc))) as Hd.
  rewrite <- Hd in H.
  - lia.
  - intros id Hin. destruct (scene_enemies _ Hsc id Hin) as (sp & -> & _).
    eauto.
Qed.

Lemma staged_clear_collectibles n s :
  scene_ok s /\ stock n s ->
  scene_ok (clear_collectibles s) /\ stock n (clear_collectibles s).
Proof.
  intros [Hsc H]. split; [apply scene_ok_clear_collectibles, Hsc|].
  unfold stock in *. cbn [clear_collectibles sprites enemies collectibles
    set_collectibles set_sprites length].
  pose proof (size_destroy_all (collectibles s) (sprites s)
                (wf_collectibles_NoDup _ (scene_wf _ Hsc))) as Hd.
  rewrite <- Hd in H.
  - lia.
  - intros id Hin. destruct (scene_collectibles _ Hsc id Hin) as (sp & -> & _).
    eauto.
Qed.

Lemma stock_returnToStartScreen n s :
  scene_ok s -> stock n s -> stock n (returnToStartScreen s).
Proof.
  intros Hsc H. rewrite returnToStartScreen_stages.
  assert (Hfin : forall st, scene_ok st /\ stock n st ->
            stock n (call showTitleScreen st)).
  { intros st [_ Hst]. apply (stock_same n st); auto. }
  apply Hfin.
  apply (iter_inv (fun st => scene_ok st /\ stock n st)
           (spawn_initial_collectible rnd));
    [apply staged_spawn_initial_collectible|].
  apply staged_clear_collectibles.
  apply (iter_inv (fun st => scene_ok st /\ stock n st)
           (spawn_initial_enemy rnd));
    [apply staged_spawn_initial_enemy|].
  apply staged_clear_enemies.
  split.
  - apply scene_ok_hide_all.
    apply (scene_ok_same s); [exact Hsc|reflexivity..].
  - apply (stock_same n (reset_session s)).
    + apply (stock_same n s); [exact H|reflexivity..].
    + apply size_hide_all.
    + apply (session_fields _ _ (hide_all_session (reset_session s))).
    + apply (session_fields _ _ (hide_all_session (reset_session s))).
Qed.

Lemma ledger_returnToStartScreen s :
  scene_ok s -> ledger_ok s -> ledger_ok (returnToStartScreen s).
Proof.
  intros Hsc H. unfold ledger_ok.
  replace (count_calls playCollectSound (returnToStartScreen s))
    with (count_calls playCollectSound s);
    [apply stock_returnToStartScreen; assumption|].
  destruct (returnToStartScreen_spec s (scene_wf _ Hsc)) as (Hb & _).
  revert Hb. generalize (returnToStartScreen s). intros r Hb.
  unfold beside_spawns in Hb. injection Hb as _ _ _ _ _ _ _ Hca.
  unfold count_calls. rewrite Hca, !count_occ_app. cbn. lia.
Qed.

Lemma ledger_create : ledger_ok (create rnd).
Proof.
  unfold ledger_ok.
  replace (count_calls playCollectSound (create rnd)) with 0%nat.
  - rewrite create_stages.
    assert (Hfin : forall st, scene_ok st /\ stock 0 st ->
              stock 0 (hide_all (call showTitleScreen st))).
    { intros st [_ Hst]. apply (stock_same 0 st); auto.
      - rewrite size_hide_all. reflexivity.
      - apply (session_fields _ _
                 (hide_all_session (call showTitleScreen st))).
      - apply (session_fields _ _
                 (hide_all_session (call showTitleScreen st))). }
    apply Hfin.
    apply (iter_inv (fun st => scene_ok st /\ stock 0 st)
             (spawn_initial_collectible rnd));
      [apply staged_spawn_initial_collectible|].
    apply (iter_inv (fun st => scene_ok st /\ stock 0 st)
             (spawn_initial_enemy rnd));
      [apply staged_spawn_initial_enemy|].
    split; [apply scene_ok_created|].
    unfold stock, scene_created. cbn [sprites enemies collectibles length].
    rewrite map_size_insert_None by apply lookup_empty.
    rewrite map_size_empty. reflexivity.
  - destruct create_spec as (Hb & _).
    revert Hb. generalize (create rnd). intros r Hb.
    unfold beside_spawns in Hb. injection Hb as _ _ _ _ _ _ _ Hca.
    unfold count_calls. rewrite Hca. reflexivity.
Qed.

Lemma ledger_play evs :
  Inv (play rnd cosTo sinTo evs) /\ ledger_ok (play rnd cosTo sinTo evs).
Proof.
  unfold play.
  generalize (conj Inv_create ledger_create). generalize (create rnd).
  induction evs as [|ev evs IH]; intros s H; [exact H|].
  cbn [fold_left]. apply IH. destruct H as [HI HS].
  split; [apply Inv_step, HI|].
  destruct ev; cbn [step].
  - apply ledger_update; assumption.
  - apply ledger_startActualGame, HS.
  - apply ledger_returnToStartScreen; [apply HI|exact HS].
Qed.

(** X15: no game sprite is ever taken off the display list except the
    children that [returnToStartScreen] finds in the two groups: at every
    moment of a session the game sprites of the display list are exactly
    the player, the children of the two groups, and one (hidden) sprite for
    every collectible collected since [create], returns to the start
    screen included. *)
Theorem session_display_list_size evs :
  let s := play rnd cosTo sinTo evs in
  size (sprites s)
  = (1 + length (enemies s) + length (collectibles s)
     + count_calls playCollectSound s)%nat.
Proof. cbv zeta. apply ledger_play. Qed.

(** * Frames before play starts *)

(** X16: before play starts, a frame that does not take the escape branch
    only moves sprites about: it collects nothing, hurts nobody, starts no
    round, makes no call, creates no sprite, whatever the keys (the
    spacebar included) and wherever the sprites are. *)
Theorem frames_before_start_only_move k s :
  introComplete s = false ->
  escDown k && negb (escapePressed s) = false ->
  session (update k s) = session s
  /\ nextId (update k s) = nextId s
  /\ forall id, is_Some (sprites (update k s) !! id)
                <-> is_Some (sprites s !! id).
Proof.
  intros Hi Hesc. unfold update. rewrite Hesc. cbv zeta.
  change (if negb (escDown k) then set_escapePressed false s else s)
    with (after_escape k s).
  pose proof (after_escape_session k s) as Hsa.
  pose proof (after_escape_sprites k s) as Hspa.
  assert (Hna : nextId (after_escape k s) = nextId s)
    by (unfold after_escape; destruct (escDown k); reflexivity).
  revert Hsa Hspa Hna. generalize (after_escape k s). intros a Hsa Hspa Hna.
  rewrite <- Hsa, <- Hna, <- Hspa.
  destruct (session_fields _ _ Hsa) as (_ & _ & _ & _ & _ & _ & _ & Hia & _).
  rewrite Hi in Hia. clear Hsa Hspa Hna Hi Hesc s.
  destruct (gameOver a); [repeat split; auto|].
  destruct (steered_moved k a) as (Hfb & Hmb).
  pose proof (clamp_player_session (move_player k a)) as Hsb.
  rewrite move_player_session in Hsb.
  revert Hfb Hmb Hsb. generalize (clamp_player (move_player k a)).
  intros b Hfb Hmb Hsb.
  destruct (inv_fields_eq _ _ Hfb) as (Hnb & _).
  assert (Hdom : forall m m' : GameState,
            (forall id, option_Forall2 moved (sprites m !! id)
                          (sprites m' !! id)) ->
            forall id, is_Some (sprites m' !! id) <-> is_Some (sprites m !! id)).
  { intros m m' Hm id. destruct (Hm id); split; intros [? ?];
      try discriminate; eauto. }
  destruct (session_fields _ _ Hsb) as (_ & _ & _ & _ & _ & _ & _ & Hib & _).
  rewrite Hib, Hia. cbn [negb orb andb].
  rewrite andb_false_r.
  assert (Hm : session (move_enemies b) = session a
               /\ nextId (move_enemies b) = nextId a
               /\ forall id, is_Some (sprites (move_enemies b) !! id)
                             <-> is_Some (sprites a !! id)).
  { unfold move_enemies.
    apply (forEach_inv enemies move_enemy
             (fun st => session st = session a /\ nextId st = nextId a
                        /\ forall id, is_Some (sprites st !! id)
                                      <-> is_Some (sprites a !! id))).
    - intros e st (A & B & C).
      destruct (move_enemy_moved e st) as (Hf & Hm).
      destruct (inv_fields_eq _ _ Hf) as (Hn & _).
      split; [rewrite move_enemy_session; exact A|].
      split; [congruence|].
      intros id. rewrite (Hdom st _ Hm id). apply C.
    - split; [exact Hsb|]. split; [exact Hnb|]. apply Hdom, Hmb. }
  revert Hm. generalize (move_enemies b). intros m (Hsm & Hnm & Hdm).
  destruct (session_fields _ _ Hsm) as (_ & _ & _ & _ & _ & _ & _ & Him & _).
  unfold enemy_collisions, collectible_collisions.
  rewrite Him, Hia. cbn [andb]. rewrite Him, Hia. cbn [andb]. auto.
Qed.

(** * How much a frame can collect *)

Lemma collected_score c s :
  score (collected c s)
  = (score s + GAME_CONSTANTS.SCORE_PER_COLLECTIBLE)%Z
  /\ collectibles (collected c s) = group_remove c (collectibles s).
Proof. split; reflexivity. Qed.

(** Past the first index, the loop collects at most every other child of
    what is left of the array. *)
Lemma collect_tail_gain n k s :
  (1 <= k)%nat ->
  exists c : nat,
    score (forEach_from n k collectibles collect s)
    = (score s + GAME_CONSTANTS.SCORE_PER_COLLECTIBLE * Z.of_nat c)%Z
    /\ (2 * c <= length (collectibles s) - k + 1)%nat
    /\ ((length (collectibles s) <= k)%nat -> c = 0%nat).
Proof.
  revert k s. induction n as [|n IH]; intros k s Hk.
  { exists 0%nat. cbn [forEach_from]. split; [lia|]. split; [lia|auto]. }
  rewrite forEach_from_S.
  destruct (collectibles s !! k) as [c0|] eqn:Hlk.
  - pose proof (lookup_lt_Some _ _ _ Hlk) as Hlt.
    destruct (touches c0 GAME_CONSTANTS.COLLECTIBLE_SIZE s) eqn:Ht.
    + rewrite collect_touching by exact Ht.
      assert (Hin : c0 ∈ collectibles s)
        by (apply list_elem_of_lookup; eauto).
      pose proof (length_group_remove c0 _ Hin) as Hlen.
      destruct (length (group_remove c0 (collectibles s)) =? 0)%nat eqn:Hz;
        [apply Nat.eqb_eq in Hz; lia|].
      destruct (collected_score c0 s) as (Hs1 & Hc1).
      destruct (IH (S k) (collected c0 s) ltac:(lia)) as (c1 & A & B & C).
      revert Hs1 Hc1 A B C. generalize (collected c0 s).
      intros s1 Hs1 Hc1 A B C. rewrite Hc1 in B, C.
      exists (S c1). split; [rewrite A, Hs1; lia|]. split; [|lia].
      destruct (decide (length (collectibles s) - k = 1)%nat) as [E|E];
        [rewrite C by lia|]; lia.
    + rewrite collect_not_touching by exact Ht.
      destruct (IH (S k) s ltac:(lia)) as (c1 & A & B & C).
      exists c1. split; [exact A|]. split; lia.
  - apply lookup_ge_None in Hlk.
    destruct (IH (S k) s ltac:(lia)) as (c1 & A & B & C).
    exists c1. rewrite C in * by lia. split; [exact A|]. split; [lia|auto].
Qed.

Lemma collect_loop_gain s :
  exists c : nat,
    score (forEach collectibles collect s)
    = (score s + GAME_CONSTANTS.SCORE_PER_COLLECTIBLE * Z.of_nat c)%Z
    /\ (2 * c <= length (collectibles s) + 1)%nat.
Proof.
  unfold forEach.
  destruct (length (collectibles s)) as [|n] eqn:Hlen.
  { exists 0%nat. cbn [forEach_from]. split; lia. }
  rewrite forEach_from_S.
  destruct (collectibles s !! 0%nat) as [c0|] eqn:Hlk;
    [|apply lookup_ge_None in Hlk; lia].
  destruct (touches c0 GAME_CONSTANTS.COLLECTIBLE_SIZE s) eqn:Ht.
  - rewrite collect_touching by exact Ht.
    assert (Hin : c0 ∈ collectibles s)
      by (apply list_elem_of_lookup; eauto).
    pose proof (length_group_remove c0 _ Hin) as Hlen1.
    destruct (collected_score c0 s) as (Hs1 & Hc1).
    destruct (length (group_remove c0 (collectibles s)) =? 0)%nat eqn:Hz.
    + apply Nat.eqb_eq in Hz.
      destruct (collect_tail_gain n 1 (new_round (collected c0 s))
                  ltac:(lia)) as (c1 & A & B & C).
      assert (Hn0 : n = 0%nat) by lia. subst n.
      cbn [forEach_from] in *.
      exists 1%nat. rewrite new_round_score, Hs1. split; lia.
    + apply Nat.eqb_neq in Hz.
      destruct (collect_tail_gain n 1 (collected c0 s) ltac:(lia))
        as (c1 & A & B & C).
      revert Hs1 Hc1 A B C. generalize (collected c0 s).
      intros s1 Hs1 Hc1 A B C. rewrite Hc1 in B, C.
      exists (S c1). split; [rewrite A, Hs1; lia|].
      destruct (decide (n = 1)%nat) as [E|E]; [rewrite C by lia|]; lia.
  - rewrite collect_not_touching by exact Ht.
    destruct (collect_tail_gain n 1 s ltac:(lia)) as (c1 & A & B & C).
    exists c1. split; [exact A|lia].
Qed.

Lemma update_gain k s :
  exists c : nat,
    score (update k s)
    = (score s + GAME_CONSTANTS.SCORE_PER_COLLECTIBLE * Z.of_nat c)%Z
    /\ (2 * c <= length (collectibles s) + 1)%nat.
Proof.
  assert (Hzero : forall r, score r = score s ->
            exists c : nat,
              score r
              = (score s
                 + GAME_CONSTANTS.SCORE_PER_COLLECTIBLE * Z.of_nat c)%Z
              /\ (2 * c <= length (collectibles s) + 1)%nat).
  { intros r Hr. exists 0%nat. split; lia. }
  unfold update.
  destruct (escDown k && negb (escapePressed s)); [apply Hzero; reflexivity|].
  cbv zeta.
  change (if negb (escDown k) then set_escapePressed false s else s)
    with (after_escape k s).
  destruct (session_fields _ _ (after_escape_session k s))
    as (_ & _ & Hca & Hsa & _).
  revert Hca Hsa. generalize (after_escape k s). intros a Hca Hsa.
  destruct (gameOver a); [apply Hzero; exact Hsa|].
  pose proof (clamp_player_session (move_player k a)) as Hsb.
  rewrite move_player_session in Hsb.
  revert Hsb. generalize (clamp_player (move_player k a)). intros b Hsb.
  destruct (session_fields _ _ Hsb) as (_ & _ & Hcb & Hscb & _).
  destruct (spaceDown k && _); [apply Hzero; congruence|].
  pose proof (move_enemies_session b) as Hsm.
  revert Hsm. generalize (move_enemies b). intros m Hsm.
  destruct (session_fields _ _ Hsm) as (_ & _ & Hcm & Hscm & _).
  destruct (beside_hits_fields _ _
              (enemy_collisions_beside (collectible_collisions m)))
    as (_ & _ & _ & -> & _).
  unfold collectible_collisions.
  destruct (introComplete m && negb (gameOver m));
    [|apply Hzero; congruence].
  destruct (collect_loop_gain m) as (c & A & B).
  exists c. split; [rewrite A; congruence|].
  rewrite Hcm, Hcb, Hca in B. exact B.
Qed.

(** X17: whatever the keys and wherever the sprites are, one frame never
    lowers the score and raises it by at most ten points for every other
    collectible of the group (rounded up): because the loop walks the live
    array, a frame collects at most five of ten collectibles even when the
    player touches all of them. *)
Theorem score_gain_per_frame k s :
  (score s <= score (update k s)
   <= score s
      + GAME_CONSTANTS.SCORE_PER_COLLECTIBLE
        * ((Z.of_nat (length (collectibles s)) + 1) / 2))%Z.
Proof.
  destruct (update_gain k s) as (c & A & B). rewrite A.
  unfold GAME_CONSTANTS.SCORE_PER_COLLECTIBLE.
  assert (Hc : (Z.of_nat c <= (Z.of_nat (length (collectibles s)) + 1) / 2)%Z)
    by (apply Z.div_le_lower_bound; lia).
  lia.
Qed.

(** * AudioSystem *)

Lemma audio_ok_step a ev :
  AudioSystem.audio_ok a -> AudioSystem.audio_ok (AudioSystem.step a ev).
Proof.
  unfold AudioSystem.audio_ok.
  destruct a as [ctx ini unl r sch], ev as [mk|mk|mk b|ok|c];
    cbn [AudioSystem.step AudioSystem.init AudioSystem.unlock
         AudioSystem.createBeep AudioSystem.settle
         AudioSystem.context_changed AudioSystem.audioContext
         AudioSystem.isAudioInitialized AudioSystem.isAudioUnlocked
         AudioSystem.resuming AudioSystem.scheduled];
    intros (H1 & H2 & H3).
  - destruct ctx as [c|]; [tauto|].
    destruct mk as [c|]; cbn; (split; [split; congruence|]);
      split; intros H; [congruence|congruence|apply H2 in H|apply H3 in H];
      congruence.
  - destruct unl; [cbn; tauto|].
    destruct ini; cbn.
    + destruct ctx as [[]|]; cbn; [| |tauto];
        (split; [exact H1|]); split; congruence.
    + destruct ctx as [c|]; [destruct H1 as [_ H1]; discriminate H1;
                              congruence|].
      destruct mk as [[]|]; cbn;
        (split; [split; congruence|]); split; intros H; try congruence;
        apply H3 in H; congruence.
  - destruct unl; cbn; [|tauto].
    destruct ini; cbn.
    + destruct ctx as [c|]; cbn; tauto.
    + destruct ctx as [c|]; [destruct H1 as [_ H1]; discriminate H1;
                              congruence|].
      exfalso. apply H2; reflexivity.
  - destruct r as [|r]; cbn; [tauto|].
    assert (Hc : ctx <> None) by (apply H3; lia).
    split; [exact H1|]. split; intros _; exact Hc.
  - destruct ctx as [c0|]; cbn; [|tauto].
    split; [split; [congruence|intros _; apply H1; congruence]|].
    split; congruence.
Qed.

Lemma audio_ok_play evs : AudioSystem.audio_ok (AudioSystem.play evs).
Proof.
  unfold AudioSystem.play.
  assert (H0 : AudioSystem.audio_ok AudioSystem.audio0).
  { unfold AudioSystem.audio_ok. cbn. split; [split|split]; try congruence.
    lia. }
  revert H0. generalize AudioSystem.audio0.
  induction evs as [|ev evs IH]; intros a Ha; [exact Ha|].
  cbn [fold_left]. apply IH, audio_ok_step, Ha.
Qed.

(** X18: whatever happened to the audio system before, [unlock] throws
    (the [else] branch reads the state of a context that is [null]) exactly
    when audio was never unlocked, no context exists and none can be
    created; it then leaves [isAudioUnlocked] false, so every later call
    without Web Audio throws again.  When a context exists or can be
    created, [unlock] returns, and sets [isAudioUnlocked] at once exactly
    when that context is not suspended. *)
Theorem unlock_throws_without_context evs mk :
  let a := AudioSystem.play evs in
  let ctx := match AudioSystem.audioContext a with
             | Some c => Some c
             | None => mk
             end in
  (snd (AudioSystem.unlock mk a) = true
   <-> AudioSystem.isAudioUnlocked a = false /\ ctx = None)
  /\ (snd (AudioSystem.unlock mk a) = true ->
      AudioSystem.isAudioUnlocked (fst (AudioSystem.unlock mk a)) = false
      /\ AudioSystem.audioContext (fst (AudioSystem.unlock mk a)) = None)
  /\ (AudioSystem.isAudioUnlocked a = false ->
      (AudioSystem.isAudioUnlocked (fst (AudioSystem.unlock mk a)) = true
       <-> ctx = Some AudioSystem.running)).
Proof.
  cbv zeta. destruct (audio_ok_play evs) as (H1 & H2 & H3).
  revert H1 H2 H3. generalize (AudioSystem.play evs).
  intros [ctx ini unl r sch].
  cbn [AudioSystem.audioContext AudioSystem.isAudioInitialized
       AudioSystem.isAudioUnlocked AudioSystem.resuming].
  intros H1 H2 H3. unfold AudioSystem.unlock, AudioSystem.init.
  cbn [AudioSystem.audioContext AudioSystem.isAudioInitialized
       AudioSystem.isAudioUnlocked AudioSystem.resuming
       AudioSystem.scheduled].
  destruct unl.
  { cbn. assert (ctx <> None) by auto. destruct ctx as [c|]; [|congruence].
    repeat split; try congruence; intros []; congruence. }
  destruct ini.
  { assert (Hc : ctx <> None) by (apply H1; reflexivity).
    destruct ctx as [[]|]; [| |congruence]; cbn;
      repeat split; try congruence; intros []; congruence. }
  destruct ctx as [c|].
  { destruct H1 as [_ H1]. discriminate H1. congruence. }
  destruct mk as [[]|]; cbn; repeat split; try congruence;
    intros []; congruence.
Qed.

(** X19: whatever happened to the audio system before, [createBeep] starts
    exactly one oscillator when [isAudioUnlocked] is set and none when it
    is not, and changes nothing else: once audio is unlocked a context
    exists, so the two initialisation tests of [createBeep] never fire. *)
Theorem createBeep_iff_unlocked evs mk b :
  let a := AudioSystem.play evs in
  AudioSystem.createBeep mk b a
  = if AudioSystem.isAudioUnlocked a
    then AudioSystem.mkAudioState (AudioSystem.audioContext a)
           (AudioSystem.isAudioInitialized a) true (AudioSystem.resuming a)
           (AudioSystem.scheduled a ++ [b])
    else a.
Proof.
  cbv zeta. destruct (audio_ok_play evs) as (H1 & H2 & H3).
  revert H1 H2 H3. generalize (AudioSystem.play evs).
  intros [ctx ini unl r sch].
  cbn [AudioSystem.audioContext AudioSystem.isAudioInitialized
       AudioSystem.isAudioUnlocked AudioSystem.resuming
       AudioSystem.scheduled].
  intros H1 H2 H3. unfold AudioSystem.createBeep.
  cbn [AudioSystem.audioContext AudioSystem.isAudioInitialized
       AudioSystem.isAudioUnlocked AudioSystem.resuming
       AudioSystem.scheduled negb].
  destruct unl; [|reflexivity].
  assert (Hc : ctx <> None) by (apply H2; reflexivity).
  assert (Hi : ini = true) by (apply H1; exact Hc). subst ini.
  destruct ctx as [c|]; [reflexivity|congruence].
Qed.

(** * How far an enemy moves in a frame *)

Lemma Clamp_near v lo hi x0 d :
  (lo <= x0)%Q -> (x0 <= hi)%Q -> (0 <= d)%Q ->
  (x0 - d <= v)%Q -> (v <= x0 + d)%Q ->
  (x0 - d <= Clamp v lo hi /\ Clamp v lo hi <= x0 + d)%Q.
Proof.
  intros H1 H2 H3 H4 H5. unfold Clamp.
  destruct (Q.max_spec lo (Qmin hi v)) as [[Ha Ea]|[Ha Ea]];
    destruct (Q.min_spec hi v) as [[Hb Eb]|[Hb Eb]];
    rewrite Ea; rewrite ?Eb; rewrite Eb in Ha; split; lra.
Qed.

Lemma near_refl v a : (0 <= v)%Q -> near v a a.
Proof. intros H. unfold near. repeat split; lra. Qed.

Lemma near_clamp v a (h : Sprite) :
  in_bounds a -> (0 <= v)%Q ->
  (x a - v <= x h)%Q -> (x h <= x a + v)%Q ->
  (y a - v <= y h)%Q -> (y h <= y a + v)%Q ->
  near v a (clamp_sprite h).
Proof.
  intros (B1 & B2 & B3 & B4) Hv X1 X2 Y1 Y2.
  unfold near, clamp_sprite. cbn [x y set_x set_y].
  destruct (Clamp_near (x h) (inject_Z GAME_CONSTANTS.PLAYER_SIZE)
              (inject_Z (GAME_CONSTANTS.WIDTH - GAME_CONSTANTS.PLAYER_SIZE))
              (x a) v); auto.
  destruct (Clamp_near (y h) (inject_Z GAME_CONSTANTS.PLAYER_SIZE)
              (inject_Z (GAME_CONSTANTS.HEIGHT - GAME_CONSTANTS.PLAYER_SIZE))
              (y a) v); auto.
Qed.

Lemma scale_bound c v :
  (- (1) <= c)%Q -> (c <= 1)%Q -> (0 <= v)%Q ->
  (- v <= c * v /\ c * v <= v)%Q.
Proof.
  intros H1 H2 Hv.
  pose proof (Qmult_le_compat_r _ _ v H1 Hv) as A.
  pose proof (Qmult_le_compat_r _ _ v H2 Hv) as B.
  split; lra.
Qed.

Section SpeedLimit.

Hypothesis cos_range : forall a b c d, (- (1) <= cosTo a b c d <= 1)%Q.
Hypothesis sin_range : forall a b c d, (- (1) <= sinTo a b c d <= 1)%Q.

Lemma move_enemy_near e s a :
  sprites s !! e = Some a -> in_bounds a -> (0 <= enemySpeed s)%Z ->
  exists b, sprites (move_enemy e s) !! e = Some b
            /\ near (inject_Z (enemySpeed s)) a b.
Proof.
  intros Ha Hb Hv.
  assert (Hvq : (0 <= inject_Z (enemySpeed s))%Q)
    by (rewrite <- (Zle_Qle 0); exact Hv).
  unfold move_enemy, move_by_type, patrol_turn, Between. rewrite Ha.
  assert (Hstill : exists b,
            sprites (update_sprite e clamp_sprite s) !! e = Some b
            /\ near (inject_Z (enemySpeed s)) a b).
  { rsimpl. rewrite lookup_alter_eq, Ha. eexists. split; [reflexivity|].
    apply near_clamp; auto; lra. }
  destruct (props a) as [p|]; [|exact Hstill].
  destruct (type p).
  - rsimpl. rewrite !alter_alter, lookup_alter_eq, Ha.
    eexists. split; [reflexivity|].
    pose proof (draw_range (- enemySpeed s) (enemySpeed s) (draws s)
                  ltac:(lia)) as Hx.
    pose proof (draw_range (- enemySpeed s) (enemySpeed s) (S (draws s))
                  ltac:(lia)) as Hy.
    unfold draw in Hx, Hy.
    destruct Hx as [Hx1 Hx2], Hy as [Hy1 Hy2].
    rewrite Zle_Qle in Hx1, Hx2, Hy1, Hy2.
    rewrite inject_Z_opp in Hx1, Hy1.
    apply near_clamp; auto; cbn [x y set_x set_y]; lra.
  - destruct (sprites s !! player s) as [pl|]; [|exact Hstill].
    destruct (visible pl); [|exact Hstill].
    rsimpl. rewrite !alter_alter, lookup_alter_eq, Ha.
    eexists. split; [reflexivity|].
    assert (Hs : (0 <= inject_Z (enemySpeed s) * (3 # 10))%Q) by lra.
    destruct (cos_range (x a) (y a) (x pl) (y pl)) as [C1 C2].
    destruct (sin_range (x a) (y a) (x pl) (y pl)) as [S1 S2].
    destruct (scale_bound _ _ C1 C2 Hs) as [C3 C4].
    destruct (scale_bound _ _ S1 S2 Hs) as [S3 S4].
    apply near_clamp; auto; cbn [x y set_x set_y]; lra.
  - destruct (60 <? moveCounter p + 1)%Z; rsimpl;
      rewrite !alter_alter, lookup_alter_eq, Ha;
      (eexists; split; [reflexivity|]);
      apply near_clamp; auto;
      match goal with |- context [patrol_step ?d _ _] =>
        unfold patrol_step; destruct d as [|[[|[]|]|[]|]|] end;
      cbn [x y set_x set_y set_props]; lra.
Qed.

Lemma move_fold_near l s e a :
  NoDup l -> e ∈ l ->
  sprites s !! e = Some a -> in_bounds a -> (0 <= enemySpeed s)%Z ->
  exists b,
    sprites (fold_left (fun st id => move_enemy id st) l s) !! e = Some b
    /\ near (inject_Z (enemySpeed s)) a b.
Proof.
  revert s. induction l as [|a0 l IH]; intros s Hnd Hin Ha Hb Hv;
    [destruct (not_elem_of_nil _ Hin)|].
  apply NoDup_cons in Hnd as [Ha0 Hnd]. cbn [fold_left].
  destruct (decide (a0 = e)) as [->|Hne].
  - destruct (move_fold_lookup l (move_enemy e s) e) as (_ & Hout & _).
    rewrite (Hout Ha0). apply move_enemy_near; assumption.
  - apply elem_of_cons in Hin as [Heq|Hin]; [congruence|].
    destruct (move_enemy_alter a0 s) as (g & _ & Hs & _).
    destruct (session_fields _ _ (move_enemy_session a0 s))
      as (_ & _ & _ & _ & _ & _ & Hsp & _).
    rewrite <- Hsp. apply IH; auto; [|rewrite Hsp; exact Hv].
    rewrite Hs, lookup_alter_ne by exact Hne. exact Ha.
Qed.

(** X20: a speed limit.  At every moment of a session, one frame moves no
    enemy of the group by more than [enemySpeed] pixels on either axis,
    whatever its type, the keys and the random draws (the heading towards
    the player being given by a cosine and a sine between -1 and 1). *)
Theorem enemy_speed_limit evs k e :
  e ∈ enemies (play rnd cosTo sinTo evs) ->
  exists a b,
    sprites (play rnd cosTo sinTo evs) !! e = Some a
    /\ sprites (update k (play rnd cosTo sinTo evs)) !! e = Some b
    /\ near (inject_Z (enemySpeed (play rnd cosTo sinTo evs))) a b.
Proof.
  destruct (Inv_play evs) as (Hsc & Hco & _).
  generalize dependent (play rnd cosTo sinTo evs). intros s Hsc Hco Hin.
  destruct (scene_enemies _ Hsc e Hin) as (a & Ha & t & Hk).
  pose proof (scene_sprites _ Hsc e a Ha) as (Hb & _).
  assert (Hv : (0 <= enemySpeed s)%Z).
  { destruct Hco as [Hr Hsp _ _ _ _ _]. rewrite Hsp.
    unfold GAME_CONSTANTS.ENEMY_SPEED. lia. }
  assert (Hvq : (0 <= inject_Z (enemySpeed s))%Q)
    by (rewrite <- (Zle_Qle 0); exact Hv).
  assert (Hne : e <> player s).
  { destruct (scene_player _ Hsc) as (pl & Hpl & Hkp). intros ->.
    apply (spriteKey_not_player t). congruence. }
  pose proof (wf_enemies _ (scene_wf _ Hsc) e Hin) as Hlt.
  pose proof (wf_enemies_NoDup _ (scene_wf _ Hsc)) as Hnd.
  exists a. unfold update.
  destruct (escDown k && negb (escapePressed s));
    [exists a; split; [exact Ha|]; split; [exact Ha|apply near_refl, Hvq]|].
  cbv zeta.
  change (if negb (escDown k) then set_escapePressed false s else s)
    with (after_escape k s).
  pose proof (after_escape_session k s) as Hsa.
  pose proof (after_escape_sprites k s) as Hspa.
  assert (Hna : nextId (after_escape k s) = nextId s)
    by (unfold after_escape; destruct (escDown k); reflexivity).
  revert Hsa Hspa Hna. generalize (after_escape k s). intros s1 Hsa Hspa Hna.
  destruct (gameOver s1);
    [exists a; rewrite Hspa; split; [exact Ha|];
     split; [exact Ha|apply near_refl, Hvq]|].
  assert (Hb1 : sprites (clamp_player (move_player k s1)) !! e = Some a).
  { unfold clamp_player. rsimpl. rewrite move_player_sprites.
    destruct (session_fields _ _ (move_player_session k s1)) as (-> & _).
    destruct (session_fields _ _ Hsa) as (-> & _).
    rewrite !lookup_alter_ne by congruence. rewrite Hspa. exact Ha. }
  pose proof (clamp_player_session (move_player k s1)) as Hsb.
  rewrite move_player_session, Hsa in Hsb.
  assert (Hnb : nextId (clamp_player (move_player k s1)) = nextId s).
  { rewrite <- Hna. unfold clamp_player, move_player.
    destruct (leftDown k), (rightDown k), (upDown k), (downDown k);
      reflexivity. }
  revert Hb1 Hsb Hnb. generalize (clamp_player (move_player k s1)).
  intros s2 Hb1 Hsb Hnb.
  destruct (spaceDown k && _);
    [exists a; split; [exact Ha|]; split; [exact Hb1|apply near_refl, Hvq]|].
  destruct (session_fields _ _ Hsb)
    as (_ & He2 & _ & _ & _ & _ & Hsp2 & _).
  destruct (move_fold_near (enemies s2) s2 e a) as (b & Hlk & Hnear);
    [rewrite He2; exact Hnd|rewrite He2; exact Hin|exact Hb1|exact Hb
    |rewrite Hsp2; exact Hv|].
  rewrite <- move_enemies_fold in Hlk. rewrite Hsp2 in Hnear.
  destruct (move_enemies_lookup s2 e) as (Hn3 & _).
  revert Hlk Hn3. generalize (move_enemies s2). intros s3 Hlk Hn3.
  pose proof (collisions_evolve s3) as Hev.
  revert Hev. generalize (enemy_collisions (collectible_collisions s3)).
  intros s4 Hev.
  pose proof (ev_old _ _ Hev e ltac:(left; lia)) as Hold.
  rewrite Hlk in Hold.
  destruct Hold as [Hold|Hold]; rewrite Hold; eexists;
    (split; [exact Ha|]); (split; [reflexivity|]); exact Hnear.
Qed.

End SpeedLimit.

(** * Sessions: the groups on stage *)

Lemma groups_shown_moved s s' :
  groups_shown s -> inv_fields s' = inv_fields s ->
  (forall id, option_Forall2 moved (sprites s !! id) (sprites s' !! id)) ->
  groups_shown s'.
Proof.
  intros H Hf Hm.
  destruct (inv_fields_eq _ _ Hf)
    as (Hn & Hp & He & Hc & Hr & Hsp & Hhe & Hg & Hscore & Hi).
  unfold groups_shown. rewrite Hi, Hg, He, Hc. intros Hit Hgf id Hin.
  destruct (H Hit Hgf id Hin) as (sp & Hsp0 & Hv).
  specialize (Hm id). rewrite Hsp0 in Hm.
  inversion Hm as [a b [_ Hvb] E1 E2|]; subst.
  exists b. split; [reflexivity|congruence].
Qed.

Lemma groups_shown_same s s' :
  groups_shown s -> inv_fields s' = inv_fields s -> sprites s' = sprites s ->
  groups_shown s'.
Proof.
  intros H Hf Hs. apply (groups_shown_moved s); auto.
  intros id. rewrite Hs. destruct (sprites s !! id); constructor.
  apply moved_refl.
Qed.

(** One turn of the collectible loop, during play. *)
Lemma collect_keeps_shown c s :
  scene_ok s -> c ∈ collectibles s ->
  (forall id, id ∈ enemies s \/ id ∈ collectibles s ->
     exists sp, sprites s !! id = Some sp /\ visible sp = true) ->
  forall id, id ∈ enemies (collect c s) \/ id ∈ collectibles (collect c s) ->
    exists sp, sprites (collect c s) !! id = Some sp /\ visible sp = true.
Proof.
  intros Hsc Hin H.
  destruct (touches c GAME_CONSTANTS.COLLECTIBLE_SIZE s) eqn:Ht;
    [|rewrite collect_not_touching by exact Ht; exact H].
  rewrite collect_touching by exact Ht.
  pose proof (scene_wf _ Hsc) as Hwf.
  destruct (collected_fields c s)
    as (Hs1 & Hn1 & Hp1 & He1 & Hc1 & _).
  pose proof (scene_ok_collected c s Hsc) as Hsc1.
  assert (H1 : forall id, id ∈ enemies (collected c s)
                          \/ id ∈ collectibles (collected c s) ->
            exists sp, sprites (collected c s) !! id = Some sp
                       /\ visible sp = true).
  { intros id Hid. rewrite He1, Hc1 in Hid. rewrite Hs1.
    assert (Hne : c <> id).
    { intros <-. destruct Hid as [Hid|Hid].
      - destruct (scene_enemies _ Hsc c Hid) as (sp & Hsp & t & Hk).
        destruct (scene_collectibles _ Hsc c Hin) as (sp' & Hsp' & Hk').
        apply (spriteKey_not_collectible t). congruence.
      - apply (not_elem_of_group_remove c (collectibles s));
          [apply (wf_collectibles_NoDup _ Hwf)|exact Hid]. }
    rewrite lookup_alter_ne by exact Hne. apply H.
    destruct Hid as [Hid|Hid]; [auto|].
    right. apply (elem_of_group_remove c). exact Hid. }
  revert Hsc1 H1 Hn1 He1 Hc1. generalize (collected c s).
  intros s1 Hsc1 H1 Hn1 He1 Hc1. rewrite <- Hc1.
  destruct (length (collectibles s1) =? 0)%nat eqn:Hz; [|exact H1].
  apply Nat.eqb_eq in Hz.
  assert (Hnil : collectibles s1 = [])
    by (destruct (collectibles s1); [reflexivity|discriminate]).
  destruct (new_round_spec s1 Hnil (wf_enemies _ (scene_wf _ Hsc1)))
    as (_ & _ & _ & Hc2 & Hold & Hnew & He2).
  revert Hc2 Hold Hnew He2. generalize (new_round s1).
  intros s2 Hc2 Hold Hnew He2 id Hid.
  assert (Hfresh : forall sp, respawned sp -> visible sp = true).
  { intros sp (px & py & _ & _ & ->). reflexivity. }
  destruct Hid as [Hid|Hid].
  - destruct (2 <=? round s1 + 1)%Z.
    + destruct He2 as (He2 & sp & (t & d & px & py & _ & _ & _ & _ & ->) & Hlk).
      rewrite He2 in Hid. apply elem_of_app in Hid.
      destruct Hid as [Hid|Hid].
      * rewrite Hold by (apply (wf_enemies _ (scene_wf _ Hsc1)), Hid).
        apply H1. auto.
      * apply list_elem_of_singleton in Hid. subst id.
        exists (enemy_at t 0 d px py). split; [exact Hlk|reflexivity].
    + rewrite He2 in Hid.
      rewrite Hold by (apply (wf_enemies _ (scene_wf _ Hsc1)), Hid).
      apply H1. auto.
  - rewrite Hc2 in Hid. apply elem_of_seq in Hid.
    destruct (Hnew (id - nextId s1)%nat) as (sp & Hsp & Hlk); [lia|].
    replace (nextId s1 + (id - nextId s1))%nat with id in Hlk by lia.
    exists sp. split; [exact Hlk|apply Hfresh, Hsp].
Qed.

Lemma groups_shown_update k s :
  Inv s -> groups_shown s -> groups_shown (update k s).
Proof.
  intros HI H. unfold update.
  destruct (escDown k && negb (escapePressed s));
    [apply (groups_shown_same s); auto|].
  cbv zeta.
  change (if negb (escDown k) then set_escapePressed false s else s)
    with (after_escape k s).
  assert (Ha : groups_shown (after_escape k s)).
  { apply (groups_shown_same s); auto;
      unfold after_escape; destruct (escDown k); reflexivity. }
  apply (Inv_after_escape k) in HI. clear H.
  revert HI Ha. generalize (after_escape k s). intros a HI Ha.
  destruct (gameOver a); [exact Ha|].
  assert (Hb : groups_shown (clamp_player (move_player k a))).
  { destruct (steered_moved k a). apply (groups_shown_moved a); auto. }
  apply (Inv_steered k) in HI. clear Ha.
  revert HI Hb. generalize (clamp_player (move_player k a)). intros b HI Hb.
  destruct (spaceDown k && _); [exact Hb|].
  assert (Hm : Inv (move_enemies b) /\ groups_shown (move_enemies b)).
  { unfold move_enemies.
    apply (forEach_inv enemies move_enemy
             (fun st => Inv st /\ groups_shown st)); [|auto].
    intros e st [A B]. split; [apply Inv_move_enemy, A|].
    destruct (move_enemy_moved e st). apply (groups_shown_moved st); auto. }
  clear HI Hb. revert Hm. generalize (move_enemies b). intros m [HI Hm].
  assert (Hc : groups_shown (collectible_collisions m)).
  { unfold collectible_collisions.
    destruct (introComplete m && negb (gameOver m)) eqn:Hgo; [|exact Hm].
    apply andb_prop in Hgo. destruct Hgo as [Hi Hg].
    apply negb_true_iff in Hg.
    assert (Hloop :
      (fun st => scene_ok st
                 /\ forall id, id ∈ enemies st \/ id ∈ collectibles st ->
                      exists sp, sprites st !! id = Some sp
                                 /\ visible sp = true)
        (forEach collectibles collect m)).
    { apply forEach_inv_elem.
      - intros c st Hin (Hsc & Hv).
        split; [apply scene_ok_collect, Hsc|].
        apply collect_keeps_shown; assumption.
      - split; [apply HI|]. apply Hm; assumption. }
    intros _ _. apply Hloop. }
  revert Hc. generalize (collectible_collisions m). intros c Hc.
  unfold enemy_collisions.
  destruct (introComplete c && negb (gameOver c)) eqn:Hgo; [|exact Hc].
  apply andb_prop in Hgo. destruct Hgo as [Hi Hg].
  apply negb_true_iff in Hg.
  assert (Hloop :
    (fun st => gameOver st = false ->
               forall id, id ∈ enemies st \/ id ∈ collectibles st ->
                 exists sp, sprites st !! id = Some sp /\ visible sp = true)
      (forEach enemies hit c)).
  { apply forEach_inv.
    - intros e st Hv Hgf.
      destruct (beside_hits_fields _ _ (hit_beside e st))
        as (_ & He' & Hc' & _).
      destruct (hit_alive e st Hgf) as (Hs' & Hgst).
      rewrite He', Hc', Hs'. auto.
    - intros _. apply Hc; assumption. }
  intros _. exact Hloop.
Qed.

Lemma groups_shown_startActualGame s :
  scene_ok s -> groups_shown (startActualGame s).
Proof.
  intros Hsc _ _ id Hid.
  assert (Hsess : forall v ids st,
            enemies (group_setVisible v ids st) = enemies st
            /\ collectibles (group_setVisible v ids st) = collectibles st).
  { intros v ids st.
    destruct (session_fields _ _ (group_setVisible_session v ids st))
      as (_ & -> & -> & _). auto. }
  revert Hid. unfold startActualGame. cbv zeta.
  cbn [sprites enemies collectibles set_introComplete call].
  rewrite !group_setVisible_lookup.
  destruct (Hsess true
              (enemies (setVisible true (player (call stopIntroMusic s))
                          (call stopIntroMusic s)))
              (setVisible true (player (call stopIntroMusic s))
                 (call stopIntroMusic s))) as (E1 & E2).
  destruct (Hsess true
              (collectibles
                 (group_setVisible true
                    (enemies (setVisible true (player (call stopIntroMusic s))
                                (call stopIntroMusic s)))
                    (setVisible true (player (call stopIntroMusic s))
                       (call stopIntroMusic s))))
              (group_setVisible true
                 (enemies (setVisible true (player (call stopIntroMusic s))
                             (call stopIntroMusic s)))
                 (setVisible true (player (call stopIntroMusic s))
                    (call stopIntroMusic s)))) as (E3 & E4).
  rewrite E3, E4, E1, E2. rsimpl. intros Hid.
  assert (Hex : exists sp, sprites s !! id = Some sp).
  { destruct Hid as [Hid|Hid].
    - destruct (scene_enemies _ Hsc id Hid) as (sp & Hsp & _). eauto.
    - destruct (scene_collectibles _ Hsc id Hid) as (sp & Hsp & _). eauto. }
  destruct Hex as (sp & Hsp).
  assert (Hne : player s <> id).
  { intros <-. destruct (scene_player _ Hsc) as (pl & Hpl & Hkp).
    destruct Hid as [Hid|Hid].
    - destruct (scene_enemies _ Hsc _ Hid) as (sp' & Hsp' & t & Hk).
      apply (spriteKey_not_player t). congruence.
    - destruct (scene_collectibles _ Hsc _ Hid) as (sp' & Hsp' & Hk).
      congruence. }
  rewrite lookup_alter_ne by exact Hne. rewrite Hsp.
  destruct Hid as [Hid|Hid].
  - rewrite (decide_True (P := id ∈ enemies s)) by exact Hid.
    destruct (decide (id ∈ collectibles s)); eexists;
      (split; [reflexivity|reflexivity]).
  - rewrite (decide_True (P := id ∈ collectibles s)) by exact Hid.
    destruct (decide (id ∈ enemies s)); eexists;
      (split; [reflexivity|reflexivity]).
Qed.

Lemma groups_shown_play evs :
  Inv (play rnd cosTo sinTo evs) /\ groups_shown (play rnd cosTo sinTo evs).
Proof.
  unfold play.
  assert (H0 : groups_shown (create rnd)).
  { destruct create_spec as (Hb & _).
    revert Hb. generalize (create rnd). intros r Hb.
    unfold beside_spawns in Hb. injection Hb as _ _ _ _ _ Hi _ _.
    intros Hit. congruence. }
  generalize (conj Inv_create H0). generalize (create rnd).
  induction evs as [|ev evs IH]; intros s H; [exact H|].
  cbn [fold_left]. apply IH. destruct H as [HI HS].
  split; [apply Inv_step, HI|].
  destruct ev; cbn [step].
  - apply groups_shown_update; assumption.
  - apply groups_shown_startActualGame, HI.
  - destruct (returnToStartScreen_canonical s (scene_wf _ (proj1 HI)))
      as (_ & _ & _ & _ & Hi & _).
    intros Hit. congruence.
Qed.

(** X21: at every moment of a session, while play is on every enemy and
    every collectible of the groups is shown: hidden children only exist
    before play starts and after the game is over, so during play the
    visibility tests of the two collision loops never fail. *)
Theorem session_groups_shown_in_play evs id :
  introComplete (play rnd cosTo sinTo evs) = true ->
  gameOver (play rnd cosTo sinTo evs) = false ->
  id ∈ enemies (play rnd cosTo sinTo evs)
  \/ id ∈ collectibles (play rnd cosTo sinTo evs) ->
  exists sp,
    sprites (play rnd cosTo sinTo evs) !! id = Some sp /\ visible sp = true.
Proof.
  intros Hi Hg Hin. destruct (groups_shown_play evs) as (_ & H).
  apply H; assumption.
Qed.

(** X22: a return to the start screen hides the player where it stands
    and does not put it back at the centre, where [create] had put it: at
    every moment of a session, [returnToStartScreen] changes nothing of the
    player sprite but its visibility. *)
Theorem return_keeps_player_position evs :
  let s := play rnd cosTo sinTo evs in
  player (returnToStartScreen s) = player s
  /\ exists pl,
       sprites s !! player s = Some pl
       /\ sprites (returnToStartScreen s) !! player s
          = Some (set_visible false pl).
Proof.
  cbv zeta. destruct (Inv_play evs) as (Hsc & _).
  revert Hsc. generalize (play rnd cosTo sinTo evs). intros s Hsc.
  pose proof (scene_wf _ Hsc) as Hwf.
  destruct (returnToStartScreen_spec s Hwf) as (Hb & _ & _ & _ & _ & _ & Hold).
  revert Hb Hold. generalize (returnToStartScreen s). intros r Hb Hold.
  unfold beside_spawns in Hb. injection Hb as Hp _ _ _ _ _ _ _.
  split; [exact Hp|].
  destruct (scene_player _ Hsc) as (pl & Hpl & Hkp).
  exists pl. split; [exact Hpl|].
  rewrite Hold by (left; apply (wf_player _ Hwf)).
  rewrite decide_False.
  - rewrite decide_True by reflexivity. rewrite Hpl. reflexivity.
  - intros [Hin|Hin].
    + destruct (scene_enemies _ Hsc _ Hin) as (sp & Hsp & t & Hk).
      apply (spriteKey_not_player t). congruence.
    + destruct (scene_collectibles _ Hsc _ Hin) as (sp & Hsp & Hk).
      congruence.
Qed.

(** * What a frame costs and pays *)

Lemma keeps_books_refl s : keeps_books s s.
Proof. unfold keeps_books. auto. Qed.

Lemma keeps_books_trans s1 s2 s3 :
  keeps_books s1 s2 -> keeps_books s2 s3 -> keeps_books s1 s3.
Proof.
  unfold keeps_books. intros (A & B & C) (A' & B' & C').
  split; [congruence|]. split; lia.
Qed.

Lemma keeps_books_session s s' : session s' = session s -> keeps_books s s'.
Proof.
  intros H.
  destruct (session_fields _ _ H)
    as (_ & _ & _ & Hsc & Hh & _ & _ & _ & _ & Hca).
  unfold keeps_books, tallies, tally, health_tally, count_calls.
  rewrite Hsc, Hh, Hca. auto.
Qed.

Lemma keeps_books_collect c s : keeps_books s (collect c s).
Proof.
  destruct (keeps_tally_collect c s) as (Ht & Hc).
  destruct (beside_collects_fields _ _ (collect_beside c s))
    as (_ & Hh & _ & _ & _ & Hd).
  revert Ht Hc Hh Hd. generalize (collect c s). intros r Ht Hc Hh Hd.
  unfold keeps_books, tallies, health_tally.
  unfold count_calls in Hd |- *. rewrite Ht, Hh, Hd.
  split; [reflexivity|]. split; [exact Hc|lia].
Qed.

Lemma keeps_books_hit e s : keeps_books s (hit e s).
Proof.
  destruct (keeps_tally_hit e s) as (Ht & Hc).
  assert (Hd : health_tally (hit e s) = health_tally s
               /\ (count_calls playDamageSound s
                   <= count_calls playDamageSound (hit e s))%nat).
  { unfold hit.
    destruct (touches e GAME_CONSTANTS.ENEMY_SIZE s); [|split; reflexivity].
    cbv zeta.
    assert (H1 : health_tally
                   (call playDamageSound
                      (set_health
                         (health s - GAME_CONSTANTS.DAMAGE_PER_ENEMY) s))
                 = health_tally s
                 /\ (count_calls playDamageSound s
                     <= count_calls playDamageSound
                          (call playDamageSound
                             (set_health
                                (health s - GAME_CONSTANTS.DAMAGE_PER_ENEMY)
                                s)))%nat).
    { unfold health_tally, count_calls. cbn [calls call set_health health].
      rewrite count_occ_app. cbn [count_occ].
      destruct (Call_eq_dec _ _); [|congruence].
      unfold GAME_CONSTANTS.DAMAGE_PER_ENEMY. split; lia. }
    revert H1.
    generalize (call playDamageSound
                  (set_health (health s - GAME_CONSTANTS.DAMAGE_PER_ENEMY) s)).
    intros s1 (H1 & H2).
    destruct (health s1 <=? 0)%Z; [|auto].
    destruct (game_over_fields s1) as (_ & Hh & Hca).
    unfold health_tally, count_calls in *. rewrite Hh, Hca, !count_occ_app.
    cbn [count_occ].
    repeat (destruct (Call_eq_dec _ _); [discriminate|]).
    rewrite !Nat.add_0_r. auto. }
  destruct Hd as (Hd1 & Hd2).
  revert Ht Hc Hd1 Hd2. generalize (hit e s). intros r Ht Hc Hd1 Hd2.
  unfold keeps_books, tallies. rewrite Ht, Hd1. auto.
Qed.

Lemma keeps_books_update k s : keeps_books s (update k s).
Proof.
  unfold update.
  destruct (escDown k && negb (escapePressed s)).
  { unfold keeps_books, tallies, tally, health_tally, count_calls.
    cbn [calls call set_escapePressed score health].
    rewrite !count_occ_app. cbn [count_occ].
    repeat destruct (Call_eq_dec _ _); try discriminate.
    rewrite !Nat.add_0_r. auto. }
  cbv zeta.
  change (if negb (escDown k) then set_escapePressed false s else s)
    with (after_escape k s).
  pose proof (keeps_books_session _ _ (after_escape_session k s)) as Ha.
  revert Ha. generalize (after_escape k s). intros a Ha.
  destruct (gameOver a); [exact Ha|].
  assert (Hb : keeps_books s (clamp_player (move_player k a))).
  { eapply keeps_books_trans; [exact Ha|]. apply keeps_books_session.
    rewrite clamp_player_session. apply move_player_session. }
  clear Ha. revert Hb. generalize (clamp_player (move_player k a)).
  intros b Hb.
  destruct (spaceDown k && _); [exact Hb|].
  assert (Hm : keeps_books s (move_enemies b)).
  { eapply keeps_books_trans; [exact Hb|]. apply keeps_books_session.
    apply move_enemies_session. }
  clear Hb. revert Hm. generalize (move_enemies b). intros m Hm.
  assert (Hc : keeps_books s (collectible_collisions m)).
  { unfold collectible_collisions.
    destruct (introComplete m && negb (gameOver m)); [|exact Hm].
    apply (forEach_inv collectibles collect (keeps_books s)); [|exact Hm].
    intros c st Hst. eapply keeps_books_trans; [exact Hst|].
    apply keeps_books_collect. }
  clear Hm. revert Hc. generalize (collectible_collisions m). intros c Hc.
  unfold enemy_collisions.
  destruct (introComplete c && negb (gameOver c)); [|exact Hc].
  apply (forEach_inv enemies hit (keeps_books s)); [|exact Hc].
  intros e st Hst. eapply keeps_books_trans; [exact Hst|].
  apply keeps_books_hit.
Qed.

(** X23: for every state and keys, what a frame does to the score and to
    the health is announced call for call: the frame adds ten points for
    each collect call it makes and takes ten points of health for each
    damage call it makes, and it makes each of them some number of times,
    possibly none. *)
Theorem frame_books k s :
  exists c d : nat,
    count_calls playCollectSound (update k s)
    = (count_calls playCollectSound s + c)%nat
    /\ score (update k s)
       = (score s + GAME_CONSTANTS.SCORE_PER_COLLECTIBLE * Z.of_nat c)%Z
    /\ count_calls playDamageSound (update k s)
       = (count_calls playDamageSound s + d)%nat
    /\ health (update k s)
       = (health s - GAME_CONSTANTS.DAMAGE_PER_ENEMY * Z.of_nat d)%Z.
Proof.
  destruct (keeps_books_update k s) as (Ht & Hc & Hd).
  revert Ht Hc Hd. generalize (update k s). intros r Ht Hc Hd.
  unfold tallies, tally, health_tally in Ht. injection Ht as Ht Hh.
  fold (count_calls playCollectSound r) in Ht.
  fold (count_calls playCollectSound s) in Ht.
  fold (count_calls playDamageSound r) in Hh.
  fold (count_calls playDamageSound s) in Hh.
  exists (count_calls playCollectSound r - count_calls playCollectSound s)%nat,
    (count_calls playDamageSound r - count_calls playDamageSound s)%nat.
  unfold GAME_CONSTANTS.SCORE_PER_COLLECTIBLE,
    GAME_CONSTANTS.DAMAGE_PER_ENEMY in *.
  repeat split; lia.
Qed.

(** * AudioSystem: the flags never go back *)

(** X24: whatever audio calls and browser events came before, no call and
    no event takes back what was gained: a context that exists stays,
    [isAudioInitialized] and [isAudioUnlocked] stay set, and the
    oscillators started are never forgotten. *)
Theorem audio_flags_never_reset evs ev :
  let a := AudioSystem.play evs in
  let a' := AudioSystem.step a ev in
  (AudioSystem.audioContext a <> None -> AudioSystem.audioContext a' <> None)
  /\ (AudioSystem.isAudioInitialized a = true ->
      AudioSystem.isAudioInitialized a' = true)
  /\ (AudioSystem.isAudioUnlocked a = true ->
      AudioSystem.isAudioUnlocked a' = true)
  /\ exists l, AudioSystem.scheduled a' = AudioSystem.scheduled a ++ l.
Proof.
  cbv zeta. destruct (audio_ok_play evs) as (H1 & H2 & H3).
  revert H1 H2 H3. generalize (AudioSystem.play evs).
  intros [ctx ini unl r sch].
  cbn [AudioSystem.audioContext AudioSystem.isAudioInitialized
       AudioSystem.isAudioUnlocked AudioSystem.resuming
       AudioSystem.scheduled].
  intros H1 H2 H3.
  assert (Hnil : forall l : list AudioSystem.Beep, exists l', l = l ++ l')
    by (intros l; exists []; rewrite app_nil_r; reflexivity).
  destruct ev as [mk|mk|mk b|ok|c];
    cbn [AudioSystem.step AudioSystem.init AudioSystem.unlock
         AudioSystem.createBeep AudioSystem.settle
         AudioSystem.context_changed AudioSystem.audioContext
         AudioSystem.isAudioInitialized AudioSystem.isAudioUnlocked
         AudioSystem.resuming AudioSystem.scheduled].
  - destruct ctx as [c|]; cbn; [auto|].
    destruct ini; [exfalso; apply H1; reflexivity|].
    destruct mk as [c|]; cbn; repeat split; auto; congruence.
  - destruct unl; cbn; [auto|].
    destruct ini; cbn.
    + destruct ctx as [[]|]; cbn; repeat split; auto; congruence.
    + destruct ctx as [c|];
        [destruct H1 as [_ H1]; discriminate H1; congruence|].
      destruct mk as [[]|]; cbn; repeat split; auto; congruence.
  - destruct unl; cbn; [|auto].
    assert (Hc : ctx <> None) by (apply H2; reflexivity).
    assert (Hi : ini = true) by (apply H1; exact Hc). subst ini.
    destruct ctx as [c|]; [|congruence]. cbn. repeat split; eauto.
  - destruct r as [|r]; cbn; [auto|].
    repeat split; auto. intros ->. destruct ok, ctx; reflexivity.
  - destruct ctx as [c0|]; cbn; repeat split; auto; congruence.
Qed.

End Properties.

Lemma spacebar_blocks_frame_witness :
  sprites (update rnd0 dir0 dir0 holding_space scene_collect) !! 0%nat
    = (fun sp => clamp_sprite (steer holding_space sp))
        <$> sprites scene_collect !! 0%nat
  /\ (forall id, id <> 0%nat ->
        sprites (update rnd0 dir0 dir0 holding_space scene_collect) !! id
        = sprites scene_collect !! id)
  /\ enemies (update rnd0 dir0 dir0 holding_space scene_collect) = [3%nat]
  /\ collectibles (update rnd0 dir0 dir0 holding_space scene_collect)
     = [1%nat; 2%nat]
  /\ score (update rnd0 dir0 dir0 holding_space scene_collect) = 0%Z
  /\ health (update rnd0 dir0 dir0 holding_space scene_collect) = 100%Z
  /\ round (update rnd0 dir0 dir0 holding_space scene_collect) = 1%Z.
Proof.
  apply (spacebar_blocks_frame rnd0 dir0 dir0 holding_space scene_collect);
    reflexivity.
Defined.

(** With the escape key freshly pressed the frame ends before the player is
    moved: the spacebar and the left arrow are held during active play, and
    the player stays at [x = 100] although steering and clamping would put
    it at [x = 95]. *)
Lemma spacebar_frame_escape_counterexample :
  spaceDown escape_space_left = true
  /\ introComplete scene_collect = true
  /\ gameOver scene_collect = false
  /\ x <$> sprites (update rnd0 dir0 dir0 escape_space_left scene_collect)
             !! player scene_collect = Some (100 # 1)
  /\ x <$> sprites (clamp_player (move_player escape_space_left scene_collect))
             !! player scene_collect = Some (95 # 1).
Proof. vm_compute. repeat split; reflexivity. Qed.


Lemma movement_inert_when_game_over_witness :
  (forall id, sprites (update rnd0 dir0 dir0 holding_left scene_over) !! id
              = sprites scene_over !! id)
  /\ enemies (update rnd0 dir0 dir0 holding_left scene_over) = [3%nat]
  /\ collectibles (update rnd0 dir0 dir0 holding_left scene_over)
     = [1%nat; 2%nat].
Proof.
  apply (movement_inert_when_game_over rnd0 dir0 dir0 holding_left scene_over).
  reflexivity.
Defined.

(** Before the intro is complete, with every sprite still hidden, the left
    arrow moves the player from [x = 400] to [x = 395]. *)
Lemma movement_before_intro_counterexample :
  introComplete (create rnd0) = false
  /\ gameOver (create rnd0) = false
  /\ player_visible (create rnd0) = false
  /\ x <$> sprites (create rnd0) !! player (create rnd0) = Some (800 # 2)
  /\ x <$> sprites (update rnd0 dir0 dir0 holding_left (create rnd0))
             !! player (create rnd0) = Some (790 # 2).
Proof. vm_compute. repeat split; reflexivity. Qed.

Lemma clamped_within_player_bounds_witness :
  (forall sp,
     sprites (update rnd0 dir0 dir0 quiet scene_edge) !! player scene_edge
     = Some sp -> in_bounds sp)
  /\ (forall e sp,
        e ∈ enemies (update rnd0 dir0 dir0 quiet scene_edge) ->
        sprites (update rnd0 dir0 dir0 quiet scene_edge) !! e = Some sp ->
        in_bounds sp).
Proof.
  destruct (clamped_within_player_bounds rnd0 dir0 dir0 quiet scene_edge)
    as [Hp He];
    [apply wf_check_sound; reflexivity|reflexivity|reflexivity|].
  split; [exact Hp|apply He; reflexivity].
Defined.

(** A random enemy at [x = 40] that draws the offset [-4] ends the frame at
    [x = 36]: within the bounds of the player size 32, below its own size
    48. *)
Lemma enemy_clamp_counterexample :
  enemies (update rnd0 dir0 dir0 quiet scene_edge) = [1%nat]
  /\ x <$> sprites (update rnd0 dir0 dir0 quiet scene_edge) !! 1%nat
     = Some (36 # 1)
  /\ ~ (inject_Z GAME_CONSTANTS.ENEMY_SIZE <= 36 # 1)%Q.
Proof.
  split; [reflexivity|]. split; [reflexivity|].
  intros H. apply Qle_bool_iff in H. discriminate H.
Qed.



(** The scenario of the spec, played: the score goes from 0 to 10 and the
    collectible leaves the group. *)
Lemma collect_scenario :
  score scene_collect = 0%Z
  /\ score (update rnd0 dir0 dir0 quiet scene_collect) = 10%Z
  /\ collectibles (update rnd0 dir0 dir0 quiet scene_collect) = [2%nat]
  /\ visible <$> sprites (update rnd0 dir0 dir0 quiet scene_collect) !! 1%nat
     = Some false.
Proof. vm_compute. repeat split; reflexivity. Qed.

(** Two touched collectibles next to each other in the group: the loop
    collects the first and passes over the second in that frame. *)
Lemma collect_pair_skips_second :
  touches 1 GAME_CONSTANTS.COLLECTIBLE_SIZE scene_pair = true
  /\ touches 2 GAME_CONSTANTS.COLLECTIBLE_SIZE scene_pair = true
  /\ collectibles (update rnd0 dir0 dir0 quiet scene_pair) = [2%nat; 3%nat]
  /\ score (update rnd0 dir0 dir0 quiet scene_pair) = 10%Z.
Proof. vm_compute. repeat split; reflexivity. Qed.


Lemma game_over_happens_once_witness :
  gameOver (update rnd0 dir0 dir0 quiet scene_fatal) = true
  /\ count_calls playGameOverSound (update rnd0 dir0 dir0 quiet scene_fatal)
     = 1%nat
  /\ count_calls createBeep (update rnd0 dir0 dir0 quiet scene_fatal)
     = 1%nat
  /\ health (update rnd0 dir0 dir0 quiet scene_fatal) = 0%Z
  /\ all_hidden (update rnd0 dir0 dir0 quiet scene_fatal)
  /\ forall ks,
       score (run rnd0 dir0 dir0 ks (update rnd0 dir0 dir0 quiet scene_fatal))
       = 0%Z
       /\ health (run rnd0 dir0 dir0 ks
                    (update rnd0 dir0 dir0 quiet scene_fatal)) = 0%Z
       /\ round (run rnd0 dir0 dir0 ks
                   (update rnd0 dir0 dir0 quiet scene_fatal)) = 1%Z.
Proof.
  destruct (game_over_happens_once rnd0 dir0 dir0 quiet scene_fatal)
    as (G & A & B & _ & _ & D & E).
  - reflexivity.
  - reflexivity.
  - reflexivity.
  - reflexivity.
  - vm_compute. discriminate.
  - vm_compute. discriminate.
  - split; [exact G|]. split; [exact A|]. split; [exact B|].
    split; [reflexivity|]. split; [exact D|].
    intros ks. destruct (E ks) as (E1 & E2 & E3 & _). auto.
Defined.

Lemma overlapping_enemies_each_hit_witness :
  health (update rnd0 dir0 dir0 quiet scene_crowd) = 70%Z
  /\ count_calls playDamageSound (update rnd0 dir0 dir0 quiet scene_crowd)
     = 3%nat.
Proof.
  apply (overlapping_enemies_each_hit rnd0 dir0 dir0 quiet scene_crowd);
    reflexivity.
Defined.

(** Three enemies on the player during active play, the spacebar held: no
    damage is taken. *)
Lemma damage_blocked_by_spacebar_counterexample :
  introComplete scene_crowd = true
  /\ gameOver scene_crowd = false
  /\ touching (enemies scene_crowd) scene_crowd = [1%nat; 2%nat; 3%nat]
  /\ touching (enemies scene_crowd)
       (update rnd0 dir0 dir0 holding_space scene_crowd)
     = [1%nat; 2%nat; 3%nat]
  /\ health (update rnd0 dir0 dir0 holding_space scene_crowd) = 100%Z.
Proof. vm_compute. repeat split; reflexivity. Qed.

Lemma reset_restores_canonical_witness :
  canonical (returnToStartScreen rnd0 scene_collect)
  /\ canonical (returnToStartScreen rnd0 (returnToStartScreen rnd0 scene_collect))
  /\ enemies (returnToStartScreen rnd0 scene_collect) = seq 4 5
  /\ collectibles (returnToStartScreen rnd0 scene_collect) = seq 9 10
  /\ forall id, id ∈ enemies scene_collect \/ id ∈ collectibles scene_collect ->
       sprites (returnToStartScreen rnd0 scene_collect) !! id = None.
Proof.
  apply (reset_restores_canonical rnd0 scene_collect).
  apply wf_check_sound. reflexivity.
Defined.

(** The frame that collects the last collectible of round 1: the ten new
    collectibles (sprites 3 to 12) and the new enemy (sprite 13) are in
    their groups and visible. *)
Lemma round_spawn_visible_counterexample :
  collectibles (update rnd0 dir0 dir0 quiet scene_last) = seq 3 10
  /\ enemies (update rnd0 dir0 dir0 quiet scene_last) = [2%nat; 13%nat]
  /\ map (fun id =>
            visible <$> sprites (update rnd0 dir0 dir0 quiet scene_last) !! id)
       (seq 3 11)
     = repeat (Some true) 11.
Proof. vm_compute. repeat split; reflexivity. Qed.

(** ** Sessions *)

Lemma session_sprites_in_bounds_witness :
  exists sp,
    sprites (play rnd0 dir0 dir0 [StartGame; Frame holding_left]) !! 0%nat
    = Some sp /\ in_bounds sp.
Proof.
  eexists. split; [vm_compute; reflexivity|].
  apply (session_sprites_in_bounds rnd0 dir0 dir0
           [StartGame; Frame holding_left] 0%nat).
  vm_compute. reflexivity.
Defined.

Lemma session_enemy_properties_witness :
  exists sp p,
    sprites (play rnd0 dir0 dir0 [StartGame; Frame quiet]) !! 1%nat = Some sp
    /\ props sp = Some p
    /\ type p ∈ ENEMY_TYPES
    /\ key sp = spriteKey (type p)
    /\ (0 <= moveCounter p <= 60)%Z
    /\ (0 <= moveDirection p <= 3)%Z.
Proof.
  apply (session_enemy_properties rnd0 dir0 dir0 [StartGame; Frame quiet]
           1%nat).
  vm_compute. apply elem_of_cons. left. reflexivity.
Defined.

Lemma session_hidden_before_start_witness :
  all_hidden (play rnd0 dir0 dir0 [Frame holding_left; Frame quiet]).
Proof.
  apply (session_hidden_before_start rnd0 dir0 dir0
           [Frame holding_left; Frame quiet]).
  vm_compute. reflexivity.
Defined.

Lemma neighbour_of_collected_is_skipped_witness :
  touches 2 GAME_CONSTANTS.COLLECTIBLE_SIZE
    (after_movement rnd0 dir0 dir0 quiet scene_pair) = true
  /\ 2%nat <> 1%nat
  /\ collectibles (update rnd0 dir0 dir0 quiet scene_pair) !! 0%nat
     = Some 2%nat
  /\ round (update rnd0 dir0 dir0 quiet scene_pair) = round scene_pair.
Proof.
  split; [vm_compute; reflexivity|].
  apply (neighbour_of_collected_is_skipped rnd0 dir0 dir0 quiet scene_pair
           0%nat 1%nat 2%nat).
  - apply wf_check_sound. vm_compute. reflexivity.
  - reflexivity.
  - reflexivity.
  - reflexivity.
  - reflexivity.
  - vm_compute. reflexivity.
  - vm_compute. reflexivity.
  - vm_compute. reflexivity.
  - intros j c' Hj. lia.
Defined.

Lemma escape_key_latch_witness :
  (escapePressed
     (run rnd0 dir0 dir0 [holding_escape; holding_escape] scene_fatal)
   = true
   /\ count_calls delayedCall_returnToStartScreen
        (run rnd0 dir0 dir0 [holding_escape; holding_escape] scene_fatal)
      = 1%nat
   /\ count_calls createBeep
        (run rnd0 dir0 dir0 [holding_escape; holding_escape] scene_fatal)
      = 2%nat
   /\ count_calls playGameOverSound
        (run rnd0 dir0 dir0 [holding_escape; holding_escape] scene_fatal)
      = 1%nat)
  /\ count_calls createBeep
       (run rnd0 dir0 dir0 [escape_space_left; escape_space_left] scene_over)
     = 1%nat
  /\ (escapePressed (update rnd0 dir0 dir0 quiet scene_fatal) = false
      /\ count_calls delayedCall_returnToStartScreen
           (update rnd0 dir0 dir0 quiet scene_fatal)
         = 0%nat
      /\ count_calls createBeep (update rnd0 dir0 dir0 quiet scene_fatal)
         = count_calls playGameOverSound
             (update rnd0 dir0 dir0 quiet scene_fatal))
  /\ count_calls createBeep (update rnd0 dir0 dir0 quiet scene_over) = 0%nat.
Proof.
  destruct (escape_key_latch rnd0 dir0 dir0 scene_fatal) as [H1 H2].
  destruct (escape_key_latch rnd0 dir0 dir0 scene_over) as [H3 H4].
  split; [|split; [|split]].
  - destruct (H1 [holding_escape; holding_escape]) as (A & B & C & _);
      [reflexivity|discriminate|repeat constructor|].
    split; [exact A|]. split; [exact B|].
    assert (D : count_calls playGameOverSound
                  (run rnd0 dir0 dir0 [holding_escape; holding_escape]
                     scene_fatal) = 1%nat)
      by (vm_compute; reflexivity).
    rewrite D in C. split; [|exact D].
    change (count_calls createBeep scene_fatal) with 0%nat in C.
    change (count_calls playGameOverSound scene_fatal) with 0%nat in C.
    rewrite Nat.add_0_r in C. exact C.
  - destruct (H3 [escape_space_left; escape_space_left]) as (_ & _ & _ & C);
      [reflexivity|discriminate|repeat constructor|].
    apply C. reflexivity.
  - destruct (H2 quiet) as (A & B & C & _); [reflexivity|].
    split; [exact A|]. split; [exact B|].
    change (count_calls createBeep scene_fatal) with 0%nat in C.
    change (count_calls playGameOverSound scene_fatal) with 0%nat in C.
    rewrite Nat.add_0_r in C. exact C.
  - destruct (H4 quiet) as (_ & _ & _ & C); [reflexivity|].
    apply C. reflexivity.
Defined.

Lemma player_step_witness :
  exists pl',
    sprites (update rnd0 dir0 dir0 holding_left scene_collect) !! 0%nat
    = Some pl'
    /\ x pl' = inject_Z 95 /\ y pl' = inject_Z 100.
Proof.
  destruct (player_step rnd0 dir0 dir0 holding_left scene_collect
              (player_at 100 100))
    as (pl' & A & B & C & _).
  - apply wf_check_sound. vm_compute. reflexivity.
  - vm_compute. intros H. apply elem_of_cons in H.
    destruct H as [H|H]; [discriminate|]. apply elem_of_nil in H. exact H.
  - reflexivity.
  - reflexivity.
  - reflexivity.
  - exists pl'. split; [exact A|]. split; [rewrite B|rewrite C];
      vm_compute; reflexivity.
Defined.

Lemma session_player_shown_in_play_witness :
  exists pl,
    sprites (play rnd0 dir0 dir0 [StartGame; Frame holding_left])
      !! player (play rnd0 dir0 dir0 [StartGame; Frame holding_left])
    = Some pl
    /\ visible pl = true.
Proof.
  apply (session_player_shown_in_play rnd0 dir0 dir0
           [StartGame; Frame holding_left]);
    vm_compute; reflexivity.
Defined.

Lemma session_enemies_random_before_start_witness :
  exists sp p,
    sprites (play rnd0 dir0 dir0 [Frame quiet; ReturnToStart; Frame quiet])
      !! 16%nat = Some sp
    /\ props sp = Some p /\ type p = random.
Proof.
  apply (session_enemies_random_before_start rnd0 dir0 dir0
           [Frame quiet; ReturnToStart; Frame quiet] 16%nat).
  - vm_compute. reflexivity.
  - vm_compute. apply elem_of_cons. left. reflexivity.
Defined.

Lemma frames_before_start_only_move_witness :
  session (update rnd0 dir0 dir0 holding_space (create rnd0))
  = session (create rnd0)
  /\ nextId (update rnd0 dir0 dir0 holding_space (create rnd0))
     = nextId (create rnd0).
Proof.
  destruct (frames_before_start_only_move rnd0 dir0 dir0 holding_space
              (create rnd0)) as (A & B & _).
  - vm_compute. reflexivity.
  - vm_compute. reflexivity.
  - split; [exact A|exact B].
Defined.

Lemma enemy_speed_limit_witness :
  exists a b,
    sprites (play rnd0 dir0 dir0 [StartGame]) !! 1%nat = Some a
    /\ sprites (update rnd0 dir0 dir0 quiet (play rnd0 dir0 dir0 [StartGame]))
         !! 1%nat = Some b
    /\ near (inject_Z (enemySpeed (play rnd0 dir0 dir0 [StartGame]))) a b.
Proof.
  apply (enemy_speed_limit rnd0 dir0 dir0).
  - intros a b c d. unfold dir0. split; apply Qle_bool_imp_le; reflexivity.
  - intros a b c d. unfold dir0. split; apply Qle_bool_imp_le; reflexivity.
  - vm_compute. apply elem_of_cons. left. reflexivity.
Defined.

Lemma session_groups_shown_in_play_witness :
  exists sp,
    sprites (play rnd0 dir0 dir0 [StartGame; Frame quiet]) !! 6%nat = Some sp
    /\ visible sp = true.
Proof.
  apply (session_groups_shown_in_play rnd0 dir0 dir0 [StartGame; Frame quiet]
           6%nat).
  - vm_compute. reflexivity.
  - vm_compute. reflexivity.
  - right. vm_compute. apply elem_of_cons. left. reflexivity.
Defined.
